(** * Newton iteration, well elimination and adaptive time stepping

    A shallow embedding of the control logic of

      - opm/simulators/timestepping/AdaptiveTimeStepping_impl.hpp
      - opm/autodiff/BlackoilModelEbos.hpp
      - opm/autodiff/StandardWellsDense_impl.hpp

    Conventions.

    - A C++ [double] is idealised as an exact rational [Q]: arithmetic is
      exact, there is no NaN and no infinity.  Where the behaviour of the
      code depends on a division by zero, the definition says so.
    - [int] indices that are never negative are [nat]; an [int] that can be
      compared with a counter or be negative is [Z].
    - [std::vector<double>] is [list Q], read with [vget] and written with
      the list update [<[i:=x]>]; a write out of range (undefined behaviour
      in C++) leaves the list as it is.
    - A C++ function that can throw returns a [Result].
    - Collaborators that live outside the three files (the grid simulator,
      the linear solver, the sub step timer, the VFP tables, ...) are
      records of functions that the embedded code calls. *)

From Stdlib Require Import QArith Qminmax Qabs Lqa ZArith Lia List Bool.
From stdpp Require Import base list.
Import ListNotations.
Open Scope Q_scope.

(* ===================================================================== *)
(** * Part I: definitions                                                 *)
(* ===================================================================== *)

(** ** Scalars and vectors *)

Definition Qltb (x y : Q) : bool := negb (Qle_bool y x).
Definition Qgtb (x y : Q) : bool := Qltb y x.
Definition Qleb (x y : Q) : bool := Qle_bool x y.

(** [std::max(a, b)] is [(a < b) ? b : a] and [std::min(a, b)] is
    [(b < a) ? b : a]. *)
Definition std_max (a b : Q) : Q := if Qltb a b then b else a.
Definition std_min (a b : Q) : Q := if Qltb b a then b else a.

(** [v[i]] on a [std::vector<double>]. *)
Definition vget (v : list Q) (i : nat) : Q := default 0 (v !! i).

(** [v[i]] on a [std::vector<int>]. *)
Definition zget (v : list Z) (i : nat) : Z := default 0%Z (v !! i).

(** [const int sign = d > 0 ? 1 : -1]. *)
Definition sign_of (d : Q) : Q := if Qltb 0 d then 1 else -1.

(** ** Exceptions and reports *)

(** The dynamic type of a thrown C++ exception, as far as the three files
    distinguish them. *)
Inductive Exception : Type :=
| TooManyIterations
| LinearSolverProblem
| NumericalProblem
| StdRuntimeError
| ISTLError
| MatrixBlockError
| FMatrixError
| StdLogicError
| OtherException.

Inductive Result (A : Type) : Type :=
| Ok (a : A)
| Throw (e : Exception).
Arguments Ok {A} a.
Arguments Throw {A} e.

(** [SimulatorReport]: the flag and the counters (the wall-clock fields are
    left out).  [report_add] is [operator+=]: it adds the counters and
    leaves [converged] of the left operand alone. *)
Record SimulatorReport : Type := mkReport {
  converged : bool;
  total_linearizations : Z;
  total_newton_iterations : Z;
  total_linear_iterations : Z;
  total_well_iterations : Z
}.

Definition emptyReport : SimulatorReport := mkReport false 0 0 0 0.

Definition report_add (a b : SimulatorReport) : SimulatorReport :=
  mkReport (converged a)
           (total_linearizations a + total_linearizations b)
           (total_newton_iterations a + total_newton_iterations b)
           (total_linear_iterations a + total_linear_iterations b)
           (total_well_iterations a + total_well_iterations b).

Definition set_converged (b : bool) (r : SimulatorReport) : SimulatorReport :=
  mkReport b (total_linearizations r) (total_newton_iterations r)
           (total_linear_iterations r) (total_well_iterations r).

(* --------------------------------------------------------------------- *)
(** ** AdaptiveTimeStepping::stepImpl                                     *)
(* --------------------------------------------------------------------- *)

Module AdaptiveTimeStepping.

(** The [AdaptiveSimulatorTimer] used as [substepTimer]. *)
Record TimerOps (Timer : Type) : Type := {
  done : Timer -> bool;
  currentStepLength : Timer -> Q;
  simulationTimeElapsed : Timer -> Q;
  advance : Timer -> Timer;                          (* ++substepTimer *)
  provideTimeStepEstimate : Q -> Timer -> Timer;
  setLastStepFailed : bool -> Timer -> Timer
}.
Arguments done {Timer} _ _.
Arguments currentStepLength {Timer} _ _.
Arguments simulationTimeElapsed {Timer} _ _.
Arguments advance {Timer} _ _.
Arguments provideTimeStepEstimate {Timer} _ _ _.
Arguments setLastStepFailed {Timer} _ _ _.

(** The nonlinear solver.  [step] works on [state] and [well_state] by
    reference, so it hands both back also when it throws. *)
Record SolverOps (Solver State WState Timer : Type) : Type := {
  step : Solver -> Timer -> State -> WState ->
         Solver * State * WState * Result SimulatorReport;
  failureReport : Solver -> SimulatorReport;
  relativeChange : Solver -> State -> State -> Q
}.
Arguments step {Solver State WState Timer} _ _ _ _ _.
Arguments failureReport {Solver State WState Timer} _ _.
Arguments relativeChange {Solver State WState Timer} _ _ _ _.

(** The fields of the [AdaptiveTimeStepping] object read by [stepImpl];
    [computeTimeStepSize] is [timeStepControl_->computeTimeStepSize]. *)
Record Params : Type := {
  restart_factor_ : Q;
  growth_factor_ : Q;
  max_growth_ : Q;
  max_time_step_ : Q;
  solver_restart_max_ : Z;
  use_newton_iteration_ : bool;
  full_timestep_initially_ : bool;
  timestep_after_event_ : Q;
  computeTimeStepSize : Q -> Z -> Q -> Q -> Q
}.

(** The handlers after the [try] block, in order. *)
Definition caught (e : Exception) : bool :=
  match e with
  | TooManyIterations | LinearSolverProblem | NumericalProblem
  | StdRuntimeError | ISTLError | MatrixBlockError => true
  | _ => false
  end.

(** The solver result of a failed sub step: an exception with a handler, or
    a report that is not converged. *)
Definition failed_result (res : Result SimulatorReport) : bool :=
  match res with
  | Ok r => negb (converged r)
  | Throw e => caught e
  end.

Section StepImpl.
Context {Solver State WState Timer : Type}.
Variable T : TimerOps Timer.
Variable S : SolverOps Solver State WState Timer.
Variable P : Params.

(** The variables live across the sub step loop. *)
Record Loop : Type := mkLoop {
  substepTimer : Timer;
  solver : Solver;
  state : State;
  well_state : WState;
  last_state : State;
  last_well_state : WState;
  restarts : Z;
  report : SimulatorReport;
  failureReport_ : SimulatorReport
}.

(** How one pass of the loop body ends. *)
Inductive BodyEnd : Type :=
| Next (l : Loop)                   (* falls through to the loop test *)
| Fatal (l : Loop)                  (* OPM_THROW_NOLOG(NumericalProblem) *)
| Escaped (e : Exception) (l : Loop). (* exception of solver.step, not caught *)

(** The [try] block and its handlers: the sub step report, and whether
    an exception leaves the block. *)
Definition try_step (l : Loop)
  : Solver * State * WState * SimulatorReport * SimulatorReport * option Exception :=
  let '(sv, st, wst, res) := step S (solver l) (substepTimer l) (state l) (well_state l) in
  match res with
  | Ok substepReport =>
      (sv, st, wst, substepReport, report_add (report l) substepReport, None)
  | Throw e =>
      if caught e
      then (sv, st, wst, report_add emptyReport (failureReport S sv), report l, None)
      else (sv, st, wst, emptyReport, report l, Some e)
  end.

(** The branch [if (substepReport.converged)]. *)
Definition on_converged (l : Loop) (dt : Q) (sv : Solver) (st : State) (wst : WState)
           (substepReport rep : SimulatorReport) : Loop :=
  let t1 := advance T (substepTimer l) in
  let iterations :=
    if use_newton_iteration_ P then total_newton_iterations substepReport
    else total_linear_iterations substepReport in
  let dtEstimate0 :=
    computeTimeStepSize P dt iterations (relativeChange S sv (last_state l) st)
                        (simulationTimeElapsed T t1) in
  let dtEstimate1 := std_min dtEstimate0 (max_growth_ P * dt) in
  let dtEstimate :=
    if (0 <? restarts l)%Z then std_min (growth_factor_ P * dt) dtEstimate1
    else dtEstimate1 in
  let t2 := provideTimeStepEstimate T dtEstimate t1 in
  mkLoop (setLastStepFailed T false t2) sv st wst st wst 0%Z
         (set_converged (done T t2) rep) (failureReport_ l).

(** The [else] branch, "in case of no convergence". *)
Definition on_failure (l : Loop) (dt : Q) (sv : Solver) (st : State) (wst : WState)
           (substepReport rep : SimulatorReport) : BodyEnd :=
  let t1 := setLastStepFailed T true (substepTimer l) in
  let fr := report_add (failureReport_ l) substepReport in
  if (solver_restart_max_ P <=? restarts l)%Z
  then Fatal (mkLoop t1 sv st wst (last_state l) (last_well_state l)
                     (restarts l) rep fr)
  else
    let newTimeStep := restart_factor_ P * dt in
    let t2 := provideTimeStepEstimate T newTimeStep t1 in
    Next (mkLoop t2 sv (last_state l) (last_well_state l)
                 (last_state l) (last_well_state l)
                 (restarts l + 1)%Z rep fr).

(** One pass of the body of [while (!substepTimer.done())]. *)
Definition substep (l : Loop) : BodyEnd :=
  let dt := currentStepLength T (substepTimer l) in
  let '(sv, st, wst, substepReport, rep, esc) := try_step l in
  match esc with
  | Some e =>
      Escaped e (mkLoop (substepTimer l) sv st wst (last_state l) (last_well_state l)
                        (restarts l) rep (failureReport_ l))
  | None =>
      if converged substepReport
      then Next (on_converged l dt sv st wst substepReport rep)
      else on_failure l dt sv st wst substepReport rep
  end.

(** The loop; [None] when the fuel runs out before the timer is done. *)
Fixpoint substep_loop (fuel : nat) (l : Loop) : option BodyEnd :=
  if done T (substepTimer l) then Some (Next l)
  else match fuel with
       | O => None
       | Datatypes.S fuel' =>
           match substep l with
           | Next l' => substep_loop fuel' l'
           | stop => Some stop
           end
       end.

(** Whether the sub step solve of this pass fails: a caught exception or
    a report that is not converged. *)
Definition solve_failed (l : Loop) : bool :=
  let '(_, _, _, substepReport, _, esc) := try_step l in
  match esc with
  | Some _ => false
  | None => negb (converged substepReport)
  end.

(** The suggested first sub step length, before the timer is built. *)
Definition initial_suggestion (suggested_next_timestep_ timestep : Q) (event : bool) : Q :=
  let s1 := if Qltb suggested_next_timestep_ 0
            then restart_factor_ P * timestep else suggested_next_timestep_ in
  let s2 := if full_timestep_initially_ P then timestep else s1 in
  if event && Qltb 0 (timestep_after_event_ P) then timestep_after_event_ P else s2.

End StepImpl.

End AdaptiveTimeStepping.


(* --------------------------------------------------------------------- *)
(** ** BlackoilModelEbos::updateState                                     *)
(* --------------------------------------------------------------------- *)

Module UpdateState.

Inductive HydroCarbonState : Type := GasOnly | GasAndOil | OilOnly.

(** What [updateState] reads from the model object: the active phases, the
    feature flags, the limits of [param_], the positions of the primary
    variables in a block of [dx], and the two PVT functions
    [saturatedGasDissolutionFactor] and [saturatedOilVaporizationFactor]
    (arguments: PVT region, temperature, pressure). *)
Record Model : Type := mkModel {
  active_Water : bool;
  active_Oil : bool;
  active_Gas : bool;
  has_disgas_ : bool;
  has_vapoil_ : bool;
  has_solvent_ : bool;
  has_polymer_ : bool;
  dp_max_rel_ : Q;
  ds_max_ : Q;
  waterCompIdx : nat;
  oilCompIdx : nat;
  gasCompIdx : nat;
  solventSaturationIdx : nat;
  polymerConcentrationIdx : nat;
  saturatedGasDissolutionFactor : nat -> Q -> Q -> Q;
  saturatedOilVaporizationFactor : nat -> Q -> Q -> Q
}.

(** The entries of [reservoir_state] that belong to one cell. *)
Record Cell : Type := mkCell {
  pressure : Q;
  sw : Q;
  so : Q;
  sg : Q;
  gasoilratio : Q;
  rv : Q;
  hydroCarbonState : HydroCarbonState;
  ssol : Q;
  polymer : Q;
  temperature : Q;
  pvtRegionIndex : nat
}.

Definition flowPhaseToEbosCompIdx (m : Model) (phaseIdx : nat) : nat :=
  if (2 <? phaseIdx)%nat then phaseIdx
  else match phaseIdx with
       | 0%nat => waterCompIdx m
       | 1%nat => oilCompIdx m
       | _ => gasCompIdx m
       end.

Definition epsilon : Q := 1 # 10000.

(** The raw saturation updates of a cell, read from its block [dxc] of
    [dx] (lines "Saturation updates" to "polymer"). *)
Definition dsw (m : Model) (dxc : list Q) : Q :=
  if active_Water m then vget dxc (flowPhaseToEbosCompIdx m 1) else 0.

Definition dxvar (m : Model) (dxc : list Q) : Q :=
  let xvar_ind := if active_Water m then 2%nat else 1%nat in
  if active_Gas m then vget dxc (flowPhaseToEbosCompIdx m xvar_ind) else 0.

Definition dsg (m : Model) (dxc : list Q) (c : Cell) : Q :=
  match hydroCarbonState c with
  | GasAndOil => dxvar m dxc
  | OilOnly => 0
  | GasOnly => 0 - dsw m dxc
  end.

Definition drs (m : Model) (dxc : list Q) (c : Cell) : Q :=
  match hydroCarbonState c with
  | OilOnly => dxvar m dxc
  | _ => 0
  end.

Definition drv (m : Model) (dxc : list Q) (c : Cell) : Q :=
  match hydroCarbonState c with
  | GasOnly => dxvar m dxc
  | _ => 0
  end.

Definition dss (m : Model) (dxc : list Q) : Q :=
  if has_solvent_ m then vget dxc (solventSaturationIdx m) else 0.

Definition dc (m : Model) (dxc : list Q) : Q :=
  if has_polymer_ m then vget dxc (polymerConcentrationIdx m) else 0.

(** [dso], built up by [dso -= dsw; dso -= dsg; dso -= dss]. *)
Definition dso (m : Model) (dxc : list Q) (c : Cell) : Q :=
  0 - dsw m dxc - dsg m dxc c - dss m dxc.

(** [maxVal] of the Appleyard chop. *)
Definition maxVal (m : Model) (dxc : list Q) (c : Cell) : Q :=
  std_max (Qabs (dss m dxc))
          (std_max (Qabs (dsg m dxc c))
                   (std_max (Qabs (dsw m dxc)) 0)).

(** [step = dsMax()/maxVal; step = std::min(step, 1.0)].  When no
    saturation moves, [maxVal] is zero: the quotient of a positive
    [dsMax()] by zero is +infinity in C++ and the minimum is 1.0.  (With
    [dsMax() <= 0] and [maxVal = 0] the C++ value is not a number; that
    case is outside this model.) *)
Definition step (m : Model) (dxc : list Q) (c : Cell) : Q :=
  if Qeq_bool (maxVal m dxc c) 0 then 1
  else std_min (ds_max_ m / maxVal m dxc c) 1.

(** The pressure update, limited to a relative change and floored. *)
Definition new_pressure (m : Model) (dxc : list Q) (c : Cell) : Q :=
  let dp := vget dxc (flowPhaseToEbosCompIdx m 0) in
  let p := pressure c in
  let sign_dp := sign_of dp in
  std_max (p - sign_dp * std_min (Qabs dp) (Qabs p * dp_max_rel_ m)) 0.

(** The cell after the pressure, saturation, polymer, rs and rv updates and
    before the switch on the hydrocarbon state. *)
Definition chopCell (m : Model) (dxc : list Q) (c : Cell) : Cell :=
  let st := step m dxc c in
  let sw1 := if active_Water m then sw c - st * dsw m dxc else sw c in
  let sg1 := if active_Gas m then sg c - st * dsg m dxc c else sg c in
  let ss1 := if has_solvent_ m then ssol c - st * dss m dxc else ssol c in
  let c1 := if has_polymer_ m then std_max (polymer c - st * dc m dxc) 0 else polymer c in
  let so1 := so c - st * dso m dxc c in
  let both := active_Gas m && active_Oil m in
  let rs1 := if both && has_disgas_ m
             then std_max (gasoilratio c - drs m dxc c) 0 else gasoilratio c in
  let rv1 := if both && has_vapoil_ m
             then std_max (rv c - drv m dxc c) 0 else rv c in
  mkCell (new_pressure m dxc c) sw1 so1 sg1 rs1 rv1 (hydroCarbonState c)
         ss1 c1 (temperature c) (pvtRegionIndex c).

(** The switch on the hydrocarbon state ("phase translation sg <-> rs"),
    on the cell as left by [chopCell]. *)
Definition switchCell (m : Model) (c : Cell) : Cell :=
  let rsSat := saturatedGasDissolutionFactor m (pvtRegionIndex c) (temperature c) (pressure c) in
  let rvSat := saturatedOilVaporizationFactor m (pvtRegionIndex c) (temperature c) (pressure c) in
  let set := fun so' sg' rs' rv' hcs =>
    mkCell (pressure c) (sw c) so' sg' rs' rv' hcs
           (ssol c) (polymer c) (temperature c) (pvtRegionIndex c) in
  match hydroCarbonState c with
  | GasAndOil =>
      if Qltb (1 - epsilon) (sw c) then set (so c) (sg c) rsSat rvSat GasAndOil
      else if Qle_bool (sg c) 0 && has_disgas_ m then
        let so1 := 1 - sw c in
        let so2 := if has_solvent_ m then so1 - ssol c else so1 in
        set so2 0 (rsSat * (1 - epsilon)) rvSat OilOnly
      else if Qle_bool (so c) 0 && has_vapoil_ m then
        let sg1 := 1 - sw c in
        let sg2 := if has_solvent_ m then sg1 - ssol c else sg1 in
        set 0 sg2 rsSat (rvSat * (1 - epsilon)) GasOnly
      else set (so c) (sg c) rsSat rvSat GasAndOil
  | OilOnly =>
      if Qltb (1 - epsilon) (sw c) then set (so c) (sg c) 0 0 GasAndOil
      else if Qltb (rsSat * (1 + epsilon)) (gasoilratio c)
      then set (so c - epsilon) epsilon rsSat (rv c) GasAndOil
      else c
  | GasOnly =>
      if Qltb (1 - epsilon) (sw c) then set (so c) (sg c) 0 0 GasAndOil
      else if Qltb (rvSat * (1 + epsilon)) (rv c)
      then set epsilon (sg c - epsilon) (gasoilratio c) rvSat GasAndOil
      else c
  end.

(** The body of the element loop of [updateState] for one cell. *)
Definition updateCell (m : Model) (dxc : list Q) (c : Cell) : Cell :=
  let c1 := chopCell m dxc c in
  if active_Gas m && active_Oil m then switchCell m c1 else c1.

(** [updateState]: the element loop, over the cells and their blocks of
    [dx]. *)
Fixpoint updateState (m : Model) (dx : list (list Q)) (cells : list Cell) : list Cell :=
  match cells, dx with
  | c :: cells', dxc :: dx' => updateCell m dxc c :: updateState m dx' cells'
  | c :: cells', [] => updateCell m [] c :: updateState m [] cells'
  | [], _ => []
  end.

End UpdateState.

(* --------------------------------------------------------------------- *)
(** ** BlackoilModelEbos::getConvergence                                  *)
(* --------------------------------------------------------------------- *)

Module Convergence.

(** [std::numeric_limits<double>::lowest()]. *)
Definition lowest : Q := inject_Z (- (2 ^ 1024 - 2 ^ 971)).

(** [v[i] = f(v[i])]. *)
Definition vupd (v : list Q) (i : nat) (f : Q -> Q) : list Q := <[i := f (vget v i)]> v.

(** What the element loop reads of an interior cell: porosity times total
    volume, [fs.invB(.)] by ebos phase index, the block [ebosResid[cell]]
    and the inverse formation volume factor of the solvent. *)
Record ConvCell : Type := mkConvCell {
  pvValue : Q;
  invB : list Q;
  resid : list Q;
  solventInvB : Q
}.

(** The collective communication [grid_.comm()]. *)
Record Comm : Type := mkComm {
  comm_size : nat;
  comm_sum : list Q -> list Q;
  comm_max : list Q -> list Q
}.

(** The members of the model read by [getConvergence]. *)
Record Model : Type := mkModel {
  numPhases : nat;
  numComponents : nat;
  has_solvent_ : bool;
  has_polymer_ : bool;
  contiSolventEqIdx : nat;
  contiPolymerEqIdx : nat;
  waterPhaseIdx : nat;
  flowPhaseToEbosPhaseIdx : nat -> nat;
  flowPhaseToEbosCompIdx : nat -> nat;
  global_nc_ : Z;
  tolerance_mb_ : Q;
  tolerance_cnv_ : Q;
  tolerance_wells_ : Q;
  max_strict_iter_ : Z;
  max_residual_allowed_ : Q;
  comm : Comm
}.

(** The vectors of the convergence check and the total pore volume. *)
Record Norms : Type := mkNorms {
  R_sum : list Q;
  B_avg : list Q;
  maxCoeff : list Q;
  maxNormWell : list Q;
  pvSum : Q
}.

(** One component of one cell: [B_avg[i] += 1/b; R_sum[i] += R2;
    maxCoeff[i] = max(maxCoeff[i], |R2| / pvValue)]. *)
Definition accumulate (i : nat) (b R2 pv : Q) (n : Norms) : Norms :=
  mkNorms (vupd (R_sum n) i (fun r => r + R2))
          (vupd (B_avg n) i (fun x => x + 1 / b))
          (vupd (maxCoeff n) i (fun x => std_max x (Qabs R2 / pv)))
          (maxNormWell n) (pvSum n).

(** The body of the element loop. *)
Definition visit_cell (m : Model) (n : Norms) (c : ConvCell) : Norms :=
  let n0 := mkNorms (R_sum n) (B_avg n) (maxCoeff n) (maxNormWell n)
                    (pvSum n + pvValue c) in
  let n1 :=
    fold_left (fun acc phaseIdx =>
                 accumulate phaseIdx
                   (vget (invB c) (flowPhaseToEbosPhaseIdx m phaseIdx))
                   (vget (resid c) (flowPhaseToEbosCompIdx m phaseIdx))
                   (pvValue c) acc)
              (seq 0 (numPhases m)) n0 in
  let n2 :=
    if has_solvent_ m
    then accumulate (contiSolventEqIdx m) (solventInvB c)
           (vget (resid c) (contiSolventEqIdx m)) (pvValue c) n1
    else n1 in
  if has_polymer_ m
  then accumulate (contiPolymerEqIdx m) (vget (invB c) (waterPhaseIdx m))
         (vget (resid c) (contiPolymerEqIdx m)) (pvValue c) n2
  else n2.

(** The maximum of the local well residuals. *)
Definition well_norms (numComp : nat) (wellResidual : list Q) (mx : list Q) : list Q :=
  let nw := (length wellResidual / numComp)%nat in
  fold_left (fun acc compIdx =>
     fold_left (fun acc' w =>
        vupd acc' compIdx (fun x => std_max x (Qabs (vget wellResidual (nw * compIdx + w)))))
       (seq 0 nw) acc)
    (seq 0 numComp) mx.

(** [convergenceReduction]: the global sums and maxima, through one sum
    buffer and one max buffer. *)
Definition convergenceReduction (cm : Comm) (n : Norms) : Norms :=
  if (1 <? comm_size cm)%nat then
    let numComp := length (B_avg n) in
    let comps := seq 0 numComp in
    let sumBuffer :=
      comm_sum cm (flat_map (fun c => [vget (B_avg n) c; vget (R_sum n) c]) comps
                   ++ [pvSum n]) in
    let maxBuffer :=
      comm_max cm (flat_map (fun c => [vget (maxCoeff n) c; vget (maxNormWell n) c]) comps) in
    let unpack := fun (buf : list Q) (off : nat) (v : list Q) =>
      fold_left (fun acc c => <[c := vget buf (2 * c + off)]> acc) comps v in
    mkNorms (unpack sumBuffer 1%nat (R_sum n)) (unpack sumBuffer 0%nat (B_avg n))
            (unpack maxBuffer 0%nat (maxCoeff n)) (unpack maxBuffer 1%nat (maxNormWell n))
            (vget sumBuffer (length sumBuffer - 1))
  else n.

(** The first half of [getConvergence]: the norms after the element loop,
    the averaging, the well residuals and the reduction. *)
Definition compute_norms (m : Model) (cells : list ConvCell) (wellResidual : list Q) : Norms :=
  let numComp := numComponents m in
  let init := mkNorms (repeat 0 numComp) (repeat 0 numComp) (repeat lowest numComp)
                      (repeat 0 numComp) 0 in
  let n1 := fold_left (visit_cell m) cells init in
  let n2 := mkNorms (R_sum n1) (map (fun b => b / inject_Z (global_nc_ m)) (B_avg n1))
                    (maxCoeff n1) (maxNormWell n1) (pvSum n1) in
  let n3 := mkNorms (R_sum n2) (B_avg n2) (maxCoeff n2)
                    (well_norms numComp wellResidual (maxNormWell n2)) (pvSum n2) in
  convergenceReduction (comm m) n3.

(** The three residuals of a component ("Finish computation"). *)
Definition CNV (n : Norms) (dt : Q) (compIdx : nat) : Q :=
  vget (B_avg n) compIdx * dt * vget (maxCoeff n) compIdx.

Definition mass_balance_residual (n : Norms) (dt : Q) (compIdx : nat) : Q :=
  Qabs (vget (B_avg n) compIdx * vget (R_sum n) compIdx) * dt / pvSum n.

Definition well_flux_residual (n : Norms) (compIdx : nat) : Q :=
  vget (B_avg n) compIdx * vget (maxNormWell n) compIdx.

(** [converged_MB], [converged_CNV] and [converged_Well] after the loop
    over the components. *)
Definition converged_MB (m : Model) (n : Norms) (dt : Q) : bool :=
  fold_left (fun acc c => acc && Qltb (mass_balance_residual n dt c) (tolerance_mb_ m))
            (seq 0 (numComponents m)) true.

Definition converged_CNV (m : Model) (n : Norms) (dt : Q) : bool :=
  fold_left (fun acc c => acc && Qltb (CNV n dt c) (tolerance_cnv_ m))
            (seq 0 (numComponents m)) true.

Definition converged_Well (m : Model) (n : Norms) : bool :=
  fold_left (fun acc c => acc && Qltb (well_flux_residual n c) (tolerance_wells_ m))
            (seq 0 (numComponents m)) true.

(** The test of the last loop, "Too large residual for phase". *)
Definition too_large (m : Model) (n : Norms) (dt : Q) (phaseIdx : nat) : bool :=
  Qltb (max_residual_allowed_ m) (mass_balance_residual n dt phaseIdx)
  || Qltb (max_residual_allowed_ m) (CNV n dt phaseIdx)
  || Qltb (max_residual_allowed_ m) (well_flux_residual n phaseIdx).

(** The second half of [getConvergence].  (An exact rational is never
    NaN, so the [isnan] tests do not appear.) *)
Definition decide_convergence (m : Model) (n : Norms) (dt : Q) (iteration : Z)
  : Result bool :=
  let converged0 := converged_MB m n dt && converged_Well m n in
  let converged :=
    if (iteration <? max_strict_iter_ m)%Z then converged0 && converged_CNV m n dt
    else converged0 in
  if existsb (too_large m n dt) (seq 0 (numPhases m))
  then Throw NumericalProblem
  else Ok converged.

(** [getConvergence]; the second component is [residual_norms], to which
    the CNV of every component is appended. *)
Definition getConvergence (m : Model) (cells : list ConvCell) (wellResidual : list Q)
           (dt : Q) (iteration : Z) (residual_norms : list Q)
  : Result bool * list Q :=
  let n := compute_norms m cells wellResidual in
  (decide_convergence m n dt iteration,
   residual_norms ++ map (CNV n dt) (seq 0 (numComponents m))).

End Convergence.

(* --------------------------------------------------------------------- *)
(** ** BlackoilModelEbos::nonlinearIteration                              *)
(* --------------------------------------------------------------------- *)

Module NonlinearIteration.

(** [Dune::BlockVector]: one block of [numEq] scalars per cell or well. *)
Definition BVector : Type := list (list Q).

Definition zeroBVector (n numEq : nat) : BVector := repeat (repeat 0 numEq) n.

(** [v[i][j] = x]. *)
Definition set_entry (v : BVector) (i j : nat) (x : Q) : BVector :=
  match v !! i with
  | Some blk => <[i := <[j := x]> blk]> v
  | None => v
  end.

Section Newton.
Context {RS WS Ebos WM Timer : Type}.

(** What [nonlinearIteration] calls: the timer, the members of the model
    that are not expanded here ([assemble], [solveJacobianSystem],
    [updateState], [convertInput], [convertResults]), the nonlinear
    solver, the grid simulator and the well model. *)
Record Ops : Type := mkOps {
  currentStepLength : Timer -> Q;
  numEq : nat;
  numCells : nat;
  numWells : WM -> nat;
  assemble : Timer -> Z -> RS -> WS -> Ebos -> WM ->
             Result SimulatorReport * WS * Ebos * WM;
  conv_model : Convergence.Model;
  conv_cells : Ebos -> list Convergence.ConvCell;
  well_residual : WM -> list Q;
  minIter : Z;
  groupControlActive : WM -> bool;
  groupTargetConverged : WM -> WS -> bool;
  solveJacobianSystem : Ebos -> WM -> Result (BVector * BVector) * Z;
  detectOscillations : list (list Q) -> Z -> bool * bool;
  relaxIncrement : Q;
  relaxMax : Q;
  stabilizeNonlinearUpdate : BVector -> BVector -> Q -> BVector * BVector;
  updateState : BVector -> RS -> RS;
  updateWellState : BVector -> WS -> WS;
  convertInput : Z -> RS -> Ebos -> Ebos;
  invalidateIntensiveQuantitiesCache : Ebos -> Ebos;
  linearize : Ebos -> Ebos;
  convertResults : Ebos -> Ebos;
  wm_assemble : Ebos -> Z -> Q -> WS -> WM -> Result SimulatorReport * Ebos * WS * WM
}.

(** The two reference arguments and the objects the model holds. *)
Record World : Type := mkWorld {
  reservoir_state : RS;
  well_state : WS;
  ebosSimulator_ : Ebos;
  well_model_ : WM;
  residual_norms_history_ : list (list Q);
  current_relaxation_ : Q;
  dx_old_ : BVector;
  failureReport_ : SimulatorReport
}.

Variable o : Ops.

(** The start of the call, up to and including [assemble]. *)
Definition begin_iteration (iteration : Z) (w : World) : World :=
  if (iteration =? 0)%Z
  then mkWorld (reservoir_state w) (well_state w) (ebosSimulator_ w) (well_model_ w)
               [] 1 (map (map (fun _ => 0)) (dx_old_ w)) emptyReport
  else mkWorld (reservoir_state w) (well_state w) (ebosSimulator_ w) (well_model_ w)
               (residual_norms_history_ w) (current_relaxation_ w) (dx_old_ w) emptyReport.

Definition report0 : SimulatorReport := mkReport false 1 0 0 0.

Definition after_assemble (iteration : Z) (timer : Timer) (w : World)
  : Result SimulatorReport * World :=
  let w0 := begin_iteration iteration w in
  let '(r, ws, e, wm) :=
    assemble o timer iteration (reservoir_state w0) (well_state w0)
             (ebosSimulator_ w0) (well_model_ w0) in
  match r with
  | Ok ra =>
      (Ok (report_add report0 ra),
       mkWorld (reservoir_state w0) ws e wm (residual_norms_history_ w0)
               (current_relaxation_ w0) (dx_old_ w0) (failureReport_ w0))
  | Throw ex =>
      (Throw ex,
       mkWorld (reservoir_state w0) ws e wm (residual_norms_history_ w0)
               (current_relaxation_ w0) (dx_old_ w0)
               (report_add (failureReport_ w0) report0))
  end.

(** The norms of [getConvergence] on the simulator and the well model. *)
Definition norms (w : World) : Convergence.Norms :=
  Convergence.compute_norms (conv_model o) (conv_cells o (ebosSimulator_ w))
                            (well_residual o (well_model_ w)).

(** The value given to [report.converged]: [getConvergence(...) &&
    iteration > minIter()], and the group targets when group control is
    active. *)
Definition convergence_test (iteration : Z) (timer : Timer) (w : World) : Result bool :=
  match Convergence.decide_convergence (conv_model o) (norms w)
          (currentStepLength o timer) iteration with
  | Throw ex => Throw ex
  | Ok b =>
      let c0 := b && (minIter o <? iteration)%Z in
      Ok (if groupControlActive o (well_model_ w)
          then c0 && groupTargetConverged o (well_model_ w) (well_state w)
          else c0)
  end.

(** The branch [if (!report.converged)]: the Newton update. *)
Definition newton_update (iteration : Z) (report : SimulatorReport) (w : World)
  : Result SimulatorReport * World :=
  let report1 := mkReport (converged report) (total_linearizations report) 1
                          (total_linear_iterations report) (total_well_iterations report) in
  let '(sol, its) := solveJacobianSystem o (ebosSimulator_ w) (well_model_ w) in
  let report2 := mkReport (converged report1) (total_linearizations report1)
                          (total_newton_iterations report1)
                          (total_linear_iterations report1 + its)
                          (total_well_iterations report1) in
  match sol with
  | Throw ex =>
      (Throw ex,
       mkWorld (reservoir_state w) (well_state w) (ebosSimulator_ w) (well_model_ w)
               (residual_norms_history_ w) (current_relaxation_ w) (dx_old_ w)
               (report_add (failureReport_ w) report2))
  | Ok (x, xw) =>
      let '(isOscillate, _) := detectOscillations o (residual_norms_history_ w) iteration in
      let relaxation :=
        if isOscillate
        then std_max (current_relaxation_ w - relaxIncrement o) (relaxMax o)
        else current_relaxation_ w in
      let '(x', dx_old') := stabilizeNonlinearUpdate o x (dx_old_ w) relaxation in
      let rs := updateState o x' (reservoir_state w) in
      let ws := updateWellState o xw (well_state w) in
      let e := invalidateIntensiveQuantitiesCache o
                 (convertInput o iteration rs (ebosSimulator_ w)) in
      (Ok report2,
       mkWorld rs ws e (well_model_ w) (residual_norms_history_ w)
               relaxation dx_old' (failureReport_ w))
  end.

(** What the [else] branch threads through its loops. *)
Record Branch : Type := mkBranch {
  b_well_state : WS;
  b_ebos : Ebos;
  b_well_model : WM
}.

(** Push a reservoir state into the simulator, linearize, and assemble the
    well equations on a copy of the well state (the lines from
    [convertInput] to [wellModel().assemble] of both loops). *)
Definition relinearize (iteration : Z) (dt : Q) (tmpResState : RS) (tmpWellState : WS)
           (e : Ebos) (wm : WM) : option Exception * Ebos * WM :=
  let e1 := convertInput o iteration tmpResState e in
  let e2 := invalidateIntensiveQuantitiesCache o e1 in
  let e3 := linearize o e2 in
  let e4 := convertResults o e3 in
  let '(r, e5, _, wm') := wm_assemble o e4 iteration dt tmpWellState wm in
  (match r with Ok _ => None | Throw ex => Some ex end, e5, wm').

Definition pert_sizes : list Q := [- (1 # 1000000); - 10].
Definition pert_sizes2 : list Q := [- (1 # 100); - (1 # 100); - 10000].

(** The perturbation of pass [i] of the central difference. *)
Definition perturbation (sizes : list Q) (stateType i : nat) : Q :=
  if (i =? 0)%nat then - vget sizes stateType / 2 else vget sizes stateType / 2.

(** The innermost body of the loop over the grid blocks. *)
Definition cell_pass (iteration : Z) (dt : Q) (rs : RS)
           (k : nat * nat * nat) (b : Branch) : option Exception * Branch :=
  let '(cell_block, stateType, i) := k in
  let tmpResState := rs in
  let tmpWellState := b_well_state b in
  let dx := set_entry (zeroBVector (numCells o) (numEq o)) cell_block stateType
                      (perturbation pert_sizes stateType i) in
  let tmpResState' := updateState o dx tmpResState in
  let '(ex, e, wm) := relinearize iteration dt tmpResState' tmpWellState
                                  (b_ebos b) (b_well_model b) in
  (ex, mkBranch (b_well_state b) e wm).

(** The innermost body of the loop over the wells: the perturbation is
    applied to [well_state], the well equations are assembled on the copy
    taken before. *)
Definition well_pass (iteration : Z) (dt : Q) (rs : RS)
           (k : nat * nat * nat) (b : Branch) : option Exception * Branch :=
  let '(well, stateType, i) := k in
  let tmpResState := rs in
  let tmpWellState := b_well_state b in
  let dw := set_entry (zeroBVector (numWells o (b_well_model b)) (numEq o)) well stateType
                      (perturbation pert_sizes2 stateType i) in
  let well_state' := updateWellState o dw (b_well_state b) in
  let '(ex, e, wm) := relinearize iteration dt tmpResState tmpWellState
                                  (b_ebos b) (b_well_model b) in
  (ex, mkBranch well_state' e wm).

(** The index triples of a loop nest [n1 x n2 x 2], in execution order. *)
Definition passes (n1 n2 : nat) : list (nat * nat * nat) :=
  flat_map (fun a => flat_map (fun s => [(a, s, 0%nat); (a, s, 1%nat)]) (seq 0 n2))
           (seq 0 n1).

Fixpoint for_each (body : nat * nat * nat -> Branch -> option Exception * Branch)
         (ks : list (nat * nat * nat)) (b : Branch) : option Exception * Branch :=
  match ks with
  | [] => (None, b)
  | k :: ks' =>
      match body k b with
      | (None, b') => for_each body ks' b'
      | stop => stop
      end
  end.

(** The [else] branch: the comparison of the Jacobian with central
    differences, over 9 grid blocks with 2 variables and 2 wells with 3
    variables.  The difference quotients are only printed and are not part
    of the state. *)
Definition jacobian_check (iteration : Z) (dt : Q) (rs : RS) (b : Branch)
  : option Exception * Branch :=
  match for_each (cell_pass iteration dt rs) (passes 9 2) b with
  | (None, b1) => for_each (well_pass iteration dt rs) (passes 2 3) b1
  | stop => stop
  end.

Definition converged_branch (iteration : Z) (timer : Timer) (report : SimulatorReport)
           (w : World) : Result SimulatorReport * World :=
  let '(ex, b) :=
    jacobian_check iteration (currentStepLength o timer) (reservoir_state w)
      (mkBranch (well_state w) (ebosSimulator_ w) (well_model_ w)) in
  (match ex with None => Ok report | Some e => Throw e end,
   mkWorld (reservoir_state w) (b_well_state b) (b_ebos b) (b_well_model b)
           (residual_norms_history_ w) (current_relaxation_ w) (dx_old_ w)
           (failureReport_ w)).

(** [nonlinearIteration]. *)
Definition nonlinearIteration (iteration : Z) (timer : Timer) (w : World)
  : Result SimulatorReport * World :=
  match after_assemble iteration timer w with
  | (Throw ex, w1) => (Throw ex, w1)
  | (Ok report, w1) =>
      match convergence_test iteration timer w1 with
      | Throw ex => (Throw ex, w1)
      | Ok c =>
          let residual_norms :=
            map (Convergence.CNV (norms w1) (currentStepLength o timer))
                (seq 0 (Convergence.numComponents (conv_model o))) in
          let w2 := mkWorld (reservoir_state w1) (well_state w1) (ebosSimulator_ w1)
                            (well_model_ w1)
                            (residual_norms_history_ w1 ++ [residual_norms])
                            (current_relaxation_ w1) (dx_old_ w1) (failureReport_ w1) in
          let report' := set_converged c report in
          if c then converged_branch iteration timer report' w2
          else newton_update iteration report' w2
      end
  end.

End Newton.

End NonlinearIteration.

(* --------------------------------------------------------------------- *)
(** ** Automatic differentiation values                                   *)
(* --------------------------------------------------------------------- *)

(** [EvalWell]: a value and its dense vector of partial derivatives. *)
Record EvalWell : Type := mkEval {
  value : Q;
  derivative : list Q
}.

Module Eval.

Fixpoint map2 (f : Q -> Q -> Q) (a b : list Q) : list Q :=
  match a, b with
  | x :: a', y :: b' => f x y :: map2 f a' b'
  | [], b' => map (f 0) b'
  | a', [] => map (fun x => f x 0) a'
  end.

Definition const (c : Q) : EvalWell := mkEval c [].
Definition add (a b : EvalWell) : EvalWell :=
  mkEval (value a + value b) (map2 Qplus (derivative a) (derivative b)).
Definition sub (a b : EvalWell) : EvalWell :=
  mkEval (value a - value b) (map2 Qminus (derivative a) (derivative b)).
Definition mul (a b : EvalWell) : EvalWell :=
  mkEval (value a * value b)
         (map2 (fun da db => da * value b + value a * db) (derivative a) (derivative b)).
Definition div (a b : EvalWell) : EvalWell :=
  mkEval (value a / value b)
         (map2 (fun da db => (da * value b - value a * db) / (value b * value b))
               (derivative a) (derivative b)).
Definition scale (c : Q) (a : EvalWell) : EvalWell := mul (const c) a.
Definition addc (a : EvalWell) (c : Q) : EvalWell := add a (const c).

(** [v[i]] on a [std::vector<EvalWell>]. *)
Definition get (v : list EvalWell) (i : nat) : EvalWell := default (const 0) (v !! i).

End Eval.

(* --------------------------------------------------------------------- *)
(** ** The well topology and the well state                               *)
(* --------------------------------------------------------------------- *)

Inductive WellType : Type := INJECTOR | PRODUCER.

Inductive WellControlType : Type := BHP | THP | RESERVOIR_RATE | SURFACE_RATE.

(** One constraint of a [WellControls] set, as read by the
    [well_controls_iget_*] accessors. *)
Record Control : Type := mkControl {
  ctrl_type : WellControlType;
  ctrl_target : Q;
  ctrl_distr : list Q;
  ctrl_vfp : Z;
  ctrl_alq : Q
}.

(** A [WellControls] set: the ordered constraints of a well and the index
    of the current one. *)
Record WellControls : Type := mkWellControls {
  wc_controls : list Control;
  wc_current : Z
}.

(** The [Wells] struct.  [ctrls] holds what the pointers [wells().ctrls[w]]
    point to; a function that changes a control set returns the changed
    struct. *)
Record Wells : Type := mkWells {
  number_of_wells : nat;
  number_of_phases : nat;
  type : list WellType;
  ctrls : list WellControls;
  well_connpos : list nat;
  well_cells : list nat;
  WI : list Q;
  comp_frac : list Q;
  allow_cf : list bool
}.

(** Positions that are declared in headers outside the three files. *)
Record Indices : Type := mkIndices {
  Water : nat;  Oil : nat;  Gas : nat;                    (* phase indices *)
  XvarWell : nat;  WFrac : nat;  GFrac : nat;  SFrac : nat; (* WellVariablePositions *)
  solventSaturationIdx : nat
}.

(** [WellStateFullyImplicitBlackoilDense], the fields the code touches. *)
Record WellState : Type := mkWellState {
  bhp : list Q;
  thp : list Q;
  wellRates : list Q;
  wellSolutions : list Q;
  currentControls : list Z;
  perfPhaseRates : list Q;
  perfPress : list Q;
  perfRateSolvent : list Q;
  solventWellRate : list Q
}.

Definition wtype (ws : Wells) (w : nat) : WellType := default PRODUCER (type ws !! w).
Definition cpos (ws : Wells) (w : nat) : nat := default 0%nat (well_connpos ws !! w).
Definition cell_of (ws : Wells) (perf : nat) : nat := default 0%nat (well_cells ws !! perf).

Definition dummyControl : Control := mkControl BHP 0 [] 0 0.

(** [wc[i]] for an [int] index. *)
Definition iget (wc : WellControls) (i : Z) : Control :=
  if (i <? 0)%Z then dummyControl else default dummyControl (wc_controls wc !! Z.to_nat i).

Definition well_controls_get_num (wc : WellControls) : Z :=
  Z.of_nat (length (wc_controls wc)).
Definition well_controls_iget_type (wc : WellControls) (i : Z) : WellControlType :=
  ctrl_type (iget wc i).
Definition well_controls_iget_target (wc : WellControls) (i : Z) : Q :=
  ctrl_target (iget wc i).
Definition well_controls_iget_distr (wc : WellControls) (i : Z) : list Q :=
  ctrl_distr (iget wc i).
Definition well_controls_iget_vfp (wc : WellControls) (i : Z) : Z :=
  ctrl_vfp (iget wc i).
Definition well_controls_iget_alq (wc : WellControls) (i : Z) : Q :=
  ctrl_alq (iget wc i).
Definition well_controls_get_current (wc : WellControls) : Z := wc_current wc.
Definition well_controls_set_current (wc : WellControls) (i : Z) : WellControls :=
  mkWellControls (wc_controls wc) i.
Definition well_controls_get_current_type (wc : WellControls) : WellControlType :=
  well_controls_iget_type wc (wc_current wc).
Definition well_controls_get_current_target (wc : WellControls) : Q :=
  well_controls_iget_target wc (wc_current wc).

Definition wctrls (ws : Wells) (w : nat) : WellControls :=
  default (mkWellControls [] 0) (ctrls ws !! w).

(** [wells().ctrls[w]] replaced by [wc]. *)
Definition set_wctrls (ws : Wells) (w : nat) (wc : WellControls) : Wells :=
  mkWells (number_of_wells ws) (number_of_phases ws) (type ws) (<[w := wc]> (ctrls ws))
          (well_connpos ws) (well_cells ws) (WI ws) (comp_frac ws) (allow_cf ws).

(* --------------------------------------------------------------------- *)
(** ** StandardWellsDense: cross flow and perforation fluxes              *)
(* --------------------------------------------------------------------- *)

Module WellFlux.

(** The intensive quantities of a cell as [computeWellFlux] reads them,
    after [extendEval] and the flow-to-ebos phase index maps. *)
Record IntQuants : Type := mkIntQuants {
  pressure_oil : EvalWell;
  Rs : EvalWell;
  Rv : EvalWell;
  invB : list EvalWell;
  solventInverseFormationVolumeFactor : EvalWell
}.

(** The members of the well model read by [allow_cross_flow] and
    [computeWellFlux], and the callees that are not expanded here:
    [getMobility], [wellSurfaceVolumeFraction] and the THP branch of
    [getBhp]. *)
Record WellModel : Type := mkWellModel {
  wells : Wells;
  ix : Indices;
  active_ : list bool;
  phase_pos : list nat;
  has_solvent_ : bool;
  numComponents : nat;
  well_perforation_pressure_diffs_ : list Q;
  wellVariables_ : list EvalWell;
  cachedIntensiveQuantities : nat -> IntQuants;
  getMobility : nat -> nat -> list EvalWell;
  wellSurfaceVolumeFraction : nat -> nat -> EvalWell;
  bhp_from_thp : nat -> EvalWell
}.

Definition active (m : WellModel) (p : nat) : bool := default false (active_ m !! p).
Definition ppos (m : WellModel) (p : nat) : nat := default 0%nat (phase_pos m !! p).

(** [getBhp(w)]. *)
Definition getBhp (m : WellModel) (w : nat) : EvalWell :=
  let wc := wctrls (wells m) w in
  match well_controls_get_current_type wc with
  | BHP => Eval.const (well_controls_get_current_target wc)
  | THP => bhp_from_thp m w
  | _ => Eval.get (wellVariables_ m)
           (number_of_wells (wells m) * XvarWell (ix m) + w)
  end.

(** The pressure drawdown of a perforation, as both functions compute it. *)
Definition drawdown (pressure bhp : EvalWell) (cdp : Q) : EvalWell :=
  let well_pressure := Eval.addc bhp cdp in
  Eval.sub pressure well_pressure.

Definition perf_drawdown (m : WellModel) (w perf : nat) : EvalWell :=
  drawdown (pressure_oil (cachedIntensiveQuantities m (cell_of (wells m) perf)))
           (getBhp m w)
           (vget (well_perforation_pressure_diffs_ m) perf).

(** The perforations of well [w]: [well_connpos[w] <= perf < well_connpos[w+1]]. *)
Definition perforations (ws : Wells) (w : nat) : list nat :=
  seq (cpos ws w) (cpos ws (w + 1) - cpos ws w).

(** The loop of [allow_cross_flow]: [false] at the first perforation that
    flows in the declared direction of the well. *)
Fixpoint all_cross_flow (m : WellModel) (w : nat) (perfs : list nat) : bool :=
  match perfs with
  | [] => true
  | perf :: rest =>
      let dd := perf_drawdown m w perf in
      if Qltb (value dd) 0 && (if wtype (wells m) w is INJECTOR then true else false)
      then false
      else if Qltb 0 (value dd) && (if wtype (wells m) w is PRODUCER then true else false)
      then false
      else all_cross_flow m w rest
  end.

Definition allow_cross_flow (m : WellModel) (w : nat) : bool :=
  if default false (allow_cf (wells m) !! w) then true
  else all_cross_flow m w (perforations (wells m) w).

(** A perforation flows in the declared direction of the well: into the
    reservoir for an injector, out of it for a producer. *)
Definition flows_as_declared (m : WellModel) (w perf : nat) : Prop :=
  match wtype (wells m) w with
  | INJECTOR => value (perf_drawdown m w perf) < 0
  | PRODUCER => 0 < value (perf_drawdown m w perf)
  end.

(** [for (c = 0; c < numComp; ++c) cq_s[c] = f(c)]. *)
Definition fill (numComp : nat) (f : nat -> EvalWell) (cq_s : list EvalWell)
  : list EvalWell :=
  fold_left (fun acc c => <[c := f c]> acc) (seq 0 numComp) cq_s.

(** The branch "producing perforations" of [computeWellFlux]. *)
Definition producing_rates (m : WellModel) (Tw : Q) (iq : IntQuants)
           (mob : list EvalWell) (dd : EvalWell) (cq_s : list EvalWell)
  : list EvalWell :=
  let b := fun c =>
    if has_solvent_ m && (c =? solventSaturationIdx (ix m))%nat
    then solventInverseFormationVolumeFactor iq else Eval.get (invB iq) c in
  let cq1 := fill (numComponents m)
               (fun c => Eval.mul (b c) (Eval.scale (- Tw) (Eval.mul (Eval.get mob c) dd)))
               cq_s in
  if active m (Oil (ix m)) && active m (Gas (ix m)) then
    let oilpos := ppos m (Oil (ix m)) in
    let gaspos := ppos m (Gas (ix m)) in
    let cq_sOil := Eval.get cq1 oilpos in
    let cq_sGas := Eval.get cq1 gaspos in
    let cq2 := <[gaspos := Eval.add (Eval.get cq1 gaspos) (Eval.mul (Rs iq) cq_sOil)]> cq1 in
    <[oilpos := Eval.add (Eval.get cq2 oilpos) (Eval.mul (Rv iq) cq_sGas)]> cq2
  else cq1.

(** The branch "injecting perforations" of [computeWellFlux]; it throws
    when [1 - rv * rs] is zero. *)
Definition injecting_rates (m : WellModel) (w : nat) (Tw : Q) (iq : IntQuants)
           (mob : list EvalWell) (dd : EvalWell) (cq_s : list EvalWell)
  : Result (list EvalWell) :=
  let numComp := numComponents m in
  let cmix_s := fun c => wellSurfaceVolumeFraction m w c in
  let b := fun c =>
    if has_solvent_ m && (c =? solventSaturationIdx (ix m))%nat
    then solventInverseFormationVolumeFactor iq else Eval.get (invB iq) c in
  let total_mob_dense :=
    fold_left (fun acc c => Eval.add acc (Eval.get mob c))
              (seq 1 (numComp - 1)) (Eval.get mob 0) in
  let cqt_i := Eval.scale (- Tw) (Eval.mul total_mob_dense dd) in
  let vr0 := Eval.const 0 in
  let vr1 :=
    if active m (Water (ix m))
    then let watpos := ppos m (Water (ix m)) in
         Eval.add vr0 (Eval.div (cmix_s watpos) (b watpos))
    else vr0 in
  let vr2 :=
    if has_solvent_ m
    then Eval.add vr1 (Eval.div (cmix_s (solventSaturationIdx (ix m)))
                                (b (solventSaturationIdx (ix m))))
    else vr1 in
  let finish := fun volumeRatio =>
    let cqt_is := Eval.div cqt_i volumeRatio in
    Ok (fill numComp (fun c => Eval.mul (cmix_s c) cqt_is) cq_s) in
  if active m (Oil (ix m)) && active m (Gas (ix m)) then
    let oilpos := ppos m (Oil (ix m)) in
    let gaspos := ppos m (Gas (ix m)) in
    let d := Eval.sub (Eval.const 1) (Eval.mul (Rv iq) (Rs iq)) in
    if Qeq_bool (value d) 0 then Throw NumericalProblem
    else
      let tmp_oil := Eval.div (Eval.sub (cmix_s oilpos) (Eval.mul (Rv iq) (cmix_s gaspos))) d in
      let vr3 := Eval.add vr2 (Eval.div tmp_oil (b oilpos)) in
      let tmp_gas := Eval.div (Eval.sub (cmix_s gaspos) (Eval.mul (Rs iq) (cmix_s oilpos))) d in
      finish (Eval.add vr3 (Eval.div tmp_gas (b gaspos)))
  else
    let vr3 :=
      if active m (Oil (ix m))
      then Eval.add vr2 (Eval.div (cmix_s (ppos m (Oil (ix m)))) (b (ppos m (Oil (ix m)))))
      else vr2 in
    let vr4 :=
      if active m (Gas (ix m))
      then Eval.add vr3 (Eval.div (cmix_s (ppos m (Gas (ix m)))) (b (ppos m (Gas (ix m)))))
      else vr3 in
    finish vr4.

(** [computeWellFlux]; [cq_s] is the in/out argument, untouched by the two
    early returns. *)
Definition computeWellFlux (m : WellModel) (w : nat) (Tw : Q) (iq : IntQuants)
           (mob : list EvalWell) (bhp : EvalWell) (cdp : Q) (allow_cf : bool)
           (cq_s : list EvalWell) : Result (list EvalWell) :=
  let dd := drawdown (pressure_oil iq) bhp cdp in
  if Qltb 0 (value dd) then
    if negb allow_cf && (if wtype (wells m) w is INJECTOR then true else false)
    then Ok cq_s
    else Ok (producing_rates m Tw iq mob dd cq_s)
  else
    if negb allow_cf && (if wtype (wells m) w is PRODUCER then true else false)
    then Ok cq_s
    else injecting_rates m w Tw iq mob dd cq_s.

(** The flux of one perforation as [assembleWellEq] obtains it:
    [cq_s(numComp, 0.0)], then [computeWellFlux] with
    [allow_cf = allow_cross_flow(w)]. *)
Definition perforation_flux (m : WellModel) (w perf : nat) : Result (list EvalWell) :=
  let allow_cf := allow_cross_flow m w in
  let iq := cachedIntensiveQuantities m (cell_of (wells m) perf) in
  computeWellFlux m w (vget (WI (wells m)) perf) iq (getMobility m w perf)
                  (getBhp m w) (vget (well_perforation_pressure_diffs_ m) perf)
                  allow_cf (repeat (Eval.const 0) (numComponents m)).

End WellFlux.

(* --------------------------------------------------------------------- *)
(** ** StandardWellsDense: well state and well controls                   *)
(* --------------------------------------------------------------------- *)

Module WellModel.

(** [std::vector<double> g = {1, 1, 0.01}]. *)
Definition g : list Q := [1; 1; 1 # 100].

(** The members of the well model read by the functions below, and what
    they call outside the file: the VFP tables ([bhp], [thp],
    [getDatumDepth]), [wellhelpers::computeHydrostaticCorrection],
    [wellhelpers::constraintBroken], [wsolvent] (which reads the schedule)
    and the well collection of the group control.  [applyVREPGroupControl]
    goes through the well collection and may reset the current control of
    an injector that is under group control; [updateWellTargets] rewrites
    targets in the control sets. *)
Record Model (Coll : Type) : Type := mkModel {
  ix : Indices;
  wells_present : bool;                (* wells_ is not a null pointer *)
  wells_active_ : bool;
  active_ : list bool;
  phase_pos : list nat;
  has_solvent_ : bool;
  dWellFractionMax : Q;
  dbhpMaxRel : Q;
  well_perforation_densities_ : list Q;
  gravity_ : Q;
  vfp_inj_bhp : Z -> Q -> Q -> Q -> Q -> Q;
  vfp_prod_bhp : Z -> Q -> Q -> Q -> Q -> Q -> Q;
  vfp_inj_thp : Z -> Q -> Q -> Q -> Q -> Q;
  vfp_prod_thp : Z -> Q -> Q -> Q -> Q -> Q -> Q;
  vfp_inj_datum : Z -> Q;
  vfp_prod_datum : Z -> Q;
  computeHydrostaticCorrection : Wells -> nat -> Q -> Q -> Q -> Q;
  wsolvent : nat -> Q;
  constraintBroken : list Q -> list Q -> list Q -> nat -> nat -> WellType ->
                     WellControls -> Z -> bool;
  groupControlActive : Coll -> bool;
  groupControlIndex : Coll -> nat -> Z;
  setIndividualControl : nat -> bool -> Coll -> Coll;
  applyVREPGroupControl : WellState -> Wells -> Coll -> WellState * Wells * Coll;
  updateWellTargets : list Q -> Coll -> Wells -> Coll * Wells
}.
Arguments ix {Coll} _.
Arguments wells_present {Coll} _.
Arguments wells_active_ {Coll} _.
Arguments active_ {Coll} _.
Arguments phase_pos {Coll} _.
Arguments has_solvent_ {Coll} _.
Arguments dWellFractionMax {Coll} _.
Arguments dbhpMaxRel {Coll} _.
Arguments well_perforation_densities_ {Coll} _.
Arguments gravity_ {Coll} _.
Arguments vfp_inj_bhp {Coll} _.
Arguments vfp_prod_bhp {Coll} _.
Arguments vfp_inj_thp {Coll} _.
Arguments vfp_prod_thp {Coll} _.
Arguments vfp_inj_datum {Coll} _.
Arguments vfp_prod_datum {Coll} _.
Arguments computeHydrostaticCorrection {Coll} _.
Arguments wsolvent {Coll} _.
Arguments constraintBroken {Coll} _.
Arguments groupControlActive {Coll} _.
Arguments groupControlIndex {Coll} _.
Arguments setIndividualControl {Coll} _.
Arguments applyVREPGroupControl {Coll} _.
Arguments updateWellTargets {Coll} _.

Section WithModel.
Context {Coll : Type}.
Variable m : Model Coll.

Definition active (p : nat) : bool := default false (active_ m !! p).
Definition ppos (p : nat) : nat := default 0%nat (phase_pos m !! p).

Definition wellsActive : bool := wells_active_ m.

Definition localWellsActive (ws : Wells) : bool :=
  wells_present m && (0 <? number_of_wells ws)%nat.

(** Setters of the fields of the well state. *)
Definition set_bhp (x : WellState) (v : list Q) : WellState :=
  mkWellState v (thp x) (wellRates x) (wellSolutions x) (currentControls x)
              (perfPhaseRates x) (perfPress x) (perfRateSolvent x) (solventWellRate x).
Definition set_thp (x : WellState) (v : list Q) : WellState :=
  mkWellState (bhp x) v (wellRates x) (wellSolutions x) (currentControls x)
              (perfPhaseRates x) (perfPress x) (perfRateSolvent x) (solventWellRate x).
Definition set_wellRates (x : WellState) (v : list Q) : WellState :=
  mkWellState (bhp x) (thp x) v (wellSolutions x) (currentControls x)
              (perfPhaseRates x) (perfPress x) (perfRateSolvent x) (solventWellRate x).
Definition set_wellSolutions (x : WellState) (v : list Q) : WellState :=
  mkWellState (bhp x) (thp x) (wellRates x) v (currentControls x)
              (perfPhaseRates x) (perfPress x) (perfRateSolvent x) (solventWellRate x).
Definition set_currentControls (x : WellState) (v : list Z) : WellState :=
  mkWellState (bhp x) (thp x) (wellRates x) (wellSolutions x) v
              (perfPhaseRates x) (perfPress x) (perfRateSolvent x) (solventWellRate x).

(** [for (p = 0; p < np; ++p) v[base + p] = f(p)]. *)
Definition fill_from (base np : nat) (f : nat -> Q) (v : list Q) : list Q :=
  fold_left (fun acc p => <[(base + p)%nat := f p]> acc) (seq 0 np) v.

(** [aqua], [liquid] and [vapour] of well [w], read from the well rates. *)
Definition phase_rate (x : WellState) (np w phase : nat) : Q :=
  if active phase then vget (wellRates x) (w * np + ppos phase) else 0.

(** The bottom hole pressure from the THP target of control [ctrl] and the
    well rates. *)
Definition bhp_from_thp (ws : Wells) (x : WellState) (w : nat) (wc : WellControls)
           (ctrl : Z) : Q :=
  let np := number_of_phases ws in
  let aqua := phase_rate x np w (Water (ix m)) in
  let liquid := phase_rate x np w (Oil (ix m)) in
  let vapour := phase_rate x np w (Gas (ix m)) in
  let vfp := well_controls_iget_vfp wc ctrl in
  let thp := well_controls_iget_target wc ctrl in
  let alq := well_controls_iget_alq wc ctrl in
  let perf := cpos ws w in
  let rho := vget (well_perforation_densities_ m) perf in
  match wtype ws w with
  | INJECTOR =>
      let dp := computeHydrostaticCorrection m ws w (vfp_inj_datum m vfp) rho (gravity_ m) in
      vfp_inj_bhp m vfp aqua liquid vapour thp - dp
  | PRODUCER =>
      let dp := computeHydrostaticCorrection m ws w (vfp_prod_datum m vfp) rho (gravity_ m) in
      vfp_prod_bhp m vfp aqua liquid vapour thp alq - dp
  end.

(** *** updateWellState *)

(** [dwells[w][k]]. *)
Definition dwell (dwells : list (list Q)) (w k : nat) : Q :=
  vget (default [] (dwells !! w)) k.

(** The limited update of a fraction variable:
    [xvar_well_old[i] - sign * min(|d|, dFLimit)]. *)
Definition limited_fraction (old : list Q) (i : nat) (d : Q) : Q :=
  vget old i - sign_of d * std_min (Qabs d) (dWellFractionMax m).

(** The well solution vector after the three limited fraction updates of
    well [w]. *)
Definition limit_fractions (nw : nat) (dwells : list (list Q)) (old : list Q) (w : nat)
           (sol : list Q) : list Q :=
  let iW := (WFrac (ix m) * nw + w)%nat in
  let iG := (GFrac (ix m) * nw + w)%nat in
  let iS := (SFrac (ix m) * nw + w)%nat in
  let sol1 := if active (Water (ix m))
              then <[iW := limited_fraction old iW (dwell dwells w (WFrac (ix m)))]> sol
              else sol in
  let sol2 := if active (Gas (ix m))
              then <[iG := limited_fraction old iG (dwell dwells w (GFrac (ix m)))]> sol1
              else sol1 in
  if has_solvent_ m
  then <[iS := limited_fraction old iS (dwell dwells w (SFrac (ix m)))]> sol2
  else sol2.

(** The vector [F] and [F_solvent] as read from the well solution vector:
    [F[Oil]] is one minus the other fractions. *)
Definition read_fractions (nw np : nat) (w : nat) (sol : list Q) : list Q * Q :=
  let F0 := <[Oil (ix m) := 1]> (repeat 0 np) in
  let F1 :=
    if active (Water (ix m)) then
      let Fa := <[Water (ix m) := vget sol (WFrac (ix m) * nw + w)]> F0 in
      <[Oil (ix m) := vget Fa (Oil (ix m)) - vget Fa (Water (ix m))]> Fa
    else F0 in
  let F2 :=
    if active (Gas (ix m)) then
      let Fa := <[Gas (ix m) := vget sol (GFrac (ix m) * nw + w)]> F1 in
      <[Oil (ix m) := vget Fa (Oil (ix m)) - vget Fa (Gas (ix m))]> Fa
    else F1 in
  if has_solvent_ m then
    let F_solvent := vget sol (SFrac (ix m) * nw + w) in
    (<[Oil (ix m) := vget F2 (Oil (ix m)) - F_solvent]> F2, F_solvent)
  else (F2, 0).

(** [F[p] /= (1.0 - F[neg])]. *)
Definition scale_entry (neg p : nat) (F : list Q) : list Q :=
  <[p := vget F p / (1 - vget F neg)]> F.

(** The three renormalizations of negative fractions, in the order water,
    gas, oil. *)
Definition renorm_water (FS : list Q * Q) : list Q * Q :=
  let '(F, F_solvent) := FS in
  let W := Water (ix m) in
  if active W && Qltb (vget F W) 0 then
    let F1 := if active (Gas (ix m)) then scale_entry W (Gas (ix m)) F else F in
    let S1 := if has_solvent_ m then F_solvent / (1 - vget F1 W) else F_solvent in
    let F2 := scale_entry W (Oil (ix m)) F1 in
    (<[W := 0]> F2, S1)
  else FS.

Definition renorm_gas (FS : list Q * Q) : list Q * Q :=
  let '(F, F_solvent) := FS in
  let G := Gas (ix m) in
  if active G && Qltb (vget F G) 0 then
    let F1 := if active (Water (ix m)) then scale_entry G (Water (ix m)) F else F in
    let S1 := if has_solvent_ m then F_solvent / (1 - vget F1 G) else F_solvent in
    let F2 := scale_entry G (Oil (ix m)) F1 in
    (<[G := 0]> F2, S1)
  else FS.

Definition renorm_oil (FS : list Q * Q) : list Q * Q :=
  let '(F, F_solvent) := FS in
  let O := Oil (ix m) in
  if Qltb (vget F O) 0 then
    let F1 := if active (Water (ix m)) then scale_entry O (Water (ix m)) F else F in
    let F2 := if active (Gas (ix m)) then scale_entry O (Gas (ix m)) F1 else F1 in
    let S1 := if has_solvent_ m then F_solvent / (1 - vget F2 O) else F_solvent in
    (<[O := 0]> F2, S1)
  else FS.

Definition normalized_fractions (nw np w : nat) (sol : list Q) : list Q * Q :=
  renorm_oil (renorm_gas (renorm_water (read_fractions nw np w sol))).

(** What the renormalizations keep: the four fractions add up to one, and
    the entry of a phase that is not active is zero. *)
Definition fractions_ok (np : nat) (FS : list Q * Q) : Prop :=
  let '(F, F_solvent) := FS in
  length F = np /\
  vget F (Water (ix m)) + vget F (Gas (ix m)) + F_solvent + vget F (Oil (ix m)) == 1 /\
  (active (Water (ix m)) = false -> vget F (Water (ix m)) == 0) /\
  (active (Gas (ix m)) = false -> vget F (Gas (ix m)) == 0) /\
  (has_solvent_ m = false -> F_solvent == 0).

(** The layout the well solution vector is assumed to have: [k] variables
    per well, stored variable by variable, the positions of the fraction
    variables that are in use below [k], and the four positions distinct. *)
Definition layout_ok (k nw : nat) (sol : list Q) : Prop :=
  length sol = (k * nw)%nat /\
  (active (Water (ix m)) = true -> (WFrac (ix m) < k)%nat) /\
  (active (Gas (ix m)) = true -> (GFrac (ix m) < k)%nat) /\
  (has_solvent_ m = true -> (SFrac (ix m) < k)%nat) /\
  List.NoDup [XvarWell (ix m); WFrac (ix m); GFrac (ix m); SFrac (ix m)].

(** The phase indices are distinct and, for the phases in use, below the
    number of phases. *)
Definition phases_ok (np : nat) : Prop :=
  (Water (ix m) <> Oil (ix m) /\ Water (ix m) <> Gas (ix m) /\ Oil (ix m) <> Gas (ix m)) /\
  (Oil (ix m) < np)%nat /\
  (active (Water (ix m)) = true -> (Water (ix m) < np)%nat) /\
  (active (Gas (ix m)) = true -> (Gas (ix m) < np)%nat).

(** The fractions written back to the well solution vector. *)
Definition store_fractions (nw w : nat) (FS : list Q * Q) (sol : list Q) : list Q :=
  let '(F, F_solvent) := FS in
  let sol1 := if active (Water (ix m))
              then <[(WFrac (ix m) * nw + w)%nat := vget F (Water (ix m))]> sol else sol in
  let sol2 := if active (Gas (ix m))
              then <[(GFrac (ix m) * nw + w)%nat := vget F (Gas (ix m))]> sol1 else sol1 in
  if has_solvent_ m
  then <[(SFrac (ix m) * nw + w)%nat := F_solvent]> sol2 else sol2.

(** The fractions of well [w], as its pass of the first loop of
    [updateWellState] computes them from [xvar_well_old] and [dwells]. *)
Definition fractions_of (ws : Wells) (dwells : list (list Q)) (old : list Q) (w : nat)
  : list Q * Q :=
  let nw := number_of_wells ws in
  normalized_fractions nw (number_of_phases ws) w (limit_fractions nw dwells old w old).

(** The slots of well [w] in a well solution vector hold these fractions. *)
Definition holds_fractions (ws : Wells) (dwells : list (list Q)) (old : list Q) (w : nat)
           (sol : list Q) : Prop :=
  let nw := number_of_wells ws in
  let FS := fractions_of ws dwells old w in
  (active (Water (ix m)) = true ->
   vget sol (WFrac (ix m) * nw + w) = vget (fst FS) (Water (ix m))) /\
  (active (Gas (ix m)) = true ->
   vget sol (GFrac (ix m) * nw + w) = vget (fst FS) (Gas (ix m))) /\
  (has_solvent_ m = true ->
   vget sol (SFrac (ix m) * nw + w) = snd FS).

(** [F] scaled for the rates: by [distr] under RESERVOIR_RATE control, by
    [g] otherwise. *)
Definition scale_for_rates (np : nat) (wc : WellControls) (current : Z) (F : list Q)
  : list Q :=
  match well_controls_iget_type wc current with
  | RESERVOIR_RATE =>
      let distr := well_controls_iget_distr wc current in
      fold_left (fun acc p =>
                   if Qltb 0 (vget distr p) then <[p := vget acc p / vget distr p]> acc
                   else <[p := 0]> acc)
                (seq 0 np) F
  | _ => fold_left (fun acc p => <[p := vget acc p / vget g p]> acc) (seq 0 np) F
  end.

(** The body of the first loop over the wells. *)
Definition update_well (ws : Wells) (dwells : list (list Q)) (xvar_well_old : list Q)
           (x : WellState) (w : nat) : WellState :=
  let np := number_of_phases ws in
  let nw := number_of_wells ws in
  let sol1 := limit_fractions nw dwells xvar_well_old w (wellSolutions x) in
  let FS := normalized_fractions nw np w sol1 in
  let sol2 := store_fractions nw w FS sol1 in
  let F1 := if has_solvent_ m
            then <[Gas (ix m) := vget (fst FS) (Gas (ix m)) + snd FS]> (fst FS)
            else fst FS in
  let wc := wctrls ws w in
  let current := zget (currentControls x) w in
  let target_rate := well_controls_iget_target wc current in
  let F := scale_for_rates np wc current F1 in
  let iX := (nw * XvarWell (ix m) + w)%nat in
  let x1 := set_wellSolutions x sol2 in
  match well_controls_iget_type wc current with
  | THP | BHP =>
      let sol3 := <[iX := vget xvar_well_old iX - dwell dwells w (XvarWell (ix m))]> sol2 in
      let rates :=
        match wtype ws w with
        | INJECTOR =>
            fill_from (w * np) np
              (fun p => vget (comp_frac ws) (np * w + p) * vget sol3 iX) (wellRates x)
        | PRODUCER =>
            fill_from (w * np) np (fun p => vget sol3 iX * vget F p) (wellRates x)
        end in
      let x2 := set_wellRates (set_wellSolutions x sol3) rates in
      match well_controls_iget_type wc current with
      | THP => set_bhp x2 (<[w := bhp_from_thp ws x2 w wc current]> (bhp x2))
      | _ => x2
      end
  | SURFACE_RATE | RESERVOIR_RATE =>
      let d := dwell dwells w (XvarWell (ix m)) in
      let dx1_limited :=
        sign_of d * std_min (Qabs d) (Qabs (vget xvar_well_old iX) * dbhpMaxRel m) in
      let sol3 := <[iX := std_max (vget xvar_well_old iX - dx1_limited) 100000]> sol2 in
      let x2 := set_bhp (set_wellSolutions x sol3) (<[w := vget sol3 iX]> (bhp x)) in
      match well_controls_iget_type wc current with
      | SURFACE_RATE =>
          match wtype ws w with
          | PRODUCER =>
              let distr := well_controls_iget_distr wc current in
              let F_target :=
                fold_left (fun acc p => acc + vget distr p * vget F p) (seq 0 np) 0 in
              set_wellRates x2
                (fill_from (np * w) np (fun p => vget F p * target_rate / F_target)
                           (wellRates x2))
          | INJECTOR =>
              set_wellRates x2
                (fill_from (w * np) np
                           (fun p => vget (comp_frac ws) (np * w + p) * target_rate)
                           (wellRates x2))
          end
      | _ =>
          set_wellRates x2
            (fill_from (np * w) np (fun p => vget F p * target_rate) (wellRates x2))
      end
  end.

(** The index of the first THP constraint of a control set, if any. *)
Fixpoint first_thp (cs : list Control) (ctrl_index : Z) : option Z :=
  match cs with
  | [] => None
  | c :: rest =>
      match ctrl_type c with
      | THP => Some ctrl_index
      | _ => first_thp rest (ctrl_index + 1)%Z
      end
  end.

(** The body of the second loop: the tubing head pressure of well [w]. *)
Definition update_thp (ws : Wells) (x : WellState) (w : nat) : WellState :=
  let np := number_of_phases ws in
  let wc := wctrls ws w in
  match first_thp (wc_controls wc) 0 with
  | Some ctrl_index =>
      let current := zget (currentControls x) w in
      if (current =? ctrl_index)%Z
      then set_thp x (<[w := well_controls_iget_target wc current]> (thp x))
      else
        let aqua := phase_rate x np w (Water (ix m)) in
        let liquid := phase_rate x np w (Oil (ix m)) in
        let vapour := phase_rate x np w (Gas (ix m)) in
        let alq := well_controls_iget_alq wc ctrl_index in
        let table_id := well_controls_iget_vfp wc ctrl_index in
        let perf := cpos ws w in
        let rho := vget (well_perforation_densities_ m) perf in
        let bhpw := vget (bhp x) w in
        match wtype ws w with
        | INJECTOR =>
            let dp := computeHydrostaticCorrection m ws w (vfp_inj_datum m table_id)
                        rho (gravity_ m) in
            set_thp x (<[w := vfp_inj_thp m table_id aqua liquid vapour (bhpw + dp)]> (thp x))
        | PRODUCER =>
            let dp := computeHydrostaticCorrection m ws w (vfp_prod_datum m table_id)
                        rho (gravity_ m) in
            set_thp x (<[w := vfp_prod_thp m table_id aqua liquid vapour (bhpw + dp) alq]>
                         (thp x))
        end
  | None => set_thp x (<[w := 0]> (thp x))
  end.

(** [updateWellState(dwells, well_state)]. *)
Definition updateWellState (ws : Wells) (dwells : list (list Q)) (x : WellState)
  : WellState :=
  if negb (localWellsActive ws) then x
  else
    let nw := number_of_wells ws in
    let xvar_well_old := wellSolutions x in
    let x1 := fold_left (update_well ws dwells xvar_well_old) (seq 0 nw) x in
    fold_left (update_thp ws) (seq 0 nw) x1.

(** *** updateWellStateWithTarget *)

(** The rates of well [w] under a rate control, set from the target. *)
Definition rates_from_target (ws : Wells) (w : nat) (target : Q) (distr : list Q)
           (rates : list Q) : list Q :=
  let np := number_of_phases ws in
  let numPhasesWithTargetsUnderThisControl :=
    fold_left (fun acc phase => if Qltb 0 (vget distr phase) then (acc + 1)%Z else acc)
              (seq 0 np) 0%Z in
  match wtype ws w with
  | INJECTOR =>
      fill_from (np * w) np
        (fun phase => if Qltb 0 (vget distr phase) then target / vget distr phase else 0)
        rates
  | PRODUCER =>
      let original_rates_under_phase_control :=
        fold_left (fun acc phase =>
                     if Qltb 0 (vget distr phase)
                     then acc + vget rates (np * w + phase) * vget distr phase else acc)
                  (seq 0 np) 0 in
      if negb (Qeq_bool original_rates_under_phase_control 0) then
        let scaling_factor := target / original_rates_under_phase_control in
        fill_from (np * w) np (fun phase => vget rates (np * w + phase) * scaling_factor)
                  rates
      else
        let target_rate_divided :=
          target / inject_Z numPhasesWithTargetsUnderThisControl in
        fill_from (np * w) np
          (fun phase => if Qltb 0 (vget distr phase)
                        then target_rate_divided / vget distr phase
                        else target_rate_divided)
          rates
  end.

(** [updateWellStateWithTarget(wc, current, well_index, xw)]. *)
Definition updateWellStateWithTarget (ws : Wells) (wc : WellControls) (current : Z)
           (well_index : nat) (xw : WellState) : WellState :=
  let np := number_of_phases ws in
  let nw := number_of_wells ws in
  let target := well_controls_iget_target wc current in
  let distr := well_controls_iget_distr wc current in
  let ty := well_controls_iget_type wc current in
  let xw1 :=
    match ty with
    | BHP => set_bhp xw (<[well_index := target]> (bhp xw))
    | THP =>
        let x := set_thp xw (<[well_index := target]> (thp xw)) in
        set_bhp x (<[well_index := bhp_from_thp ws x well_index wc current]> (bhp x))
    | RESERVOIR_RATE | SURFACE_RATE =>
        set_wellRates xw (rates_from_target ws well_index target distr (wellRates xw))
    end in
  let g' :=
    match ty with
    | RESERVOIR_RATE => fill_from 0 np (fun phase => vget distr phase) g
    | _ => g
    end in
  let iX := (nw * XvarWell (ix m) + well_index)%nat in
  let rate := fun p => vget (wellRates xw1) (np * well_index + p) in
  let sol1 :=
    match ty with
    | THP | BHP =>
        match wtype ws well_index with
        | INJECTOR =>
            <[iX := fold_left (fun acc p =>
                                 acc + rate p * vget (comp_frac ws) (np * well_index + p))
                              (seq 0 np) 0]> (wellSolutions xw1)
        | PRODUCER =>
            <[iX := fold_left (fun acc p => acc + vget g' p * rate p) (seq 0 np) 0]>
              (wellSolutions xw1)
        end
    | RESERVOIR_RATE | SURFACE_RATE =>
        <[iX := vget (bhp xw1) well_index]> (wellSolutions xw1)
    end in
  let tot_well_rate := fold_left (fun acc p => acc + vget g' p * rate p) (seq 0 np) 0 in
  let iW := (WFrac (ix m) * nw + well_index)%nat in
  let iG := (GFrac (ix m) * nw + well_index)%nat in
  let iS := (SFrac (ix m) * nw + well_index)%nat in
  let W := Water (ix m) in
  let G := Gas (ix m) in
  let swr := vget (solventWellRate xw1) well_index in
  let sol2 :=
    if Qltb 0 (Qabs tot_well_rate) then
      let s1 := if active W then <[iW := vget g' W * rate W / tot_well_rate]> sol1 else sol1 in
      let s2 := if active G
                then <[iG := vget g' G * (rate G - swr) / tot_well_rate]> s1 else s1 in
      if has_solvent_ m then <[iS := vget g' G * swr / tot_well_rate]> s2 else s2
    else
      match wtype ws well_index with
      | INJECTOR =>
          let s1 := if active W
                    then if Qltb 0 (vget distr W) then <[iW := 1]> sol1 else <[iW := 0]> sol1
                    else sol1 in
          if active G then
            if Qltb 0 (vget distr G) then
              let s2 := <[iG := 1 - wsolvent m well_index]> s1 in
              if has_solvent_ m then <[iS := wsolvent m well_index]> s2 else s2
            else <[iG := 0]> s1
          else s1
      | PRODUCER =>
          let s1 := if active W then <[iW := 1 / inject_Z (Z.of_nat np)]> sol1 else sol1 in
          if active G then <[iG := 1 / inject_Z (Z.of_nat np)]> s1 else s1
      end in
  set_wellSolutions xw1 sol2.

(** *** updateWellControls *)

(** The scan of the constraints of a well: the index of the first one,
    other than [current], that is broken, or [nwc] when there is none. *)
Fixpoint first_broken (broken : Z -> bool) (current : Z) (idxs : list Z) (nwc : Z) : Z :=
  match idxs with
  | [] => nwc
  | ctrl_index :: rest =>
      if (ctrl_index =? current)%Z then first_broken broken current rest nwc
      else if broken ctrl_index then ctrl_index
      else first_broken broken current rest nwc
  end.

(** What [updateWellControls] changes: the well state, the control sets
    behind [wells().ctrls] and the well collection. *)
Record Controlled : Type := mkControlled {
  c_xw : WellState;
  c_wells : Wells;
  c_coll : Coll
}.

Definition scan_well (ws : Wells) (xw : WellState) (w : nat) : Z :=
  let wc := wctrls ws w in
  let nwc := well_controls_get_num wc in
  first_broken
    (constraintBroken m (bhp xw) (thp xw) (wellRates xw) w (number_of_phases ws)
                      (wtype ws w) wc)
    (zget (currentControls xw) w)
    (map Z.of_nat (seq 0 (Z.to_nat nwc))) nwc.

(** The body of the first loop over the wells ("switch control to first
    broken constraint"). *)
Definition switch_well (s : Controlled) (w : nat) : Controlled :=
  let ws := c_wells s in
  let xw := c_xw s in
  let wc := wctrls ws w in
  let nwc := well_controls_get_num wc in
  let ctrl_index := scan_well ws xw w in
  let switched := negb (ctrl_index =? nwc)%Z in
  let xw' := if switched
             then set_currentControls xw (<[w := ctrl_index]> (currentControls xw))
             else xw in
  let current := zget (currentControls xw') w in
  let ws' := if switched
             then set_wctrls ws w (well_controls_set_current wc current) else ws in
  let coll' :=
    if groupControlActive m (c_coll s) then
      if (0 <=? groupControlIndex m (c_coll s) w)%Z
         && (current =? groupControlIndex m (c_coll s) w)%Z
      then setIndividualControl m w false (c_coll s)
      else setIndividualControl m w true (c_coll s)
    else c_coll s in
  mkControlled xw' ws' coll'.

(** What the switch loop leaves alone: the pressures, rates and solution
    vector of the well state, the shape of the [Wells] struct and, without
    group control, the well collection. *)
Definition switch_frame (s s' : Controlled) : Prop :=
  bhp (c_xw s') = bhp (c_xw s) /\
  thp (c_xw s') = thp (c_xw s) /\
  wellRates (c_xw s') = wellRates (c_xw s) /\
  wellSolutions (c_xw s') = wellSolutions (c_xw s) /\
  solventWellRate (c_xw s') = solventWellRate (c_xw s) /\
  number_of_wells (c_wells s') = number_of_wells (c_wells s) /\
  number_of_phases (c_wells s') = number_of_phases (c_wells s) /\
  type (c_wells s') = type (c_wells s) /\
  comp_frac (c_wells s') = comp_frac (c_wells s) /\
  well_connpos (c_wells s') = well_connpos (c_wells s) /\
  length (currentControls (c_xw s')) = length (currentControls (c_xw s)) /\
  length (ctrls (c_wells s')) = length (ctrls (c_wells s)) /\
  c_coll s' = c_coll s.

(** The control index of well [w] that the scan decides on: the first
    broken constraint, or the current control when none is broken. *)
Definition decided_control (s : Controlled) (w : nat) : Z :=
  let i := scan_well (c_wells s) (c_xw s) w in
  if (i =? well_controls_get_num (wctrls (c_wells s) w))%Z
  then zget (currentControls (c_xw s)) w else i.

(** The body of the loop "checking whether control changed". *)
Definition retarget_well (old_control_index updated_control_index : list Z)
           (group : bool) (ws : Wells) (xw : WellState) (w : nat) : WellState :=
  if negb (zget updated_control_index w =? zget old_control_index w)%Z || group
  then updateWellStateWithTarget ws (wctrls ws w) (zget updated_control_index w) w xw
  else xw.

(** The two loops of [updateWellControls]: switch every well to its first
    broken constraint, then set the state of the switched wells from the
    target of the new control. *)
Definition switch_and_retarget (s : Controlled) : Controlled :=
  let nw := number_of_wells (c_wells s) in
  let old_control_index := map (zget (currentControls (c_xw s))) (seq 0 nw) in
  let s1 := fold_left switch_well (seq 0 nw) s in
  let updated_control_index := map (zget (currentControls (c_xw s1))) (seq 0 nw) in
  let group := groupControlActive m (c_coll s1) in
  let xw2 :=
    fold_left (retarget_well old_control_index updated_control_index group (c_wells s1))
              (seq 0 nw) (c_xw s1) in
  mkControlled xw2 (c_wells s1) (c_coll s1).

(** The last block, "update the well targets following group controls";
    [updated_control_index] is the vector taken before the block. *)
Definition group_targets (s : Controlled) : Controlled :=
  if groupControlActive m (c_coll s) then
    let nw := number_of_wells (c_wells s) in
    let updated_control_index := map (zget (currentControls (c_xw s))) (seq 0 nw) in
    let '(xw3, ws3, coll3) := applyVREPGroupControl m (c_xw s) (c_wells s) (c_coll s) in
    let '(coll4, ws4) := updateWellTargets m (wellRates xw3) coll3 ws3 in
    let xw5 :=
      fold_left (fun xw w =>
                   updateWellStateWithTarget ws4 (wctrls ws4 w)
                     (zget updated_control_index w) w xw)
                (seq 0 nw) xw3 in
    mkControlled xw5 ws4 coll4
  else s.

(** [updateWellControls(xw)]. *)
Definition updateWellControls (s : Controlled) : Controlled :=
  if negb wellsActive then s
  else group_targets (switch_and_retarget s).

End WithModel.

(** What the two loops of [updateWellState] leave alone: the current
    controls, the perforation data and the sizes of the vectors. *)
Definition keeps (x x' : WellState) : Prop :=
  currentControls x' = currentControls x /\
  perfPhaseRates x' = perfPhaseRates x /\
  perfPress x' = perfPress x /\
  perfRateSolvent x' = perfRateSolvent x /\
  solventWellRate x' = solventWellRate x /\
  length (bhp x') = length (bhp x) /\
  length (thp x') = length (thp x) /\
  length (wellRates x') = length (wellRates x) /\
  length (wellSolutions x') = length (wellSolutions x).

End WellModel.

(* --------------------------------------------------------------------- *)
(** ** StandardWellsDense: the well blocks of the linear system          *)
(* --------------------------------------------------------------------- *)

(** The coupled system is [[A B^T; C D] [x; x_well] = [res; res_well]].
    [duneC_] and [invDuneD_] are [Dune::BCRSMatrix] objects of dense blocks
    and [resWell_] is a [Dune::BlockVector]: a matrix is the list of its
    rows, a row the list of its stored blocks with their column index, in
    the order of the row iterator. *)
Module WellSystem.

Abbreviation FieldVector := (list Q).
Abbreviation FieldMatrix := (list (list Q)).
Abbreviation BVector := (list (list Q)).
Abbreviation Mat := (list (list (nat * list (list Q)))).

(** [A[i][j]], the number of columns of row [i] of a block, and [x[j]]. *)
Definition entry (A : FieldMatrix) (i j : nat) : Q := vget (default [] (A !! i)) j.
Definition cols (A : FieldMatrix) (i : nat) : nat := length (default [] (A !! i)).
Definition bget (x : BVector) (j : nat) : FieldVector := default [] (x !! j).

(** [FieldMatrix::umv(x, y)]: [y += A x]. *)
Definition block_umv (A : FieldMatrix) (x y : FieldVector) : FieldVector :=
  imap (fun i yi => fold_left (fun acc j => acc + entry A i j * vget x j)
                              (seq 0 (cols A i)) yi) y.

(** [FieldMatrix::mmv(x, y)]: [y -= A x]. *)
Definition block_mmv (A : FieldMatrix) (x y : FieldVector) : FieldVector :=
  imap (fun i yi => fold_left (fun acc j => acc - entry A i j * vget x j)
                              (seq 0 (cols A i)) yi) y.

Definition zero_like (y : FieldVector) : FieldVector := map (fun _ => 0) y.

(** The pass over the stored blocks of one row. *)
Definition row_umv (row : list (nat * FieldMatrix)) (x : BVector) (y : FieldVector)
  : FieldVector :=
  fold_left (fun acc e => block_umv (snd e) (bget x (fst e)) acc) row y.

Definition row_mmv (row : list (nat * FieldMatrix)) (x : BVector) (y : FieldVector)
  : FieldVector :=
  fold_left (fun acc e => block_mmv (snd e) (bget x (fst e)) acc) row y.

(** [BCRSMatrix::mv(x, y)]: [y = A x]; every row of [y] that the matrix has
    is cleared first. *)
Definition mv (A : Mat) (x y : BVector) : BVector :=
  imap (fun i yi => match A !! i with
                    | Some row => row_umv row x (zero_like yi)
                    | None => yi
                    end) y.

(** [BCRSMatrix::umv(x, y)]: [y += A x]. *)
Definition umv (A : Mat) (x y : BVector) : BVector :=
  imap (fun i yi => match A !! i with
                    | Some row => row_umv row x yi
                    | None => yi
                    end) y.

(** [BCRSMatrix::mmv(x, y)]: [y -= A x]. *)
Definition mmv (A : Mat) (x y : BVector) : BVector :=
  imap (fun i yi => match A !! i with
                    | Some row => row_mmv row x yi
                    | None => yi
                    end) y.

(** [localInvert(istlA)]: every stored block is inverted in place;
    [FieldMatrix::invert] is the library's and is taken as [invert]. *)
Definition localInvert (invert : FieldMatrix -> FieldMatrix) (istlA : Mat) : Mat :=
  map (map (fun e => (fst e, invert (snd e)))) istlA.

Record WellMatrices : Type := mkWellMatrices {
  duneC_ : Mat;
  invDuneD_ : Mat;
  resWell_ : BVector
}.

(** [recoverVariable(x, xw)]. *)
Definition recoverVariable {Coll} (m : WellModel.Model Coll) (ws : Wells)
           (S : WellMatrices) (x xw : BVector) : BVector :=
  if negb (WellModel.localWellsActive m ws) then xw
  else
    let resWell := mmv (duneC_ S) x (resWell_ S) in
    mv (invDuneD_ S) resWell xw.

(** The entry [k] of the product [A x] of a block and of a row of blocks,
    written as a sum. *)
Definition block_sum (A : FieldMatrix) (x : FieldVector) (k : nat) : Q :=
  fold_right (fun j acc => entry A k j * vget x j + acc) 0 (seq 0 (cols A k)).

Definition row_sum (row : list (nat * FieldMatrix)) (x : BVector) (k : nat) : Q :=
  fold_right (fun e acc => block_sum (snd e) (bget x (fst e)) k + acc) 0 row.

(** The sparsity pattern that [init] gives [invDuneD_]: row [w] stores the
    one block [(w, w)]. *)
Definition diagonal (D : Mat) : Prop :=
  forall w row, D !! w = Some row -> exists Dw, row = [(w, Dw)].

Definition block_of (D : Mat) (w : nat) : FieldMatrix :=
  match D !! w with Some ((_, Dw) :: _) => Dw | _ => [] end.

End WellSystem.

(* --------------------------------------------------------------------- *)
(** ** StandardWellsDense: assembly and solution of the well equations    *)
(* --------------------------------------------------------------------- *)

Module WellSolve.
Import WellSystem.

(** A loop whose body can throw. *)
Fixpoint fold_result {A B : Type} (f : A -> B -> Result A) (l : list B) (a : A)
  : Result A :=
  match l with
  | [] => Ok a
  | b :: l' =>
      match f a b with
      | Ok a' => fold_result f l' a'
      | Throw e => Throw e
      end
  end.

(** [A[r][c][i][j]] and [y[r][i]] as the left side of an assignment; [f] is
    the change of the entry. *)
Definition mat_alter (f : Q -> Q) (r c i j : nat) (A : Mat) : Mat :=
  alter (map (fun e => if (fst e =? c)%nat
                       then (fst e, alter (alter f j) i (snd e)) else e)) r A.

Definition vec_alter (f : Q -> Q) (r i : nat) (y : BVector) : BVector :=
  alter (alter f i) r y.

(** [A = 0.0] and [y = 0.0]. *)
Definition mat_clear (A : Mat) : Mat :=
  map (map (fun e => (fst e, map (map (fun _ => 0)) (snd e)))) A.

Definition vec_clear (y : BVector) : BVector := map (map (fun _ => 0)) y.

(** [A.exists(r, c)] and [A[r][c][i][j]] as a value. *)
Definition mat_exists (A : Mat) (r c : nat) : bool :=
  existsb (fun e => (fst e =? c)%nat) (default [] (A !! r)).

Definition mat_entry (A : Mat) (r c i j : nat) : Q :=
  match find (fun e => (fst e =? c)%nat) (default [] (A !! r)) with
  | Some e => entry (snd e) i j
  | None => 0
  end.

(** [EvalWell] with a [double]: [e * c], [e / c] and [e - c]. *)
Definition times (e : EvalWell) (c : Q) : EvalWell :=
  mkEval (value e * c) (map (fun d => d * c) (derivative e)).
Definition over (e : EvalWell) (c : Q) : EvalWell :=
  mkEval (value e / c) (map (fun d => d / c) (derivative e)).
Definition minus (e : EvalWell) (c : Q) : EvalWell :=
  mkEval (value e - c) (derivative e).

(** [e.derivative(i)]. *)
Definition deriv (e : EvalWell) (i : nat) : Q := vget (derivative e) i.

(** What the assembly, the convergence check and the well solve use of the
    rest of the program.  [Lin] is the linearizer of the grid simulator,
    its residual and its matrix, with the two in-place subtractions that
    [assembleWellEq] performs on them; the cached intensive quantities and
    the mobilities of the cells are read only.  [numEq], [numWellEq],
    [numComponents()] and the index maps are declared in headers;
    [wellSurfaceVolumeFraction], [getQs] and the THP branch of [getBhp]
    read the well variables and are not expanded; [B_avg] is the average
    over the grid that [getWellConvergence] computes from the fluid states,
    [comm_max] the reduction [grid.comm().max]. *)
Record Ops (Coll Lin : Type) : Type := mkOps {
  model : WellModel.Model Coll;
  numEq : nat;
  numWellEq : nat;
  numComponents : nat;
  has_polymer_ : bool;
  contiPolymerEqIdx : nat;
  polymerConcentrationIdx : nat;
  flowPhaseToEbosCompIdx : nat -> nat;
  flowToEbosPvIdx : nat -> nat;
  resid_sub : nat -> nat -> Q -> Lin -> Lin;
  jac_sub : nat -> nat -> nat -> Q -> Lin -> Lin;
  cachedIntensiveQuantities : nat -> WellFlux.IntQuants;
  getMobility : nat -> nat -> list EvalWell;
  wpolymer : nat -> Q;
  polymerMix : nat -> EvalWell;
  well_perforation_efficiency_factors_ : list Q;
  well_perforation_pressure_diffs_ : list Q;
  F0_ : list Q;
  wellSurfaceVolumeFraction : list EvalWell -> nat -> nat -> EvalWell;
  bhp_from_thp : Wells -> list EvalWell -> nat -> EvalWell;
  getQs : Wells -> list EvalWell -> nat -> nat -> EvalWell;
  invert : FieldMatrix -> FieldMatrix;
  B_avg : list Q;
  comm_max : list Q -> list Q;
  tolerance_wells_ : Q;
  max_residual_allowed_ : Q;
  groupTargetConverged : Coll -> list Q -> bool
}.
Arguments model {Coll Lin} _.
Arguments numEq {Coll Lin} _.
Arguments numWellEq {Coll Lin} _.
Arguments numComponents {Coll Lin} _.
Arguments has_polymer_ {Coll Lin} _.
Arguments contiPolymerEqIdx {Coll Lin} _.
Arguments polymerConcentrationIdx {Coll Lin} _.
Arguments flowPhaseToEbosCompIdx {Coll Lin} _.
Arguments flowToEbosPvIdx {Coll Lin} _.
Arguments resid_sub {Coll Lin} _.
Arguments jac_sub {Coll Lin} _.
Arguments cachedIntensiveQuantities {Coll Lin} _.
Arguments getMobility {Coll Lin} _.
Arguments wpolymer {Coll Lin} _.
Arguments polymerMix {Coll Lin} _.
Arguments well_perforation_efficiency_factors_ {Coll Lin} _.
Arguments well_perforation_pressure_diffs_ {Coll Lin} _.
Arguments F0_ {Coll Lin} _.
Arguments wellSurfaceVolumeFraction {Coll Lin} _.
Arguments bhp_from_thp {Coll Lin} _.
Arguments getQs {Coll Lin} _.
Arguments invert {Coll Lin} _.
Arguments B_avg {Coll Lin} _.
Arguments comm_max {Coll Lin} _.
Arguments tolerance_wells_ {Coll Lin} _.
Arguments max_residual_allowed_ {Coll Lin} _.
Arguments groupTargetConverged {Coll Lin} _.

(** What the functions change: the linearizer, the well state, the control
    sets, the well collection and the members of the well model. *)
Record Sys (Coll Lin : Type) : Type := mkSys {
  lin : Lin;
  well_state : WellState;
  wells : Wells;
  coll : Coll;
  wellVariables_ : list EvalWell;
  duneB_ : Mat;
  duneC_ : Mat;
  invDuneD_ : Mat;
  duneD_ : Mat;
  resWell_ : BVector
}.
Arguments mkSys {Coll Lin}.
Arguments lin {Coll Lin} _.
Arguments well_state {Coll Lin} _.
Arguments wells {Coll Lin} _.
Arguments coll {Coll Lin} _.
Arguments wellVariables_ {Coll Lin} _.
Arguments duneB_ {Coll Lin} _.
Arguments duneC_ {Coll Lin} _.
Arguments invDuneD_ {Coll Lin} _.
Arguments duneD_ {Coll Lin} _.
Arguments resWell_ {Coll Lin} _.

Definition set_perfPhaseRates (x : WellState) (v : list Q) : WellState :=
  mkWellState (bhp x) (thp x) (wellRates x) (wellSolutions x) (currentControls x)
              v (perfPress x) (perfRateSolvent x) (solventWellRate x).
Definition set_perfPress (x : WellState) (v : list Q) : WellState :=
  mkWellState (bhp x) (thp x) (wellRates x) (wellSolutions x) (currentControls x)
              (perfPhaseRates x) v (perfRateSolvent x) (solventWellRate x).
Definition set_perfRateSolvent (x : WellState) (v : list Q) : WellState :=
  mkWellState (bhp x) (thp x) (wellRates x) (wellSolutions x) (currentControls x)
              (perfPhaseRates x) (perfPress x) v (solventWellRate x).

Section WithOps.
Context {Coll Lin : Type}.
Variable O : Ops Coll Lin.

(** [0.1 cu ft]. *)
Definition volume : Q := 2831684659200 # 1000000000000000.

(** The well model as [allow_cross_flow], [getBhp] and [computeWellFlux]
    read it in state [s]. *)
Definition flux_model (s : Sys Coll Lin) : WellFlux.WellModel := {|
  WellFlux.wells := wells s;
  WellFlux.ix := WellModel.ix (model O);
  WellFlux.active_ := WellModel.active_ (model O);
  WellFlux.phase_pos := WellModel.phase_pos (model O);
  WellFlux.has_solvent_ := WellModel.has_solvent_ (model O);
  WellFlux.numComponents := numComponents O;
  WellFlux.well_perforation_pressure_diffs_ := well_perforation_pressure_diffs_ O;
  WellFlux.wellVariables_ := wellVariables_ s;
  WellFlux.cachedIntensiveQuantities := cachedIntensiveQuantities O;
  WellFlux.getMobility := getMobility O;
  WellFlux.wellSurfaceVolumeFraction := wellSurfaceVolumeFraction O (wellVariables_ s);
  WellFlux.bhp_from_thp := bhp_from_thp O (wells s) (wellVariables_ s)
|}.

(** *** assembleWellEq *)

(** The body of the loop over the components of one perforation. *)
Definition assemble_component (only_wells : bool) (w perf cell_idx : nat)
           (cq_s : list EvalWell) (s : Sys Coll Lin) (componentIdx : nat)
  : Sys Coll Lin :=
  let ix := WellModel.ix (model O) in
  let np := number_of_phases (wells s) in
  let cq := Eval.get cq_s componentIdx in
  let cq_s_effective := times cq (vget (well_perforation_efficiency_factors_ O) perf) in
  let comp := flowPhaseToEbosCompIdx O componentIdx in
  let lin1 :=
    if negb only_wells then resid_sub O cell_idx comp (value cq_s_effective) (lin s)
    else lin s in
  let res1 := vec_alter (fun r => r - value cq) w componentIdx (resWell_ s) in
  let BD :=
    fold_left
      (fun (BD : Mat * Mat) pvIdx =>
         (if negb only_wells
          then mat_alter (fun b => b - deriv cq_s_effective (pvIdx + numEq O))
                         w cell_idx pvIdx comp (fst BD)
          else fst BD,
          mat_alter (fun d => d - deriv cq (pvIdx + numEq O)) w w componentIdx pvIdx (snd BD)))
      (seq 0 (numWellEq O)) (duneB_ s, invDuneD_ s) in
  let LC :=
    fold_left
      (fun (LC : Lin * Mat) pvIdx =>
         if negb only_wells
         then (jac_sub O cell_idx comp (flowToEbosPvIdx O pvIdx)
                       (deriv cq_s_effective pvIdx) (fst LC),
               mat_alter (fun c => c - deriv cq_s_effective pvIdx)
                         w cell_idx componentIdx (flowToEbosPvIdx O pvIdx) (snd LC))
         else LC)
      (seq 0 (numEq O)) (lin1, duneC_ s) in
  let D2 :=
    if (numComponents O <? numEq O)%nat
    then mat_alter (fun _ => 1) w w (Gas ix) (Gas ix) (snd BD) else snd BD in
  let xw := well_state s in
  let xw' :=
    if WellModel.has_solvent_ (model O) && (componentIdx =? solventSaturationIdx ix)%nat
    then set_perfRateSolvent xw (<[perf := value cq]> (perfRateSolvent xw))
    else set_perfPhaseRates xw
           (<[(perf * np + componentIdx)%nat := value cq]> (perfPhaseRates xw)) in
  mkSys (fst LC) xw' (wells s) (coll s) (wellVariables_ s)
        (fst BD) (snd LC) D2 (duneD_ s) res1.

(** The body of the loop over the perforations of well [w];
    [computeWellFlux] can throw. *)
Definition assemble_perforation (only_wells : bool) (w : nat) (s : Sys Coll Lin)
           (perf : nat) : Result (Sys Coll Lin) :=
  let ix := WellModel.ix (model O) in
  let cell_idx := cell_of (wells s) perf in
  match WellFlux.perforation_flux (flux_model s) w perf with
  | Throw e => Throw e
  | Ok cq_s =>
      let s1 := fold_left (assemble_component only_wells w perf cell_idx cq_s)
                          (seq 0 (numComponents O)) s in
      let lin2 :=
        if has_polymer_ O then
          let cq_s_poly :=
            match wtype (wells s) w with
            | INJECTOR => times (Eval.get cq_s (Water ix)) (wpolymer O w)
            | PRODUCER => Eval.mul (Eval.get cq_s (Water ix)) (polymerMix O cell_idx)
            end in
          if negb only_wells then
            let l :=
              fold_left (fun l pvIdx =>
                           jac_sub O cell_idx (contiPolymerEqIdx O) (flowToEbosPvIdx O pvIdx)
                                   (deriv cq_s_poly pvIdx) l)
                        (seq 0 (numEq O)) (lin s1) in
            resid_sub O cell_idx (contiPolymerEqIdx O) (value cq_s_poly) l
          else lin s1
        else lin s1 in
      let xw := well_state s1 in
      let xw' :=
        set_perfPress xw
          (<[perf := vget (bhp xw) w + vget (well_perforation_pressure_diffs_ O) perf]>
             (perfPress xw)) in
      Ok (mkSys lin2 xw' (wells s1) (coll s1) (wellVariables_ s1)
                (duneB_ s1) (duneC_ s1) (invDuneD_ s1) (duneD_ s1) (resWell_ s1))
  end.

(** The body of the loop over the wells. *)
Definition assemble_well (dt : Q) (only_wells : bool) (s : Sys Coll Lin) (w : nat)
  : Result (Sys Coll Lin) :=
  match fold_result (assemble_perforation only_wells w)
                    (WellFlux.perforations (wells s) w) s with
  | Throw e => Throw e
  | Ok s1 =>
      let nw := number_of_wells (wells s1) in
      let Dr :=
        fold_left
          (fun (Dr : Mat * BVector) componentIdx =>
             let resWell_loc :=
               Eval.add
                 (over (times (minus (wellSurfaceVolumeFraction O (wellVariables_ s1)
                                                                w componentIdx)
                                     (vget (F0_ O) (w + nw * componentIdx)))
                              volume) dt)
                 (getQs O (wells s1) (wellVariables_ s1) w componentIdx) in
             (fold_left (fun D pvIdx =>
                           mat_alter (fun d => d + deriv resWell_loc (pvIdx + numEq O))
                                     w w componentIdx pvIdx D)
                        (seq 0 (numWellEq O)) (fst Dr),
              vec_alter (fun r => r + value resWell_loc) w componentIdx (snd Dr)))
          (seq 0 (numComponents O)) (invDuneD_ s1, resWell_ s1) in
      let D2 :=
        if has_polymer_ O
        then mat_alter (fun _ => 1) w w (contiPolymerEqIdx O) (polymerConcentrationIdx O)
                       (fst Dr)
        else fst Dr in
      Ok (mkSys (lin s1) (well_state s1) (wells s1) (coll s1) (wellVariables_ s1)
                (duneB_ s1) (duneC_ s1) D2 (duneD_ s1) (snd Dr))
  end.

(** The copy of the leading 3 x 3 entries of every stored block of
    [invDuneD_] into [duneD_]; both are square, [init] sizes them
    [nw x nw]. *)
Definition copy_D (invD duneD : Mat) : Mat :=
  let n := length duneD in
  fold_left
    (fun D row_block =>
       fold_left
         (fun D col_block =>
            if mat_exists invD row_block col_block then
              fold_left (fun D (ij : nat * nat) =>
                           mat_alter (fun _ => mat_entry invD row_block col_block
                                                         (fst ij) (snd ij))
                                     row_block col_block (fst ij) (snd ij) D)
                        [(0, 0); (0, 1); (0, 2); (1, 0); (1, 1); (1, 2);
                         (2, 0); (2, 1); (2, 2)]%nat D
            else D)
         (seq 0 n) D)
    (seq 0 n) duneD.

(** [assembleWellEq(ebosSimulator, dt, well_state, only_wells)]. *)
Definition assembleWellEq (dt : Q) (only_wells : bool) (s : Sys Coll Lin)
  : Result (Sys Coll Lin) :=
  let nw := number_of_wells (wells s) in
  let s0 := mkSys (lin s) (well_state s) (wells s) (coll s) (wellVariables_ s)
                  (mat_clear (duneB_ s)) (mat_clear (duneC_ s))
                  (mat_clear (invDuneD_ s)) (duneD_ s) (vec_clear (resWell_ s)) in
  match fold_result (assemble_well dt only_wells) (seq 0 nw) s0 with
  | Throw e => Throw e
  | Ok s1 =>
      Ok (mkSys (lin s1) (well_state s1) (wells s1) (coll s1) (wellVariables_ s1)
                (duneB_ s1) (duneC_ s1)
                (localInvert (invert O) (invDuneD_ s1))
                (copy_D (invDuneD_ s1) (duneD_ s1)) (resWell_ s1))
  end.

(** *** residual and getWellConvergence *)

(** [residual()]. *)
Definition residual (s : Sys Coll Lin) : list Q :=
  if negb (WellModel.wellsActive (model O)) then []
  else
    let nw := number_of_wells (wells s) in
    fold_left
      (fun res compIdx =>
         fold_left (fun res wellIdx =>
                      <[(wellIdx + nw * compIdx)%nat :=
                          vget (bget (resWell_ s) wellIdx) compIdx]> res)
                   (seq 0 nw) res)
      (seq 0 (numComponents O)) (repeat 0 (numEq O * nw)).

(** [getWellConvergence(ebosSimulator, iteration)].  It throws when a
    scaled residual of a phase is above [max_residual_allowed_]; the test
    for NaN never fires on rationals.  [res.size() / numComp] is the
    integer division. *)
Definition getWellConvergence (s : Sys Coll Lin) (iteration : Z) : Result bool :=
  let np := number_of_phases (wells s) in
  let numComp := numComponents O in
  let res := residual s in
  let nw := (length res / numComp)%nat in
  let maxNormWell :=
    comm_max O
      (map (fun compIdx =>
              fold_left (fun acc w => std_max acc (Qabs (vget res (nw * compIdx + w))))
                        (seq 0 nw) 0)
           (seq 0 numComp)) in
  let well_flux_residual :=
    map (fun compIdx => vget (B_avg O) compIdx * vget maxNormWell compIdx)
        (seq 0 numComp) in
  let converged_Well :=
    fold_left (fun acc compIdx =>
                 acc && Qltb (vget well_flux_residual compIdx) (tolerance_wells_ O))
              (seq 0 numComp) true in
  if existsb (fun phaseIdx =>
                Qltb (max_residual_allowed_ O) (vget well_flux_residual phaseIdx))
             (seq 0 np)
  then Throw NumericalProblem
  else Ok converged_Well.

(** *** setWellVariables *)

(** [setWellVariables(xw)]: the value from the well solution vector and a
    unit derivative with respect to the own well variable. *)
Definition setWellVariables (ws : Wells) (xw : WellState) (vars : list EvalWell)
  : list EvalWell :=
  let nw := number_of_wells ws in
  fold_left
    (fun vars eqIdx =>
       fold_left
         (fun vars w =>
            let idx := (nw * eqIdx + w)%nat in
            <[idx := mkEval (vget (wellSolutions xw) idx)
                            (<[(numEq O + eqIdx)%nat := 1]>
                               (repeat 0 (numEq O + numWellEq O)))]> vars)
         (seq 0 nw) vars)
    (seq 0 (numComponents O)) vars.

(** *** solveWellEq *)

(** The part of the loop body after the convergence test: the update of
    the well unknowns by [invDuneD_ * resWell_], then the control switch. *)
Definition update_wells (s : Sys Coll Lin) : Sys Coll Lin :=
  let nw := number_of_wells (wells s) in
  let s1 :=
    if WellModel.localWellsActive (model O) (wells s) then
      let dx_well :=
        mv (invDuneD_ s) (resWell_ s) (repeat (repeat 0 (numWellEq O)) nw) in
      mkSys (lin s) (WellModel.updateWellState (model O) (wells s) dx_well (well_state s))
            (wells s) (coll s) (wellVariables_ s)
            (duneB_ s) (duneC_ s) (invDuneD_ s) (duneD_ s) (resWell_ s)
    else s in
  if WellModel.wellsActive (model O) then
    let c := WellModel.updateWellControls (model O)
               (WellModel.mkControlled (well_state s1) (wells s1) (coll s1)) in
    mkSys (lin s1) (WellModel.c_xw c) (WellModel.c_wells c) (WellModel.c_coll c)
          (setWellVariables (WellModel.c_wells c) (WellModel.c_xw c) (wellVariables_ s1))
          (duneB_ s1) (duneC_ s1) (invDuneD_ s1) (duneD_ s1) (resWell_ s1)
  else s1.

(** The [do ... while (it < 15)] loop, started with [it]; the result is
    [converged], the final [it] and the state.  [fuel] bounds the number of
    passes of the body. *)
Fixpoint well_loop (fuel : nat) (dt : Q) (it : Z) (s : Sys Coll Lin)
  : Result (bool * Z * Sys Coll Lin) :=
  match fuel with
  | 0%nat => Ok (false, it, s)
  | S fuel' =>
      match assembleWellEq dt true s with
      | Throw e => Throw e
      | Ok s1 =>
          match getWellConvergence s1 it with
          | Throw e => Throw e
          | Ok conv =>
              let converged :=
                if WellModel.groupControlActive (model O) (coll s1)
                then conv && groupTargetConverged O (coll s1) (wellRates (well_state s1))
                else conv in
              if converged then Ok (true, it, s1)
              else
                let it' := (it + 1)%Z in
                let s2 := update_wells s1 in
                if (it' <? 15)%Z then well_loop fuel' dt it' s2
                else Ok (false, it', s2)
          end
      end
  end.

(** The recovery of the old well controls after a failed solve. *)
Definition recover_controls (nw : nat) (xw : WellState) (ws : Wells) : Wells :=
  fold_left (fun ws w =>
               set_wctrls ws w
                 (well_controls_set_current (wctrls ws w) (zget (currentControls xw) w)))
            (seq 0 nw) ws.

(** [solveWellEq(ebosSimulator, dt, well_state)]. *)
Definition solveWellEq (dt : Q) (s : Sys Coll Lin)
  : Result (SimulatorReport * Sys Coll Lin) :=
  let nw := number_of_wells (wells s) in
  let well_state0 := well_state s in
  match well_loop 15 dt 0 s with
  | Throw e => Throw e
  | Ok (converged, it, s1) =>
      let s2 :=
        if negb converged
        then mkSys (lin s1) well_state0 (recover_controls nw well_state0 (wells s1))
                   (coll s1) (wellVariables_ s1)
                   (duneB_ s1) (duneC_ s1) (invDuneD_ s1) (duneD_ s1) (resWell_ s1)
        else s1 in
      Ok (mkReport converged 0 0 0 it, s2)
  end.

(** *** Frames and preconditions *)

(** What a pass of [assembleWellEq] with [only_wells = true] leaves alone. *)
Definition wells_only_frame (s s' : Sys Coll Lin) : Prop :=
  lin s' = lin s /\ wells s' = wells s /\ coll s' = coll s /\
  wellVariables_ s' = wellVariables_ s /\
  bhp (well_state s') = bhp (well_state s) /\
  thp (well_state s') = thp (well_state s) /\
  wellRates (well_state s') = wellRates (well_state s) /\
  wellSolutions (well_state s') = wellSolutions (well_state s) /\
  currentControls (well_state s') = currentControls (well_state s).

(** [computeWellFlux] throws only in an injecting perforation of an
    oil-gas system in which [1 - rv * rs] is zero. *)
Definition flux_defined : Prop :=
  forall cell,
    let iq := cachedIntensiveQuantities O cell in
    Qeq_bool (value (Eval.sub (Eval.const 1) (Eval.mul (WellFlux.Rv iq) (WellFlux.Rs iq)))) 0
    = false.


End WithOps.

End WellSolve.

(** A small sub step timer and a solver that fails on its first call, to
    run [stepImpl] on. *)
Module AdaptiveExample.
Import AdaptiveTimeStepping.

Record ToyTimer : Type := mkToyTimer {
  remaining : Q;
  dt_ : Q;
  lastStepFailed_ : bool
}.

Definition toyTimerOps : TimerOps ToyTimer := {|
  done := fun t => Qle_bool (remaining t) 0;
  currentStepLength := dt_;
  simulationTimeElapsed := fun t => 30 - remaining t;
  advance := fun t => mkToyTimer (remaining t - dt_ t) (dt_ t) (lastStepFailed_ t);
  provideTimeStepEstimate := fun e t =>
    mkToyTimer (remaining t) (Qmin e (remaining t)) (lastStepFailed_ t);
  setLastStepFailed := fun b t => mkToyTimer (remaining t) (dt_ t) b
|}.

(** The solver counts its calls; the first call scribbles on the state and
    throws, later calls converge. *)
Definition toySolverOps : SolverOps nat Z Z ToyTimer := {|
  step := fun n _ st wst =>
    match n with
    | O => (1%nat, (st + 100)%Z, (wst + 100)%Z, Throw TooManyIterations)
    | _ => (Datatypes.S n, (st + 1)%Z, (wst + 1)%Z, Ok (mkReport true 1 3 7 0))
    end;
  failureReport := fun _ => mkReport false 1 10 20 0;
  relativeChange := fun _ _ _ => 0
|}.

Definition toyParams : Params := {|
  restart_factor_ := 33 # 100;
  growth_factor_ := 2;
  max_growth_ := 3;
  max_time_step_ := 365;
  solver_restart_max_ := 10;
  use_newton_iteration_ := true;
  full_timestep_initially_ := false;
  timestep_after_event_ := -1;
  computeTimeStepSize := fun dt _ _ _ => 3 * dt
|}.

Definition toyLoop : Loop (Solver := nat) (State := Z) (WState := Z) :=
  mkLoop (mkToyTimer 30 (99 # 10) false) 0%nat 5%Z 6%Z 5%Z 6%Z 0%Z
         emptyReport emptyReport.

End AdaptiveExample.

(** An injector with two perforations whose cells are both at a higher
    pressure than the well bore. *)
Module CrossFlowExample.
Import WellFlux.

Definition stdIndices : Indices := mkIndices 0 1 2 0 1 2 3 3.

Definition toyWells : Wells := {|
  number_of_wells := 1;
  number_of_phases := 3;
  type := [INJECTOR];
  ctrls := [mkWellControls [mkControl BHP 200 [0; 0; 0] 0 0;
                             mkControl SURFACE_RATE 50 [1; 0; 0] 0 0] 0];
  well_connpos := [0; 2]%nat;
  well_cells := [0; 1]%nat;
  WI := [1; 1];
  comp_frac := [1; 0; 0];
  allow_cf := [false]
|}.

Definition toyModel : WellModel := {|
  wells := toyWells;
  ix := stdIndices;
  active_ := [true; true; true];
  phase_pos := [0; 1; 2]%nat;
  has_solvent_ := false;
  numComponents := 3;
  well_perforation_pressure_diffs_ := [0; 10];
  wellVariables_ := [];
  cachedIntensiveQuantities := fun cell =>
    mkIntQuants (Eval.const (if (cell =? 0)%nat then 250 else 300))
                (Eval.const 0) (Eval.const 0)
                [Eval.const 1; Eval.const 1; Eval.const 1] (Eval.const 1);
  getMobility := fun _ _ => [Eval.const 1; Eval.const 2; Eval.const 3];
  wellSurfaceVolumeFraction := fun _ c => Eval.const (if (c =? 0)%nat then 1 else 0);
  bhp_from_thp := fun _ => Eval.const 0
|}.

(** The same injector with its first cell at a lower pressure than the
    well bore: the first perforation injects, the second one cross-flows. *)
Definition mixedModel : WellModel := {|
  wells := toyWells;
  ix := stdIndices;
  active_ := [true; true; true];
  phase_pos := [0; 1; 2]%nat;
  has_solvent_ := false;
  numComponents := 3;
  well_perforation_pressure_diffs_ := [0; 10];
  wellVariables_ := [];
  cachedIntensiveQuantities := fun cell =>
    mkIntQuants (Eval.const (if (cell =? 0)%nat then 150 else 300))
                (Eval.const 0) (Eval.const 0)
                [Eval.const 1; Eval.const 1; Eval.const 1] (Eval.const 1);
  getMobility := fun _ _ => [Eval.const 1; Eval.const 2; Eval.const 3];
  wellSurfaceVolumeFraction := fun _ c => Eval.const (if (c =? 0)%nat then 1 else 0);
  bhp_from_thp := fun _ => Eval.const 0
|}.

End CrossFlowExample.

(** A three-phase model with dissolved gas, vaporized oil and solvent, and
    two cells to run [updateState] on. *)
Module UpdateStateExample.
Import UpdateState.

Definition toyModel : Model := {|
  active_Water := true;  active_Oil := true;  active_Gas := true;
  has_disgas_ := true;  has_vapoil_ := true;
  has_solvent_ := true;  has_polymer_ := false;
  dp_max_rel_ := 3 # 10;
  ds_max_ := 2 # 10;
  waterCompIdx := 1;  oilCompIdx := 0;  gasCompIdx := 2;
  solventSaturationIdx := 3;  polymerConcentrationIdx := 4;
  saturatedGasDissolutionFactor := fun _ _ _ => 100;
  saturatedOilVaporizationFactor := fun _ _ _ => 0
|}.

(** A gas-and-oil cell without oil, sw = 0.3, sg = 0.6, ss = 0.1, and an
    update that moves water and solvent up by 0.2 and gas down by 0.2.
    The block is [dx[cell] = {dsw, dp, dxvar, dss}]. *)
Definition gasCell : Cell :=
  mkCell 200 (3 # 10) 0 (6 # 10) 100 0 GasAndOil (1 # 10) 0 300 0.

Definition gasUpdate : list Q := [- (2 # 10); 0; 2 # 10; - (2 # 10)].

(** An oil-only cell with rs = 100 = rsSat, and an update that raises rs by
    0.005. *)
Definition oilCell : Cell :=
  mkCell 200 (3 # 10) (7 # 10) 0 100 0 OilOnly 0 0 300 0.

Definition oilUpdate : list Q := [0; 0; - (5 # 1000); 0].

(** The same cell with an update that raises rs by 1. *)
Definition oilUpdateLarge : list Q := [0; 0; - 1; 0].

End UpdateStateExample.

(** Two wells, a producer and a water injector, in a three-phase run
    without solvent and without group control. *)
Module WellExample.
Import WellModel.

Definition stdIndices : Indices := mkIndices 0 1 2 0 1 2 3 3.

Definition toyWells : Wells := {|
  number_of_wells := 2;
  number_of_phases := 3;
  type := [PRODUCER; INJECTOR];
  ctrls := [mkWellControls [mkControl BHP 100 [0; 0; 0] 0 0;
                            mkControl SURFACE_RATE (- 50) [0; 1; 0] 0 0] 1;
            mkWellControls [mkControl BHP 300 [0; 0; 0] 0 0;
                            mkControl SURFACE_RATE 80 [1; 0; 0] 0 0] 0];
  well_connpos := [0; 1; 2]%nat;
  well_cells := [0; 1]%nat;
  WI := [1; 1];
  comp_frac := [0; 0; 0; 1; 0; 0];
  allow_cf := [false; false]
|}.

(** A constraint check in the manner of [wellhelpers::constraintBroken],
    for the pressure limits only: the bottom hole pressure of a producer
    must not fall below its limit, that of an injector must not rise
    above it. *)
Definition toyConstraintBroken (bhp _ _ : list Q) (w : nat) (_ : nat) (ty : WellType)
           (wc : WellControls) (ctrl_index : Z) : bool :=
  match well_controls_iget_type wc ctrl_index, ty with
  | BHP, PRODUCER => Qltb (vget bhp w) (well_controls_iget_target wc ctrl_index)
  | BHP, INJECTOR => Qltb (well_controls_iget_target wc ctrl_index) (vget bhp w)
  | _, _ => false
  end.

Definition toyModel : Model unit := {|
  ix := stdIndices;
  wells_present := true;
  wells_active_ := true;
  active_ := [true; true; true];
  phase_pos := [0; 1; 2]%nat;
  has_solvent_ := false;
  dWellFractionMax := 2 # 10;
  dbhpMaxRel := 1;
  well_perforation_densities_ := [800; 1000];
  gravity_ := 981 # 100;
  vfp_inj_bhp := fun _ _ _ _ thp => thp;
  vfp_prod_bhp := fun _ _ _ _ thp _ => thp;
  vfp_inj_thp := fun _ _ _ _ bhp => bhp;
  vfp_prod_thp := fun _ _ _ _ bhp _ => bhp;
  vfp_inj_datum := fun _ => 0;
  vfp_prod_datum := fun _ => 0;
  computeHydrostaticCorrection := fun _ _ _ _ _ => 0;
  wsolvent := fun _ => 0;
  constraintBroken := toyConstraintBroken;
  groupControlActive := fun _ => false;
  groupControlIndex := fun _ _ => (-1)%Z;
  setIndividualControl := fun _ _ c => c;
  applyVREPGroupControl := fun xw ws c => (xw, ws, c);
  updateWellTargets := fun _ c ws => (c, ws)
|}.

(** The producer runs on its rate control with a bottom hole pressure of 90,
    below its limit of 100; the injector runs on its pressure control.  The
    well solution vector is [{X0, X1, W0, W1, G0, G1}]. *)
Definition toyWellState : WellState := {|
  bhp := [90; 250];
  thp := [0; 0];
  wellRates := [- 10; - 30; - 5; 40; 0; 0];
  wellSolutions := [90; 40; 2 # 10; 1; 1 # 10; 0];
  currentControls := [1%Z; 0%Z];
  perfPhaseRates := [- 10; - 30; - 5; 40; 0; 0];
  perfPress := [95; 255];
  perfRateSolvent := [0; 0];
  solventWellRate := [0; 0]
|}.

(** A Newton update of the well variables, one block per well. *)
Definition toyDwells : list (list Q) := [[5; 5 # 10; - (1 # 10)]; [- 3; 0; 15 # 100]].

(** The state [updateWellControls] works on: the well state, the control
    sets and the (empty) well collection. *)
Definition toyControlled : @Controlled unit := mkControlled toyWellState toyWells tt.

End WellExample.

(** Two wells with two equations each, coupled to two cells with three
    unknowns each. *)
Module WellSystemExample.
Import WellSystem.

(** The inverse of a 2 x 2 block by its adjugate. *)
Definition invert2 (A : FieldMatrix) : FieldMatrix :=
  let a := entry A 0 0 in
  let b := entry A 0 1 in
  let c := entry A 1 0 in
  let d := entry A 1 1 in
  let det := a * d - b * c in
  [[d / det; - b / det]; [- c / det; a / det]].

Definition toyD : Mat := [[(0%nat, [[2; 1]; [1; 1]])]; [(1%nat, [[1; 0]; [0; 4]])]].

Definition toyC : Mat :=
  [[(0%nat, [[1; 0; 2]; [0; 1; 0]])]; [(1%nat, [[0; 1; 0]; [3; 0; 1]])]].

Definition toyResWell : BVector := [[5; 7]; [1; 2]].

Definition toyX : BVector := [[1; 2; 3]; [- 1; 0; 1]].

Definition toyXw : BVector := [[0; 0]; [0; 0]].

End WellSystemExample.

(** A well system for [solveWellEq]: the two wells of [WellExample] over
    two cells without dissolved gas and vaporized oil; the linearizer is
    the count of the writes to it.  The residuals are scaled by zero and
    the tolerance is zero, so that the convergence test neither passes nor
    throws. *)
Module WellSolveExample.
Import WellSystem WellSolve.

(** The inverse of a diagonal block. *)
Definition toyInvert (A : FieldMatrix) : FieldMatrix :=
  imap (fun i row => imap (fun j a => if (i =? j)%nat then / a else 0) row) A.

Definition toyOps : Ops unit Z := {|
  model := WellExample.toyModel;
  numEq := 3;
  numWellEq := 3;
  numComponents := 3;
  has_polymer_ := false;
  contiPolymerEqIdx := 3;
  polymerConcentrationIdx := 3;
  flowPhaseToEbosCompIdx := fun p => p;
  flowToEbosPvIdx := fun p => p;
  resid_sub := fun _ _ _ l => (l + 1)%Z;
  jac_sub := fun _ _ _ _ l => (l + 1)%Z;
  cachedIntensiveQuantities := fun cell =>
    WellFlux.mkIntQuants (Eval.const (if (cell =? 0)%nat then 120 else 200))
                         (Eval.const 0) (Eval.const 0)
                         [Eval.const 1; Eval.const 1; Eval.const 1] (Eval.const 1);
  getMobility := fun _ _ => [Eval.const 1; Eval.const 2; Eval.const 3];
  wpolymer := fun _ => 0;
  polymerMix := fun _ => Eval.const 0;
  well_perforation_efficiency_factors_ := [1; 1];
  well_perforation_pressure_diffs_ := [5; 5];
  F0_ := [0; 0; 0; 0; 0; 0];
  wellSurfaceVolumeFraction := fun vars w c => Eval.get vars (2 * c + w);
  bhp_from_thp := fun _ _ _ => Eval.const 0;
  getQs := fun _ vars w c => Eval.get vars (2 * c + w);
  invert := toyInvert;
  B_avg := [0; 0; 0];
  comm_max := fun v => v;
  tolerance_wells_ := 0;
  max_residual_allowed_ := 1000;
  groupTargetConverged := fun _ _ => true
|}.

(** The same collaborators with a positive tolerance: the convergence
    test passes at once. *)
Definition convergingOps : Ops unit Z := {|
  model := model toyOps;
  numEq := numEq toyOps;
  numWellEq := numWellEq toyOps;
  numComponents := numComponents toyOps;
  has_polymer_ := has_polymer_ toyOps;
  contiPolymerEqIdx := contiPolymerEqIdx toyOps;
  polymerConcentrationIdx := polymerConcentrationIdx toyOps;
  flowPhaseToEbosCompIdx := flowPhaseToEbosCompIdx toyOps;
  flowToEbosPvIdx := flowToEbosPvIdx toyOps;
  resid_sub := resid_sub toyOps;
  jac_sub := jac_sub toyOps;
  cachedIntensiveQuantities := cachedIntensiveQuantities toyOps;
  getMobility := getMobility toyOps;
  wpolymer := wpolymer toyOps;
  polymerMix := polymerMix toyOps;
  well_perforation_efficiency_factors_ := well_perforation_efficiency_factors_ toyOps;
  well_perforation_pressure_diffs_ := well_perforation_pressure_diffs_ toyOps;
  F0_ := F0_ toyOps;
  wellSurfaceVolumeFraction := wellSurfaceVolumeFraction toyOps;
  bhp_from_thp := bhp_from_thp toyOps;
  getQs := getQs toyOps;
  invert := invert toyOps;
  B_avg := B_avg toyOps;
  comm_max := comm_max toyOps;
  tolerance_wells_ := 1;
  max_residual_allowed_ := max_residual_allowed_ toyOps;
  groupTargetConverged := groupTargetConverged toyOps
|}.

Definition zeroBlock : FieldMatrix := [[0; 0; 0]; [0; 0; 0]; [0; 0; 0]].

Definition toySys : Sys unit Z := {|
  lin := 0%Z;
  well_state := WellExample.toyWellState;
  wells := WellExample.toyWells;
  coll := tt;
  wellVariables_ :=
    setWellVariables toyOps WellExample.toyWells WellExample.toyWellState
                     (repeat (Eval.const 0) 6);
  duneB_ := [[(0%nat, zeroBlock)]; [(1%nat, zeroBlock)]];
  duneC_ := [[(0%nat, zeroBlock)]; [(1%nat, zeroBlock)]];
  invDuneD_ := [[(0%nat, zeroBlock)]; [(1%nat, zeroBlock)]];
  duneD_ := [[(0%nat, zeroBlock)]; [(1%nat, zeroBlock)]];
  resWell_ := [[0; 0; 0]; [0; 0; 0]]
|}.

End WellSolveExample.

(** A run of [nonlinearIteration] that passes the convergence test: one
    cell with a zero residual, the two wells of [WellExample] with the
    well state update of the well model, and a grid simulator that counts
    its linearizations. *)
Module NewtonExample.
Import NonlinearIteration.

Definition toyConvModel : Convergence.Model := {|
  Convergence.numPhases := 3;
  Convergence.numComponents := 3;
  Convergence.has_solvent_ := false;
  Convergence.has_polymer_ := false;
  Convergence.contiSolventEqIdx := 3;
  Convergence.contiPolymerEqIdx := 4;
  Convergence.waterPhaseIdx := 0;
  Convergence.flowPhaseToEbosPhaseIdx := fun p => p;
  Convergence.flowPhaseToEbosCompIdx := fun p => p;
  Convergence.global_nc_ := 1;
  Convergence.tolerance_mb_ := 1 # 1000000;
  Convergence.tolerance_cnv_ := 1 # 100;
  Convergence.tolerance_wells_ := 1 # 10000;
  Convergence.max_strict_iter_ := 8;
  Convergence.max_residual_allowed_ := 10000000;
  Convergence.comm := Convergence.mkComm 1 (fun v => v) (fun v => v)
|}.

Definition toyOps : Ops (RS := list Q) (WS := WellState) (Ebos := Z) (WM := unit)
                        (Timer := Q) := {|
  currentStepLength := fun t => t;
  numEq := 3;
  numCells := 9;
  numWells := fun _ => 2%nat;
  assemble := fun _ _ _ ws e wm => (Ok (mkReport true 0 0 0 0), ws, e, wm);
  conv_model := toyConvModel;
  conv_cells := fun _ => [Convergence.mkConvCell 1 [1; 1; 1] [0; 0; 0] 1];
  well_residual := fun _ => [0; 0; 0; 0; 0; 0];
  minIter := 0;
  groupControlActive := fun _ => false;
  groupTargetConverged := fun _ _ => true;
  solveJacobianSystem := fun _ _ => (Ok (zeroBVector 9 3, zeroBVector 2 3), 1%Z);
  detectOscillations := fun _ _ => (false, false);
  relaxIncrement := 1 # 10;
  relaxMax := 1 # 2;
  stabilizeNonlinearUpdate := fun x _ _ => (x, x);
  updateState := fun dx rs => imap (fun i p => p - vget (default [] (dx !! i)) 0) rs;
  updateWellState := fun dw ws =>
    WellModel.updateWellState WellExample.toyModel WellExample.toyWells dw ws;
  convertInput := fun _ _ e => e;
  invalidateIntensiveQuantitiesCache := fun e => e;
  linearize := fun e => (e + 1)%Z;
  convertResults := fun e => e;
  wm_assemble := fun e _ _ ws wm => (Ok emptyReport, e, ws, wm)
|}.

(** The same collaborators with an assembly that throws. *)
Definition failingOps : Ops (RS := list Q) (WS := WellState) (Ebos := Z) (WM := unit)
                            (Timer := Q) := {|
  currentStepLength := currentStepLength toyOps;
  numEq := numEq toyOps;
  numCells := numCells toyOps;
  numWells := numWells toyOps;
  assemble := fun _ _ _ ws e wm => (Throw LinearSolverProblem, ws, e, wm);
  conv_model := conv_model toyOps;
  conv_cells := conv_cells toyOps;
  well_residual := well_residual toyOps;
  minIter := minIter toyOps;
  groupControlActive := groupControlActive toyOps;
  groupTargetConverged := groupTargetConverged toyOps;
  solveJacobianSystem := solveJacobianSystem toyOps;
  detectOscillations := detectOscillations toyOps;
  relaxIncrement := relaxIncrement toyOps;
  relaxMax := relaxMax toyOps;
  stabilizeNonlinearUpdate := stabilizeNonlinearUpdate toyOps;
  updateState := updateState toyOps;
  updateWellState := updateWellState toyOps;
  convertInput := convertInput toyOps;
  invalidateIntensiveQuantitiesCache := invalidateIntensiveQuantitiesCache toyOps;
  linearize := linearize toyOps;
  convertResults := convertResults toyOps;
  wm_assemble := wm_assemble toyOps
|}.

Definition toyWorld : World (RS := list Q) (WS := WellState) (Ebos := Z) (WM := unit) :=
  mkWorld [200; 200; 200; 200; 200; 200; 200; 200; 200] WellExample.toyWellState
          0%Z tt [] 1 (zeroBVector 9 3) emptyReport.

End NewtonExample.
(* ===================================================================== *)
(** * Part II: properties                                                 *)
(* ===================================================================== *)

(** ** Scalars *)

Lemma Qltb_lt (x y : Q) : Qltb x y = true <-> x < y.
Proof.
  unfold Qltb. rewrite negb_true_iff. split.
  - intros H. apply Qnot_le_lt. intros Hle.
    apply Qle_bool_iff in Hle. congruence.
  - intros H. destruct (Qle_bool y x) eqn:E; [|reflexivity].
    apply Qle_bool_iff in E. lra.
Qed.

Lemma Qltb_ge (x y : Q) : Qltb x y = false <-> y <= x.
Proof.
  unfold Qltb. rewrite negb_false_iff. apply Qle_bool_iff.
Qed.

(** ** AdaptiveTimeStepping::stepImpl *)

Section StepImplFacts.
Import AdaptiveTimeStepping.
Context {Solver State WState Timer : Type}.
Variable T : TimerOps Timer.
Variable S : SolverOps Solver State WState Timer.
Variable P : Params.

Lemma try_step_failed (l : Loop) sv st wst res :
  step S (solver l) (substepTimer l) (state l) (well_state l) = (sv, st, wst, res) ->
  failed_result res = true ->
  exists substepReport rep,
    try_step S l = (sv, st, wst, substepReport, rep, None) /\
    converged substepReport = false.
Proof.
  intros Hstep Hfail. unfold try_step. rewrite Hstep.
  destruct res as [r|e]; simpl in Hfail.
  - exists r, (report_add (report l) r). split; [reflexivity|].
    now apply negb_true_iff.
  - rewrite Hfail. eexists _, _. split; reflexivity.
Qed.

Lemma substep_escaped_not_caught (l l' : Loop) e :
  substep T S P l = Escaped e l' -> caught e = false.
Proof.
  unfold substep, try_step.
  destruct (step S (solver l) (substepTimer l) (state l) (well_state l))
    as [[[sv st] wst] res].
  destruct res as [r|e0].
  - destruct (converged r); [discriminate|].
    unfold on_failure. destruct (_ <=? _)%Z; discriminate.
  - destruct (caught e0) eqn:Hc.
    + simpl. unfold on_failure. destruct (_ <=? _)%Z; discriminate.
    + intros H. inversion H. subst. exact Hc.
Qed.

Lemma substep_loop_escaped_not_caught fuel : forall (l l' : Loop) e,
  substep_loop T S P fuel l = Some (Escaped e l') -> caught e = false.
Proof.
  induction fuel as [|fuel IH]; intros l l' e; simpl.
  - destruct (done T (substepTimer l)); discriminate.
  - destruct (done T (substepTimer l)); [discriminate|].
    destruct (substep T S P l) as [l1|l1|e1 l1] eqn:Hs.
    + apply IH.
    + discriminate.
    + intros H. inversion H. subst.
      eapply substep_escaped_not_caught; eassumption.
Qed.

End StepImplFacts.

(** C4.  When the sub step solve fails (the solver throws an exception that
    has a handler, or returns a report that is not converged), one pass of
    the loop body of [stepImpl] either
    - throws the fatal NumericalProblem, exactly when this failure brings
      the number of consecutive failures [restarts + 1] above
      [solver_restart_max_] (the test [restarts >= solver_restart_max_]), or
    - resets [state] and [well_state] to the last good copies, hands
      [restart_factor_ * dt] to the timer as the next step length and
      increments [restarts].
    No exception that has a handler leaves the sub step loop. *)
Theorem stepImpl_failure_policy
  {Solver State WState Timer : Type}
  (T : AdaptiveTimeStepping.TimerOps Timer)
  (S : AdaptiveTimeStepping.SolverOps Solver State WState Timer)
  (P : AdaptiveTimeStepping.Params)
  (l : AdaptiveTimeStepping.Loop) sv st wst res
  (Hstep : AdaptiveTimeStepping.step S
             (AdaptiveTimeStepping.solver l) (AdaptiveTimeStepping.substepTimer l)
             (AdaptiveTimeStepping.state l) (AdaptiveTimeStepping.well_state l)
           = (sv, st, wst, res))
  (Hfail : AdaptiveTimeStepping.failed_result res = true) :
  let dt := AdaptiveTimeStepping.currentStepLength T (AdaptiveTimeStepping.substepTimer l) in
  (if (AdaptiveTimeStepping.restarts l + 1 >? AdaptiveTimeStepping.solver_restart_max_ P)%Z
   then exists l', AdaptiveTimeStepping.substep T S P l = AdaptiveTimeStepping.Fatal l'
   else exists l',
       AdaptiveTimeStepping.substep T S P l = AdaptiveTimeStepping.Next l' /\
       AdaptiveTimeStepping.state l' = AdaptiveTimeStepping.last_state l /\
       AdaptiveTimeStepping.well_state l' = AdaptiveTimeStepping.last_well_state l /\
       AdaptiveTimeStepping.last_state l' = AdaptiveTimeStepping.last_state l /\
       AdaptiveTimeStepping.last_well_state l' = AdaptiveTimeStepping.last_well_state l /\
       AdaptiveTimeStepping.substepTimer l' =
         AdaptiveTimeStepping.provideTimeStepEstimate T
           (AdaptiveTimeStepping.restart_factor_ P * dt)
           (AdaptiveTimeStepping.setLastStepFailed T true (AdaptiveTimeStepping.substepTimer l)) /\
       AdaptiveTimeStepping.restarts l' = (AdaptiveTimeStepping.restarts l + 1)%Z)
  /\ (forall fuel l0 e l',
        AdaptiveTimeStepping.substep_loop T S P fuel l0
          = Some (AdaptiveTimeStepping.Escaped e l') ->
        AdaptiveTimeStepping.caught e = false).
Proof.
  intros dt. split.
  - destruct (try_step_failed S l sv st wst res Hstep Hfail)
      as (substepReport & rep & Htry & Hconv).
    unfold AdaptiveTimeStepping.substep. rewrite Htry, Hconv.
    unfold AdaptiveTimeStepping.on_failure.
    destruct (AdaptiveTimeStepping.restarts l + 1 >?
              AdaptiveTimeStepping.solver_restart_max_ P)%Z eqn:Hgt.
    + assert (Hle : (AdaptiveTimeStepping.solver_restart_max_ P <=?
                     AdaptiveTimeStepping.restarts l)%Z = true) by lia.
      rewrite Hle. eexists. reflexivity.
    + assert (Hle : (AdaptiveTimeStepping.solver_restart_max_ P <=?
                     AdaptiveTimeStepping.restarts l)%Z = false) by lia.
      rewrite Hle. eexists. split; [reflexivity|]. simpl. repeat split.
  - intros fuel l0 e l'. apply substep_loop_escaped_not_caught.
Qed.

(** The toy solver throws TooManyIterations on its first call: the state is
    reset, and the next step is 0.33 * 9.9 days. *)
Lemma stepImpl_failure_policy_witness :
  AdaptiveTimeStepping.failed_result (Throw TooManyIterations) = true /\
  exists l',
    AdaptiveTimeStepping.substep AdaptiveExample.toyTimerOps AdaptiveExample.toySolverOps
      AdaptiveExample.toyParams AdaptiveExample.toyLoop = AdaptiveTimeStepping.Next l' /\
    AdaptiveTimeStepping.state l' = 5%Z /\
    AdaptiveTimeStepping.well_state l' = 6%Z /\
    AdaptiveTimeStepping.restarts l' = 1%Z.
Proof.
  split; [reflexivity|].
  destruct (stepImpl_failure_policy AdaptiveExample.toyTimerOps AdaptiveExample.toySolverOps
              AdaptiveExample.toyParams AdaptiveExample.toyLoop
              1%nat 105%Z 106%Z (Throw TooManyIterations) eq_refl eq_refl)
    as [[l' (Hs & H1 & H2 & _ & _ & _ & H3)] _].
  exists l'. repeat split; assumption.
Defined.

(** ** StandardWellsDense: cross flow *)

Section CrossFlow.
Import WellFlux.
Variable m : WellModel.
Variable w : nat.

Lemma all_cross_flow_spec (perfs : list nat) :
  all_cross_flow m w perfs = true <->
  forall perf, In perf perfs -> ~ flows_as_declared m w perf.
Proof.
  unfold flows_as_declared.
  induction perfs as [|p rest IH]; cbn [all_cross_flow In].
  - split; [intros _ perf []|reflexivity].
  - destruct (wtype (wells m) w) eqn:Ht.
    + destruct (Qltb (value (perf_drawdown m w p)) 0) eqn:E; cbn [andb].
      * split; [discriminate|]. intros H. exfalso.
        apply (H p); [now left|]. now apply Qltb_lt.
      * rewrite andb_false_r, IH. split.
        -- intros H perf [<-|Hin]; [|now apply H].
           apply Qltb_ge in E. lra.
        -- intros H perf Hin. apply H. now right.
    + destruct (Qltb 0 (value (perf_drawdown m w p))) eqn:E; cbn [andb].
      * rewrite andb_false_r. split; [discriminate|]. intros H. exfalso.
        apply (H p); [now left|]. now apply Qltb_lt.
      * rewrite andb_false_r, IH. split.
        -- intros H perf [<-|Hin]; [|now apply H].
           apply Qltb_ge in E. lra.
        -- intros H perf Hin. apply H. now right.
Qed.

Lemma computeWellFlux_allowed Tw iq mob b cdp cq_s :
  computeWellFlux m w Tw iq mob b cdp true cq_s =
  let dd := drawdown (pressure_oil iq) b cdp in
  if Qltb 0 (value dd) then Ok (producing_rates m Tw iq mob dd cq_s)
  else injecting_rates m w Tw iq mob dd cq_s.
Proof.
  unfold computeWellFlux. simpl. destruct (Qltb 0 _); reflexivity.
Qed.

End CrossFlow.

(** C10.  For a well whose declared allow-cross-flow flag is false,
    [allow_cross_flow(w)] returns true exactly when no perforation of the
    well flows in the declared direction of the well (no negative drawdown
    for an injector, no positive drawdown for a producer); and whenever it
    returns true, [computeWellFlux] takes neither of its early returns for
    the perforations of the well: every perforation gets the producing or
    the injecting formula, as selected by the sign of its drawdown. *)
Theorem allow_cross_flow_when_all_perforations_cross
  (m : WellFlux.WellModel) (w : nat)
  (Hdeclared : default false (allow_cf (WellFlux.wells m) !! w) = false) :
  (WellFlux.allow_cross_flow m w = true <->
   forall perf, In perf (WellFlux.perforations (WellFlux.wells m) w) ->
     match wtype (WellFlux.wells m) w with
     | INJECTOR => ~ value (WellFlux.perf_drawdown m w perf) < 0
     | PRODUCER => ~ 0 < value (WellFlux.perf_drawdown m w perf)
     end)
  /\
  (WellFlux.allow_cross_flow m w = true ->
   forall perf,
     WellFlux.perforation_flux m w perf =
     let iq := WellFlux.cachedIntensiveQuantities m (cell_of (WellFlux.wells m) perf) in
     let dd := WellFlux.perf_drawdown m w perf in
     let zero := repeat (Eval.const 0) (WellFlux.numComponents m) in
     if Qltb 0 (value dd)
     then Ok (WellFlux.producing_rates m (vget (WI (WellFlux.wells m)) perf) iq
                (WellFlux.getMobility m w perf) dd zero)
     else WellFlux.injecting_rates m w (vget (WI (WellFlux.wells m)) perf) iq
                (WellFlux.getMobility m w perf) dd zero).
Proof.
  split.
  - unfold WellFlux.allow_cross_flow. rewrite Hdeclared.
    rewrite all_cross_flow_spec. unfold WellFlux.flows_as_declared.
    split; intros H perf Hin; specialize (H perf Hin);
      destruct (wtype (WellFlux.wells m) w); exact H.
  - intros Hallow perf. unfold WellFlux.perforation_flux.
    rewrite Hallow. apply computeWellFlux_allowed.
Qed.

(** The injector of the example: both perforations have a positive
    drawdown, so the well is treated as if cross flow were allowed. *)
Lemma allow_cross_flow_when_all_perforations_cross_witness :
  default false (allow_cf (WellFlux.wells CrossFlowExample.toyModel) !! 0%nat) = false /\
  WellFlux.allow_cross_flow CrossFlowExample.toyModel 0 = true.
Proof.
  split; [reflexivity|].
  apply (proj1 (allow_cross_flow_when_all_perforations_cross
                  CrossFlowExample.toyModel 0%nat eq_refl)).
  intros perf [<-|[<-|[]]]; intros H; vm_compute in H; discriminate.
Defined.

(** ** std::max, std::min, std::abs *)

Lemma std_max_l (a b : Q) : a <= std_max a b.
Proof.
  unfold std_max. destruct (Qltb a b) eqn:E; [|lra].
  apply Qltb_lt in E. lra.
Qed.

Lemma std_max_r (a b : Q) : b <= std_max a b.
Proof.
  unfold std_max. destruct (Qltb a b) eqn:E; [lra|].
  now apply Qltb_ge in E.
Qed.

Lemma std_min_l (a b : Q) : std_min a b <= a.
Proof.
  unfold std_min. destruct (Qltb b a) eqn:E; [|lra].
  apply Qltb_lt in E. lra.
Qed.

Lemma std_min_r (a b : Q) : std_min a b <= b.
Proof.
  unfold std_min. destruct (Qltb b a) eqn:E; [lra|].
  now apply Qltb_ge in E.
Qed.

Lemma std_min_glb (a b c : Q) : c <= a -> c <= b -> c <= std_min a b.
Proof. intros Ha Hb. unfold std_min. destruct (Qltb b a); assumption. Qed.

Lemma std_min_Qmin (a b : Q) : std_min a b == Qmin b a.
Proof.
  unfold std_min. destruct (Qltb b a) eqn:E.
  - apply Qltb_lt in E. symmetry. apply Q.min_l. lra.
  - apply Qltb_ge in E. symmetry. apply Q.min_r. lra.
Qed.

Lemma sign_of_cases (d : Q) :
  (0 < d /\ sign_of d = 1) \/ (d <= 0 /\ sign_of d = -1).
Proof.
  unfold sign_of. destruct (Qltb 0 d) eqn:E.
  - left. split; [now apply Qltb_lt|reflexivity].
  - right. split; [now apply Qltb_ge|reflexivity].
Qed.

(** ** BlackoilModelEbos::updateState: the Appleyard chop *)

Section Chop.
Import UpdateState.
Variable m : Model.
Variable dxc : list Q.
Variable c : Cell.

Lemma maxVal_bounds :
  Qabs (dsw m dxc) <= maxVal m dxc c /\
  Qabs (dsg m dxc c) <= maxVal m dxc c /\
  Qabs (dss m dxc) <= maxVal m dxc c /\
  0 <= maxVal m dxc c.
Proof.
  unfold maxVal.
  pose proof (std_max_l (Qabs (dss m dxc))
                (std_max (Qabs (dsg m dxc c)) (std_max (Qabs (dsw m dxc)) 0))).
  pose proof (std_max_r (Qabs (dss m dxc))
                (std_max (Qabs (dsg m dxc c)) (std_max (Qabs (dsw m dxc)) 0))).
  pose proof (std_max_l (Qabs (dsg m dxc c)) (std_max (Qabs (dsw m dxc)) 0)).
  pose proof (std_max_r (Qabs (dsg m dxc c)) (std_max (Qabs (dsw m dxc)) 0)).
  pose proof (std_max_l (Qabs (dsw m dxc)) 0).
  pose proof (std_max_r (Qabs (dsw m dxc)) 0).
  repeat split; lra.
Qed.

Hypothesis ds_max_pos : 0 < ds_max_ m.

Lemma step_range : 0 < step m dxc c /\ step m dxc c <= 1.
Proof.
  unfold step. destruct (Qeq_bool (maxVal m dxc c) 0) eqn:E; [lra|].
  apply Qeq_bool_neq in E.
  destruct maxVal_bounds as (_ & _ & _ & Hnn).
  assert (Hpos : 0 < maxVal m dxc c) by (apply Qle_lteq in Hnn; destruct Hnn as [?|Heq]; [assumption|]; exfalso; apply E; symmetry; exact Heq).
  split; [|apply std_min_r].
  assert (0 < ds_max_ m / maxVal m dxc c).
  { apply Qlt_shift_div_l; [assumption|lra]. }
  unfold std_min. destruct (Qltb 1 _); lra.
Qed.

Lemma step_times_le (d : Q) :
  Qabs d <= maxVal m dxc c -> Qabs (step m dxc c * d) <= ds_max_ m.
Proof.
  intros Hd. rewrite Qabs_Qmult.
  destruct step_range as [Hs0 Hs1].
  rewrite (Qabs_pos (step m dxc c)) by lra.
  unfold step in *. destruct (Qeq_bool (maxVal m dxc c) 0) eqn:E.
  - apply Qeq_bool_iff in E. pose proof (Qabs_nonneg d). 
    assert (Qabs d == 0) by lra. rewrite H0. lra.
  - apply Qeq_bool_neq in E.
    destruct maxVal_bounds as (_ & _ & _ & Hnn).
    assert (Hpos : 0 < maxVal m dxc c) by (apply Qle_lteq in Hnn; destruct Hnn as [?|Heq]; [assumption|]; exfalso; apply E; symmetry; exact Heq).
    pose proof (std_min_l (ds_max_ m / maxVal m dxc c) 1) as Hle.
    apply Qle_trans with (std_min (ds_max_ m / maxVal m dxc c) 1 * maxVal m dxc c).
    + apply Qmult_le_l; [assumption|assumption].
    + apply Qle_trans with (ds_max_ m / maxVal m dxc c * maxVal m dxc c).
      * apply Qmult_le_compat_r; [assumption|lra].
      * assert (ds_max_ m / maxVal m dxc c * maxVal m dxc c == ds_max_ m) as ->
            by (field; exact E).
        lra.
Qed.

End Chop.

Lemma new_pressure_nonneg (m : UpdateState.Model) dxc c :
  0 <= UpdateState.pressure (UpdateState.chopCell m dxc c).
Proof. simpl. unfold UpdateState.new_pressure. apply std_max_r. Qed.

Lemma new_pressure_clamped (m : UpdateState.Model) dxc c :
  0 <= UpdateState.pressure c -> 0 <= UpdateState.dp_max_rel_ m ->
  Qabs (UpdateState.new_pressure m dxc c - UpdateState.pressure c)
  <= UpdateState.dp_max_rel_ m * Qabs (UpdateState.pressure c).
Proof.
  intros Hp Hrel. unfold UpdateState.new_pressure.
  set (dp := vget dxc _). set (p := UpdateState.pressure c) in *.
  set (rel := UpdateState.dp_max_rel_ m) in *.
  pose proof (Qabs_pos p Hp) as Hap.
  pose proof (std_min_l (Qabs dp) (Qabs p * rel)) as Hl.
  pose proof (std_min_r (Qabs dp) (Qabs p * rel)) as Hr.
  assert (Hmn : 0 <= std_min (Qabs dp) (Qabs p * rel)).
  { apply std_min_glb; [apply Qabs_nonneg|].
    apply Qmult_le_0_compat; [apply Qabs_nonneg|assumption]. }
  set (mn := std_min (Qabs dp) (Qabs p * rel)) in *.
  assert (Hprod : Qabs p * rel == p * rel) by (rewrite Hap; reflexivity).
  assert (Hprod' : rel * Qabs p == p * rel) by (rewrite Hap; ring).
  rewrite Hprod'. rewrite Hprod in Hr.
  apply Qabs_Qle_condition.
  unfold std_max.
  destruct (sign_of_cases dp) as [[_ ->]|[_ ->]];
    destruct (Qltb _ 0) eqn:E;
    try (apply Qltb_lt in E); try (apply Qltb_ge in E); split; lra.
Qed.

Lemma switchCell_sw (m : UpdateState.Model) c :
  UpdateState.sw (UpdateState.switchCell m c) = UpdateState.sw c /\
  UpdateState.ssol (UpdateState.switchCell m c) = UpdateState.ssol c /\
  UpdateState.pressure (UpdateState.switchCell m c) = UpdateState.pressure c.
Proof.
  unfold UpdateState.switchCell.
  destruct (UpdateState.hydroCarbonState c);
    repeat match goal with
           | |- context [if ?b then _ else _] => destruct b
           end; repeat split.
Qed.

(** C3, as amended.  With [ds_max > 0], the Appleyard chop of a cell uses
    one scalar [step] in (0, 1], equal to [min(1, ds_max / maxVal)] where
    [maxVal = max(|dsw|, |dsg|, |dss|)] (and to 1 when [maxVal] is zero), and
    subtracts [step] times the raw update from the water, gas, solvent and
    derived oil saturation.  The chopped water, gas and solvent updates are
    at most [ds_max] in absolute value; the water and solvent saturations
    are not touched again, so they change by at most [ds_max] over the
    whole of [updateState]; the oil update is the negated sum of the three.
    The updated pressure is never negative and, for a pressure that was not
    negative and [dp_max_rel >= 0], differs from the old one by at most
    [dp_max_rel * |p|]. *)
Theorem updateState_appleyard_chop
  (m : UpdateState.Model) (dxc : list Q) (c : UpdateState.Cell)
  (ds_max_pos : 0 < UpdateState.ds_max_ m) :
  let st := UpdateState.step m dxc c in
  let mv := UpdateState.maxVal m dxc c in
  let c1 := UpdateState.chopCell m dxc c in
  let c' := UpdateState.updateCell m dxc c in
  (0 < st /\ st <= 1) /\
  (mv == 0 -> st == 1) /\
  (~ mv == 0 -> st == Qmin 1 (UpdateState.ds_max_ m / mv)) /\
  (Qabs (UpdateState.dsw m dxc) <= mv /\ Qabs (UpdateState.dsg m dxc c) <= mv /\
   Qabs (UpdateState.dss m dxc) <= mv) /\
  UpdateState.sw c1 == UpdateState.sw c - st * UpdateState.dsw m dxc /\
  UpdateState.sg c1 ==
    UpdateState.sg c - (if UpdateState.active_Gas m then st * UpdateState.dsg m dxc c else 0) /\
  UpdateState.ssol c1 == UpdateState.ssol c - st * UpdateState.dss m dxc /\
  UpdateState.so c1 ==
    UpdateState.so c
    + st * (UpdateState.dsw m dxc + UpdateState.dsg m dxc c + UpdateState.dss m dxc) /\
  (Qabs (st * UpdateState.dsw m dxc) <= UpdateState.ds_max_ m /\
   Qabs (st * UpdateState.dsg m dxc c) <= UpdateState.ds_max_ m /\
   Qabs (st * UpdateState.dss m dxc) <= UpdateState.ds_max_ m) /\
  (Qabs (UpdateState.sw c' - UpdateState.sw c) <= UpdateState.ds_max_ m /\
   Qabs (UpdateState.ssol c' - UpdateState.ssol c) <= UpdateState.ds_max_ m) /\
  0 <= UpdateState.pressure c' /\
  (0 <= UpdateState.pressure c -> 0 <= UpdateState.dp_max_rel_ m ->
   Qabs (UpdateState.pressure c' - UpdateState.pressure c)
   <= UpdateState.dp_max_rel_ m * Qabs (UpdateState.pressure c)).
Proof.
  intros st mv c1 c'.
  destruct (maxVal_bounds m dxc c) as (Hw & Hg & Hs & Hnn).
  pose proof (step_range m dxc c ds_max_pos) as Hrange.
  pose proof (step_times_le m dxc c ds_max_pos _ Hw) as Bw.
  pose proof (step_times_le m dxc c ds_max_pos _ Hg) as Bg.
  pose proof (step_times_le m dxc c ds_max_pos _ Hs) as Bs.
  fold st mv in Hw, Hg, Hs, Hnn, Hrange, Bw, Bg, Bs.
  assert (Esw : UpdateState.sw c1 == UpdateState.sw c - st * UpdateState.dsw m dxc).
  { subst c1. simpl. fold st. unfold UpdateState.dsw.
    destruct (UpdateState.active_Water m); lra. }
  assert (Ess : UpdateState.ssol c1 == UpdateState.ssol c - st * UpdateState.dss m dxc).
  { subst c1. simpl. fold st. unfold UpdateState.dss.
    destruct (UpdateState.has_solvent_ m); lra. }
  assert (Hsame : UpdateState.sw c' = UpdateState.sw c1 /\
                  UpdateState.ssol c' = UpdateState.ssol c1 /\
                  UpdateState.pressure c' = UpdateState.pressure c1).
  { subst c'. unfold UpdateState.updateCell. fold c1.
    destruct (_ && _); [apply switchCell_sw|repeat split]. }
  destruct Hsame as (Hsw' & Hss' & Hp').
  repeat split.
  - apply Hrange.
  - apply Hrange.
  - intros H0. subst st. unfold UpdateState.step. fold mv.
    apply Qeq_bool_iff in H0. rewrite H0. reflexivity.
  - intros Hne. subst st. unfold UpdateState.step. fold mv.
    destruct (Qeq_bool mv 0) eqn:E; [apply Qeq_bool_iff in E; contradiction|].
    apply std_min_Qmin.
  - exact Hw.
  - exact Hg.
  - exact Hs.
  - exact Esw.
  - subst c1. simpl. fold st. destruct (UpdateState.active_Gas m); lra.
  - exact Ess.
  - subst c1. simpl. fold st. unfold UpdateState.dso. lra.
  - exact Bw.
  - exact Bg.
  - exact Bs.
  - rewrite Hsw'.
    assert (UpdateState.sw c1 - UpdateState.sw c == - (st * UpdateState.dsw m dxc)) as -> by lra.
    rewrite Qabs_opp. exact Bw.
  - rewrite Hss'.
    assert (UpdateState.ssol c1 - UpdateState.ssol c == - (st * UpdateState.dss m dxc)) as -> by lra.
    rewrite Qabs_opp. exact Bs.
  - rewrite Hp'. apply new_pressure_nonneg.
  - intros Hp Hrel. rewrite Hp'. subst c1. simpl.
    apply new_pressure_clamped; assumption.
Qed.

Lemma updateState_appleyard_chop_witness :
  0 < UpdateState.ds_max_ UpdateStateExample.toyModel /\
  (0 < UpdateState.step UpdateStateExample.toyModel UpdateStateExample.gasUpdate
         UpdateStateExample.gasCell /\
   UpdateState.step UpdateStateExample.toyModel UpdateStateExample.gasUpdate
         UpdateStateExample.gasCell <= 1).
Proof.
  split; [reflexivity|].
  apply (proj1 (updateState_appleyard_chop UpdateStateExample.toyModel
                  UpdateStateExample.gasUpdate UpdateStateExample.gasCell eq_refl)).
Defined.

(** C3 as stated fails: in the example the chop moves water and solvent up
    by [ds_max = 0.2] and gas down by 0.2, which leaves the oil saturation
    at -0.2; the switch to the gas-only state then resets so to 0 and sg to
    [1 - sw - ss = 0.2].  The gas saturation has moved from 0.6 to 0.2,
    twice [ds_max]. *)
Lemma updateState_gas_saturation_exceeds_ds_max :
  0 < UpdateState.ds_max_ UpdateStateExample.toyModel /\
  UpdateState.sg UpdateStateExample.gasCell == 6 # 10 /\
  UpdateState.sg (UpdateState.updateCell UpdateStateExample.toyModel
                    UpdateStateExample.gasUpdate UpdateStateExample.gasCell) == 2 # 10 /\
  ~ Qabs (UpdateState.sg (UpdateState.updateCell UpdateStateExample.toyModel
                            UpdateStateExample.gasUpdate UpdateStateExample.gasCell)
          - UpdateState.sg UpdateStateExample.gasCell)
    <= UpdateState.ds_max_ UpdateStateExample.toyModel.
Proof.
  split; [reflexivity|]. split; [reflexivity|]. split; [reflexivity|].
  intros H. vm_compute in H. apply H. reflexivity.
Qed.

(** The derived oil saturation is not bounded by [ds_max] either: with
    [dsw = dsg = 0.2] it moves by 0.4. *)
Example updateState_oil_saturation_moves_by_the_sum :
  let c := UpdateState.mkCell 200 (4 # 10) (2 # 10) (4 # 10) 100 0
             UpdateState.GasAndOil 0 0 300 0 in
  UpdateState.so (UpdateState.updateCell UpdateStateExample.toyModel
                    [2 # 10; 0; 2 # 10; 0] c) == 6 # 10.
Proof. reflexivity. Qed.

(** ** BlackoilModelEbos::updateState: the switch out of OilOnly *)

(** C9, as amended.  For a cell in state OilOnly, with gas and oil active
    and the updated water saturation not above [1 - epsilon], the switch
    compares the updated Rs with [rsSat * (1 + epsilon)], epsilon being the
    constant 1e-4: above it, the tag becomes GasAndOil, Sg is set to
    epsilon, So is reduced by epsilon and Rs is reset to rsSat; otherwise
    the cell stays as the chop left it, tag OilOnly included.  The updated
    Rs is [max(rs - dxvar, 0)] when dissolved gas is enabled. *)
Theorem updateState_OilOnly_to_GasAndOil
  (m : UpdateState.Model) (dxc : list Q) (c : UpdateState.Cell)
  (Hgas : UpdateState.active_Gas m = true)
  (Hoil : UpdateState.active_Oil m = true)
  (Htag : UpdateState.hydroCarbonState c = UpdateState.OilOnly) :
  let c1 := UpdateState.chopCell m dxc c in
  let c' := UpdateState.updateCell m dxc c in
  let rsSat := UpdateState.saturatedGasDissolutionFactor m
                 (UpdateState.pvtRegionIndex c) (UpdateState.temperature c)
                 (UpdateState.pressure c1) in
  UpdateState.gasoilratio c1 =
    (if UpdateState.has_disgas_ m
     then std_max (UpdateState.gasoilratio c - UpdateState.dxvar m dxc) 0
     else UpdateState.gasoilratio c) /\
  (UpdateState.sw c1 <= 1 - UpdateState.epsilon ->
   (rsSat * (1 + UpdateState.epsilon) < UpdateState.gasoilratio c1 ->
    UpdateState.hydroCarbonState c' = UpdateState.GasAndOil /\
    UpdateState.sg c' = UpdateState.epsilon /\
    UpdateState.so c' = UpdateState.so c1 - UpdateState.epsilon /\
    UpdateState.gasoilratio c' = rsSat /\
    UpdateState.sw c' = UpdateState.sw c1 /\
    UpdateState.rv c' = UpdateState.rv c1) /\
   (UpdateState.gasoilratio c1 <= rsSat * (1 + UpdateState.epsilon) ->
    c' = c1 /\ UpdateState.hydroCarbonState c' = UpdateState.OilOnly)).
Proof.
  intros c1 c' rsSat. split.
  - subst c1. cbn [UpdateState.chopCell UpdateState.gasoilratio].
    unfold UpdateState.drs. rewrite Hgas, Hoil, Htag. cbn [andb].
    destruct (UpdateState.has_disgas_ m); reflexivity.
  - intros Hsw.
    assert (Ec' : c' = UpdateState.switchCell m c1).
    { subst c'. unfold UpdateState.updateCell. rewrite Hgas, Hoil. reflexivity. }
    assert (Etag : UpdateState.hydroCarbonState c1 = UpdateState.OilOnly) by exact Htag.
    assert (Ewater : Qltb (1 - UpdateState.epsilon) (UpdateState.sw c1) = false)
      by (apply Qltb_ge; exact Hsw).
    rewrite Ec'. unfold UpdateState.switchCell. rewrite Etag, Ewater.
    change (UpdateState.saturatedGasDissolutionFactor m (UpdateState.pvtRegionIndex c1)
              (UpdateState.temperature c1) (UpdateState.pressure c1)) with rsSat.
    split.
    + intros Hover. apply Qltb_lt in Hover. rewrite Hover. simpl. repeat split.
    + intros Hunder. apply Qltb_ge in Hunder. rewrite Hunder. split; [reflexivity|exact Etag].
Qed.

Lemma updateState_OilOnly_to_GasAndOil_witness :
  UpdateState.active_Gas UpdateStateExample.toyModel = true /\
  UpdateState.active_Oil UpdateStateExample.toyModel = true /\
  UpdateState.hydroCarbonState UpdateStateExample.oilCell = UpdateState.OilOnly /\
  UpdateState.hydroCarbonState
    (UpdateState.updateCell UpdateStateExample.toyModel
       UpdateStateExample.oilUpdateLarge UpdateStateExample.oilCell)
  = UpdateState.GasAndOil.
Proof.
  split; [reflexivity|]. split; [reflexivity|]. split; [reflexivity|].
  apply (proj2 (updateState_OilOnly_to_GasAndOil UpdateStateExample.toyModel
                  UpdateStateExample.oilUpdateLarge UpdateStateExample.oilCell
                  eq_refl eq_refl eq_refl)).
  - vm_compute. discriminate.
  - reflexivity.
Defined.

(** C9 as stated fails: in the example rsSat is 100 and the updated Rs is
    100.005, above rsSat but not above [rsSat * (1 + 1e-4) = 100.01]; the
    cell stays OilOnly and its gas saturation stays 0. *)
Lemma updateState_OilOnly_stays_within_tolerance :
  let m := UpdateStateExample.toyModel in
  let c1 := UpdateState.chopCell m UpdateStateExample.oilUpdate UpdateStateExample.oilCell in
  let c' := UpdateState.updateCell m UpdateStateExample.oilUpdate UpdateStateExample.oilCell in
  UpdateState.hydroCarbonState UpdateStateExample.oilCell = UpdateState.OilOnly /\
  UpdateState.active_Gas m = true /\ UpdateState.active_Oil m = true /\
  UpdateState.has_disgas_ m = true /\
  UpdateState.sw c1 <= 1 - UpdateState.epsilon /\
  UpdateState.saturatedGasDissolutionFactor m 0 300 (UpdateState.pressure c1)
    < UpdateState.gasoilratio c1 /\
  UpdateState.hydroCarbonState c' = UpdateState.OilOnly /\
  UpdateState.sg c' == 0.
Proof.
  cbv zeta. repeat split; try reflexivity.
  vm_compute. discriminate.
Qed.

(** ** BlackoilModelEbos::getConvergence and the convergence flag *)

Lemma fold_andb_forallb {A} (f : A -> bool) (l : list A) (init : bool) :
  fold_left (fun acc c => acc && f c) l init = init && forallb f l.
Proof.
  revert init. induction l as [|a l IH]; intros init; simpl.
  - now rewrite andb_true_r.
  - rewrite IH. now rewrite andb_assoc.
Qed.

Lemma fold_andb_below (f : nat -> bool) (n : nat) :
  fold_left (fun acc c => acc && f c) (seq 0 n) true = true <->
  forall c, (c < n)%nat -> f c = true.
Proof.
  rewrite fold_andb_forallb. simpl. rewrite forallb_forall. split.
  - intros H c Hc. apply H. apply in_seq. lia.
  - intros H c Hc. apply H. apply in_seq in Hc. lia.
Qed.

Section ConvergenceFacts.
Import Convergence.
Variable m : Model.
Variable n : Norms.
Variable dt : Q.

Lemma converged_MB_iff :
  converged_MB m n dt = true <->
  forall c, (c < numComponents m)%nat -> mass_balance_residual n dt c < tolerance_mb_ m.
Proof.
  unfold converged_MB. rewrite fold_andb_below.
  split; intros H c Hc; apply Qltb_lt; auto.
Qed.

Lemma converged_CNV_iff :
  converged_CNV m n dt = true <->
  forall c, (c < numComponents m)%nat -> CNV n dt c < tolerance_cnv_ m.
Proof.
  unfold converged_CNV. rewrite fold_andb_below.
  split; intros H c Hc; apply Qltb_lt; auto.
Qed.

Lemma converged_Well_iff :
  converged_Well m n = true <->
  forall c, (c < numComponents m)%nat -> well_flux_residual n c < tolerance_wells_ m.
Proof.
  unfold converged_Well. rewrite fold_andb_below.
  split; intros H c Hc; apply Qltb_lt; auto.
Qed.

(** The predicate of the convergence check on the norms. *)
Lemma decide_convergence_iff (iteration : Z) (b : bool) :
  decide_convergence m n dt iteration = Ok b ->
  (b = true <->
   (forall c, (c < numComponents m)%nat ->
      mass_balance_residual n dt c < tolerance_mb_ m /\
      well_flux_residual n c < tolerance_wells_ m) /\
   ((iteration < max_strict_iter_ m)%Z ->
    forall c, (c < numComponents m)%nat -> CNV n dt c < tolerance_cnv_ m)).
Proof.
  unfold decide_convergence.
  destruct (existsb _ _); [discriminate|].
  intros H. inversion H as [Hb]. clear H Hb.
  destruct (iteration <? max_strict_iter_ m)%Z eqn:Eit.
  - rewrite !andb_true_iff, converged_MB_iff, converged_Well_iff, converged_CNV_iff.
    split.
    + intros [[Hmb Hw] Hc]. split; [intros c Hlt; split; auto|intros _; exact Hc].
    + intros [Hmw Hc]. repeat split.
      * intros c Hlt. apply (Hmw c Hlt).
      * intros c Hlt. apply (Hmw c Hlt).
      * apply Hc. lia.
  - rewrite !andb_true_iff, converged_MB_iff, converged_Well_iff.
    split.
    + intros [Hmb Hw]. split; [intros c Hlt; split; auto|intros Hlt; lia].
    + intros [Hmw _]. split; intros c Hlt; apply (Hmw c Hlt).
Qed.

(** [getConvergence] returns, rather than throws, exactly when no phase has
    a residual above [max_residual_allowed_]. *)
Lemma decide_convergence_returns (iteration : Z) :
  (exists b, decide_convergence m n dt iteration = Ok b) <->
  forall p, (p < numPhases m)%nat ->
    mass_balance_residual n dt p <= max_residual_allowed_ m /\
    CNV n dt p <= max_residual_allowed_ m /\
    well_flux_residual n p <= max_residual_allowed_ m.
Proof.
  unfold decide_convergence.
  destruct (existsb (too_large m n dt) (seq 0 (numPhases m))) eqn:E.
  - split; [intros [b Hb]; discriminate|].
    intros H. exfalso. apply existsb_exists in E. destruct E as (p & Hin & Hp).
    apply in_seq in Hin. destruct (H p ltac:(lia)) as (H1 & H2 & H3).
    unfold too_large in Hp. rewrite !orb_true_iff in Hp.
    destruct Hp as [[Hp|Hp]|Hp]; apply Qltb_lt in Hp; lra.
  - split; [|intros _; eexists; reflexivity].
    intros _ p Hp.
    assert (Hnot : too_large m n dt p = false).
    { destruct (too_large m n dt p) eqn:Et; [|reflexivity].
      assert (existsb (too_large m n dt) (seq 0 (numPhases m)) = true).
      { apply existsb_exists. exists p. split; [apply in_seq; lia|exact Et]. }
      congruence. }
    unfold too_large in Hnot. rewrite !orb_false_iff in Hnot.
    destruct Hnot as [[H1 H2] H3].
    apply Qltb_ge in H1, H2, H3. repeat split; assumption.
Qed.

End ConvergenceFacts.

Section NewtonFacts.
Import NonlinearIteration.
Context {RS WS Ebos WM Timer : Type}.
Variable o : Ops (RS := RS) (WS := WS) (Ebos := Ebos) (WM := WM) (Timer := Timer).

Lemma newton_update_converged iteration report w r w' :
  newton_update o iteration report w = (Ok r, w') -> converged r = converged report.
Proof.
  unfold newton_update.
  destruct (solveJacobianSystem o (ebosSimulator_ w) (well_model_ w)) as [[[x xw]|ex] its].
  - destruct (detectOscillations o _ _) as [osc stag].
    destruct (stabilizeNonlinearUpdate o _ _ _) as [x' dx_old'].
    intros H. inversion H. reflexivity.
  - discriminate.
Qed.

Lemma converged_branch_converged iteration timer report w r w' :
  converged_branch o iteration timer report w = (Ok r, w') -> r = report.
Proof.
  unfold converged_branch. destruct (jacobian_check o _ _ _ _) as [[ex|] b].
  - discriminate.
  - intros H. inversion H. reflexivity.
Qed.

(** The flag of a returned report is the value of the convergence test on
    the state left by [assemble]. *)
Lemma nonlinearIteration_flag iteration timer w r w' :
  nonlinearIteration o iteration timer w = (Ok r, w') ->
  convergence_test o iteration timer (snd (after_assemble o iteration timer w))
  = Ok (converged r).
Proof.
  unfold nonlinearIteration.
  destruct (after_assemble o iteration timer w) as [[report|ex] w1]; [|discriminate].
  simpl snd.
  destruct (convergence_test o iteration timer w1) as [c|ex]; [|discriminate].
  destruct c.
  - intros H. apply converged_branch_converged in H. subst r. reflexivity.
  - intros H. apply newton_update_converged in H. rewrite H. reflexivity.
Qed.

End NewtonFacts.

(** C2.  For a call of [nonlinearIteration] that returns a report, on the
    norms [getConvergence] computes from the state left by [assemble] (with
    a total pore volume that is not zero), the report says converged if and
    only if: every component has its mass balance residual
    [|B_avg * R_sum| * dt / pvSum] below [tolerance_mb_] and its well flux
    residual [B_avg * maxNormWell] below [tolerance_wells_]; when the
    iteration number is below [max_strict_iter_], every component has its
    CNV [B_avg * dt * maxCoeff] below [tolerance_cnv_]; the iteration number
    exceeds [minIter()]; and, when group control is active, the group
    targets are converged.  So one residual at or above its tolerance (the
    CNV one with the iteration below [max_strict_iter_]) makes the flag
    false. *)
Theorem nonlinearIteration_converged_iff
  {RS WS Ebos WM Timer : Type}
  (o : NonlinearIteration.Ops (RS := RS) (WS := WS) (Ebos := Ebos) (WM := WM) (Timer := Timer))
  (iteration : Z) (timer : Timer) (w w' : NonlinearIteration.World) (r : SimulatorReport)
  (Hret : NonlinearIteration.nonlinearIteration o iteration timer w = (Ok r, w'))
  (Hpv : ~ Convergence.pvSum
           (NonlinearIteration.norms o
              (snd (NonlinearIteration.after_assemble o iteration timer w))) == 0) :
  let w1 := snd (NonlinearIteration.after_assemble o iteration timer w) in
  let n := NonlinearIteration.norms o w1 in
  let dt := NonlinearIteration.currentStepLength o timer in
  let m := NonlinearIteration.conv_model o in
  (converged r = true <->
   (forall c, (c < Convergence.numComponents m)%nat ->
      Convergence.mass_balance_residual n dt c < Convergence.tolerance_mb_ m /\
      Convergence.well_flux_residual n c < Convergence.tolerance_wells_ m) /\
   ((iteration < Convergence.max_strict_iter_ m)%Z ->
    forall c, (c < Convergence.numComponents m)%nat ->
      Convergence.CNV n dt c < Convergence.tolerance_cnv_ m) /\
   (NonlinearIteration.minIter o < iteration)%Z /\
   (NonlinearIteration.groupControlActive o (NonlinearIteration.well_model_ w1) = true ->
    NonlinearIteration.groupTargetConverged o (NonlinearIteration.well_model_ w1)
      (NonlinearIteration.well_state w1) = true))
  /\
  (forall c, (c < Convergence.numComponents m)%nat ->
     Convergence.tolerance_mb_ m <= Convergence.mass_balance_residual n dt c \/
     Convergence.tolerance_wells_ m <= Convergence.well_flux_residual n c \/
     ((iteration < Convergence.max_strict_iter_ m)%Z /\
      Convergence.tolerance_cnv_ m <= Convergence.CNV n dt c) ->
     converged r = false).
Proof.
  intros w1 n dt m.
  pose proof (nonlinearIteration_flag o iteration timer w r w' Hret) as Hflag.
  fold w1 in Hflag. unfold NonlinearIteration.convergence_test in Hflag.
  fold n dt m in Hflag.
  destruct (Convergence.decide_convergence m n dt iteration) as [b|ex] eqn:Hdec;
    [|discriminate].
  pose proof (decide_convergence_iff m n dt iteration b Hdec) as Hb.
  assert (Hiff :
    converged r = true <->
    b = true /\ (NonlinearIteration.minIter o < iteration)%Z /\
    (NonlinearIteration.groupControlActive o (NonlinearIteration.well_model_ w1) = true ->
     NonlinearIteration.groupTargetConverged o (NonlinearIteration.well_model_ w1)
       (NonlinearIteration.well_state w1) = true)).
  { inversion Hflag as [Hc]. clear Hflag.
    destruct (NonlinearIteration.groupControlActive o _).
    - rewrite !andb_true_iff, Z.ltb_lt. split.
      + intros [[H1 H2] H3]. auto.
      + intros (H1 & H2 & H3). auto.
    - rewrite !andb_true_iff, Z.ltb_lt. split.
      + intros [H1 H2]. repeat split; auto. discriminate.
      + intros (H1 & H2 & _). auto. }
  assert (Hmain :
    converged r = true <->
    (forall c, (c < Convergence.numComponents m)%nat ->
       Convergence.mass_balance_residual n dt c < Convergence.tolerance_mb_ m /\
       Convergence.well_flux_residual n c < Convergence.tolerance_wells_ m) /\
    ((iteration < Convergence.max_strict_iter_ m)%Z ->
     forall c, (c < Convergence.numComponents m)%nat ->
       Convergence.CNV n dt c < Convergence.tolerance_cnv_ m) /\
    (NonlinearIteration.minIter o < iteration)%Z /\
    (NonlinearIteration.groupControlActive o (NonlinearIteration.well_model_ w1) = true ->
     NonlinearIteration.groupTargetConverged o (NonlinearIteration.well_model_ w1)
       (NonlinearIteration.well_state w1) = true)).
  { rewrite Hiff, Hb. tauto. }
  split; [exact Hmain|].
  intros c Hc Hbad.
  destruct (converged r) eqn:Er; [|reflexivity].
  exfalso. destruct (proj1 Hmain eq_refl) as (Hmw & Hcnv & _).
  destruct (Hmw c Hc) as [H1 H2].
  destruct Hbad as [Hbad|[Hbad|[Hit Hbad]]]; [lra|lra|].
  specialize (Hcnv Hit c Hc). lra.
Qed.

(** ** Vectors *)

Lemma vget_insert_eq (l : list Q) (i : nat) (x : Q) :
  (i < length l)%nat -> vget (<[i := x]> l) i = x.
Proof. intros H. unfold vget. now rewrite list_lookup_insert_eq. Qed.

Lemma vget_insert_ne (l : list Q) (i j : nat) (x : Q) :
  i <> j -> vget (<[i := x]> l) j = vget l j.
Proof. intros H. unfold vget. now rewrite list_lookup_insert_ne. Qed.

Lemma vget_repeat_0 (n i : nat) : vget (repeat 0 n) i = 0.
Proof.
  unfold vget. destruct (repeat 0 n !! i) as [q|] eqn:E; [|reflexivity].
  simpl. apply list_elem_of_lookup_2 in E. apply list_elem_of_In in E.
  now apply repeat_spec in E.
Qed.

Lemma vget_ge (l : list Q) (i : nat) : (length l <= i)%nat -> vget l i = 0.
Proof. intros H. unfold vget. now rewrite lookup_ge_None_2. Qed.

(** ** StandardWellsDense::updateWellState: the fractions *)

Section Fractions.
Import WellModel.
Context {Coll : Type}.
Variable m : Model Coll.
Variable np : nat.

Let W := Water (ix m).
Let O := Oil (ix m).
Let G := Gas (ix m).

Hypothesis phases_distinct : W <> O /\ W <> G /\ O <> G.
Hypothesis oil_in_range : (O < np)%nat.
Hypothesis water_in_range : active m W = true -> (W < np)%nat.
Hypothesis gas_in_range : active m G = true -> (G < np)%nat.

Ltac vsimpl :=
  repeat first
    [ rewrite vget_insert_eq by (rewrite ?length_insert, ?repeat_length; auto; lia)
    | rewrite vget_insert_ne by (unfold W, O, G in *; intuition congruence)
    | rewrite vget_repeat_0 ].

Lemma read_fractions_ok (nw w : nat) (sol : list Q) :
  fractions_ok m np (read_fractions m nw np w sol).
Proof.
  destruct phases_distinct as (HWO & HWG & HOG).
  unfold read_fractions, fractions_ok. fold W O G.
  destruct (active m W) eqn:EW; destruct (active m G) eqn:EG;
    destruct (has_solvent_ m) eqn:ES;
    try specialize (water_in_range eq_refl); try specialize (gas_in_range eq_refl);
    cbv zeta; (split; [rewrite ?length_insert, repeat_length; reflexivity|]);
    vsimpl; repeat split; intros; try discriminate; try lra.
Qed.

Ltac sum_to_one x :=
  unfold Qdiv;
  let Hr := fresh "Hr" in
  assert (Hr : (1 - x) * / (1 - x) == 1) by (field; lra);
  let r := fresh "r" in
  set (r := / (1 - x)) in *; nra.

Lemma renorm_water_ok (FS : list Q * Q) :
  fractions_ok m np FS -> fractions_ok m np (renorm_water m FS).
Proof.
  destruct phases_distinct as (HWO & HWG & HOG).
  destruct FS as [F S]. unfold renorm_water, fractions_ok, scale_entry. fold W O G.
  intros (Hlen & Hsum & HW0 & HG0 & HS0).
  destruct (active m W) eqn:EW; [|cbn [andb]; repeat split; assumption].
  destruct (Qltb (vget F W) 0) eqn:Eneg; [|cbn [andb]; repeat split; assumption].
  cbn [andb]. apply Qltb_lt in Eneg. specialize (water_in_range eq_refl).
  destruct (active m G) eqn:EG; destruct (has_solvent_ m) eqn:ES;
    try specialize (gas_in_range eq_refl);
    try specialize (HG0 eq_refl); try specialize (HS0 eq_refl);
    (split; [rewrite ?length_insert; exact Hlen|]);
    vsimpl;
    (split; [sum_to_one (vget F W)|]);
    repeat split; intros; try discriminate; try reflexivity; assumption.
Qed.

Lemma renorm_gas_ok (FS : list Q * Q) :
  fractions_ok m np FS -> fractions_ok m np (renorm_gas m FS).
Proof.
  destruct phases_distinct as (HWO & HWG & HOG).
  destruct FS as [F S]. unfold renorm_gas, fractions_ok, scale_entry. fold W O G.
  intros (Hlen & Hsum & HW0 & HG0 & HS0).
  destruct (active m G) eqn:EG; [|cbn [andb]; repeat split; assumption].
  destruct (Qltb (vget F G) 0) eqn:Eneg; [|cbn [andb]; repeat split; assumption].
  cbn [andb]. apply Qltb_lt in Eneg. specialize (gas_in_range eq_refl).
  destruct (active m W) eqn:EW; destruct (has_solvent_ m) eqn:ES;
    try specialize (water_in_range eq_refl);
    try specialize (HW0 eq_refl); try specialize (HS0 eq_refl);
    (split; [rewrite ?length_insert; exact Hlen|]);
    vsimpl;
    (split; [sum_to_one (vget F G)|]);
    repeat split; intros; try discriminate; try reflexivity; assumption.
Qed.

Lemma renorm_oil_ok (FS : list Q * Q) :
  fractions_ok m np FS -> fractions_ok m np (renorm_oil m FS).
Proof.
  destruct phases_distinct as (HWO & HWG & HOG).
  destruct FS as [F S]. unfold renorm_oil, fractions_ok, scale_entry. fold W O G.
  intros (Hlen & Hsum & HW0 & HG0 & HS0).
  destruct (Qltb (vget F O) 0) eqn:Eneg; [|repeat split; assumption].
  apply Qltb_lt in Eneg.
  destruct (active m W) eqn:EW; destruct (active m G) eqn:EG;
    destruct (has_solvent_ m) eqn:ES;
    try specialize (water_in_range eq_refl); try specialize (gas_in_range eq_refl);
    try specialize (HW0 eq_refl); try specialize (HG0 eq_refl);
    try specialize (HS0 eq_refl);
    (split; [rewrite ?length_insert; exact Hlen|]);
    vsimpl;
    (split; [sum_to_one (vget F O)|]);
    repeat split; intros; try discriminate; try reflexivity; assumption.
Qed.

Lemma normalized_fractions_ok (nw w : nat) (sol : list Q) :
  fractions_ok m np (normalized_fractions m nw np w sol).
Proof.
  unfold normalized_fractions.
  apply renorm_oil_ok, renorm_gas_ok, renorm_water_ok, read_fractions_ok.
Qed.

End Fractions.

Section StoredFractions.
Import WellModel.
Context {Coll : Type}.
Variable m : Model Coll.
Variable ws : Wells.
Variable dwells : list (list Q).
Variable old : list Q.
Variable k : nat.

Let nw := number_of_wells ws.
Let np := number_of_phases ws.

Lemma slot_lt (P w : nat) : (P < k)%nat -> (w < nw)%nat -> (P * nw + w < k * nw)%nat.
Proof. intros HP Hw. nia. Qed.

Lemma slot_ne_well (P P' w w' : nat) :
  (w < nw)%nat -> (w' < nw)%nat -> w <> w' -> (P * nw + w)%nat <> (P' * nw + w')%nat.
Proof.
  intros Hw Hw' Hne Heq.
  assert (Hmod : ((P * nw + w) mod nw = (P' * nw + w') mod nw)%nat) by congruence.
  rewrite !(Nat.add_comm _ w), !(Nat.add_comm _ w') in Hmod.
  rewrite !Nat.Div0.mod_add in Hmod.
  rewrite !Nat.mod_small in Hmod by assumption. contradiction.
Qed.

Lemma slot_ne_pos (P P' w : nat) :
  (w < nw)%nat -> P <> P' -> (P * nw + w)%nat <> (P' * nw + w)%nat.
Proof. intros Hw Hne Heq. apply Hne. nia. Qed.

(** The well solution vector that [update_well] leaves: the stored
    fractions, and one more write at the slot of the first variable. *)
Lemma update_well_wellSolutions (x : WellState) (w : nat) :
  exists v,
    wellSolutions (update_well m ws dwells old x w) =
    <[(nw * XvarWell (ix m) + w)%nat := v]>
      (store_fractions m nw w
         (normalized_fractions m nw np w (limit_fractions m nw dwells old w (wellSolutions x)))
         (limit_fractions m nw dwells old w (wellSolutions x))).
Proof.
  unfold update_well. fold nw np.
  destruct (well_controls_iget_type (wctrls ws w) (zget (currentControls x) w));
    destruct (wtype ws w); eexists; reflexivity.
Qed.

Lemma limit_fractions_length (w : nat) (sol : list Q) :
  length (limit_fractions m nw dwells old w sol) = length sol.
Proof.
  unfold limit_fractions.
  destruct (active m _), (active m _), (has_solvent_ m); now rewrite ?length_insert.
Qed.

Lemma store_fractions_length (w : nat) FS (sol : list Q) :
  length (store_fractions m nw w FS sol) = length sol.
Proof.
  unfold store_fractions. destruct FS as [F S].
  destruct (active m _), (active m _), (has_solvent_ m); now rewrite ?length_insert.
Qed.

Lemma update_well_length (x : WellState) (w : nat) :
  length (wellSolutions (update_well m ws dwells old x w)) = length (wellSolutions x).
Proof.
  destruct (update_well_wellSolutions x w) as [v ->].
  now rewrite length_insert, store_fractions_length, limit_fractions_length.
Qed.

(** A write at a slot of another well does not show at a slot of [w]. *)
Lemma update_well_other (x : WellState) (w w' P : nat) :
  (w < nw)%nat -> (w' < nw)%nat -> w <> w' ->
  vget (wellSolutions (update_well m ws dwells old x w')) (P * nw + w)
  = vget (wellSolutions x) (P * nw + w).
Proof.
  intros Hw Hw' Hne.
  destruct (update_well_wellSolutions x w') as [v ->].
  rewrite vget_insert_ne
    by (rewrite (Nat.mul_comm nw); apply slot_ne_well; auto).
  unfold store_fractions, limit_fractions.
  destruct (normalized_fractions _ _ _ _ _) as [F S].
  destruct (active m (Water (ix m))), (active m (Gas (ix m))), (has_solvent_ m);
    rewrite ?vget_insert_ne by (apply slot_ne_well; auto); reflexivity.
Qed.

Hypothesis layout_old : layout_ok m k nw old.

Ltac slots :=
  repeat first
    [ rewrite vget_insert_eq
        by (rewrite ?length_insert;
            match goal with H : length _ = _ |- _ => rewrite H; apply slot_lt; auto end)
    | rewrite vget_insert_ne by (apply slot_ne_pos; auto) ].

Lemma positions_distinct :
  WFrac (ix m) <> GFrac (ix m) /\ WFrac (ix m) <> SFrac (ix m) /\
  GFrac (ix m) <> SFrac (ix m) /\ XvarWell (ix m) <> WFrac (ix m) /\
  XvarWell (ix m) <> GFrac (ix m) /\ XvarWell (ix m) <> SFrac (ix m).
Proof.
  destruct layout_old as (_ & _ & _ & _ & Hnd).
  inversion Hnd as [|? ? H1 Hnd1]; subst. inversion Hnd1 as [|? ? H2 Hnd2]; subst.
  inversion Hnd2 as [|? ? H3 _]; subst. simpl in H1, H2, H3.
  repeat split; intros E; intuition congruence.
Qed.

Lemma limit_fractions_self (w : nat) (sol : list Q) :
  (w < nw)%nat -> length sol = (k * nw)%nat ->
  let sol' := limit_fractions m nw dwells old w sol in
  (active m (Water (ix m)) = true ->
   vget sol' (WFrac (ix m) * nw + w)
   = limited_fraction m old (WFrac (ix m) * nw + w) (dwell dwells w (WFrac (ix m)))) /\
  (active m (Gas (ix m)) = true ->
   vget sol' (GFrac (ix m) * nw + w)
   = limited_fraction m old (GFrac (ix m) * nw + w) (dwell dwells w (GFrac (ix m)))) /\
  (has_solvent_ m = true ->
   vget sol' (SFrac (ix m) * nw + w)
   = limited_fraction m old (SFrac (ix m) * nw + w) (dwell dwells w (SFrac (ix m)))).
Proof.
  intros Hw Hlen.
  destruct layout_old as (_ & HW & HG & HS & _).
  destruct positions_distinct as (D1 & D2 & D3 & _).
  assert (D1' : GFrac (ix m) <> WFrac (ix m)) by congruence.
  assert (D2' : SFrac (ix m) <> WFrac (ix m)) by congruence.
  assert (D3' : SFrac (ix m) <> GFrac (ix m)) by congruence.
  unfold limit_fractions.
  destruct (active m (Water (ix m))) eqn:EW; destruct (active m (Gas (ix m))) eqn:EG;
    destruct (has_solvent_ m) eqn:ES;
    try specialize (HW eq_refl); try specialize (HG eq_refl); try specialize (HS eq_refl);
    cbv zeta; repeat split; intros; try discriminate; slots; reflexivity.
Qed.

(** The fractions read for well [w] come from [xvar_well_old] and [dwells]
    alone. *)
Lemma read_after_limit (w : nat) (sol sol' : list Q) :
  (w < nw)%nat -> length sol = (k * nw)%nat -> length sol' = (k * nw)%nat ->
  read_fractions m nw np w (limit_fractions m nw dwells old w sol)
  = read_fractions m nw np w (limit_fractions m nw dwells old w sol').
Proof.
  intros Hw Hlen Hlen'.
  destruct (limit_fractions_self w sol Hw Hlen) as (A1 & A2 & A3).
  destruct (limit_fractions_self w sol' Hw Hlen') as (B1 & B2 & B3).
  unfold read_fractions.
  destruct (active m (Water (ix m))) eqn:EW; destruct (active m (Gas (ix m))) eqn:EG;
    destruct (has_solvent_ m) eqn:ES;
    rewrite ?A1, ?A2, ?A3, ?B1, ?B2, ?B3 by reflexivity; reflexivity.
Qed.

Lemma store_fractions_self (w : nat) (F : list Q) (S : Q) (sol : list Q) :
  (w < nw)%nat -> length sol = (k * nw)%nat ->
  let sol' := store_fractions m nw w (F, S) sol in
  (active m (Water (ix m)) = true ->
   vget sol' (WFrac (ix m) * nw + w) = vget F (Water (ix m))) /\
  (active m (Gas (ix m)) = true ->
   vget sol' (GFrac (ix m) * nw + w) = vget F (Gas (ix m))) /\
  (has_solvent_ m = true -> vget sol' (SFrac (ix m) * nw + w) = S).
Proof.
  intros Hw Hlen.
  destruct layout_old as (_ & HW & HG & HS & _).
  destruct positions_distinct as (D1 & D2 & D3 & _).
  assert (D1' : GFrac (ix m) <> WFrac (ix m)) by congruence.
  assert (D2' : SFrac (ix m) <> WFrac (ix m)) by congruence.
  assert (D3' : SFrac (ix m) <> GFrac (ix m)) by congruence.
  unfold store_fractions.
  destruct (active m (Water (ix m))) eqn:EW; destruct (active m (Gas (ix m))) eqn:EG;
    destruct (has_solvent_ m) eqn:ES;
    try specialize (HW eq_refl); try specialize (HG eq_refl); try specialize (HS eq_refl);
    cbv zeta; repeat split; intros; try discriminate; slots; reflexivity.
Qed.

Lemma update_well_self (x : WellState) (w : nat) :
  (w < nw)%nat -> length (wellSolutions x) = (k * nw)%nat ->
  holds_fractions m ws dwells old w (wellSolutions (update_well m ws dwells old x w)).
Proof.
  intros Hw Hlen.
  destruct layout_old as (Hlo & _).
  destruct positions_distinct as (_ & _ & _ & X1 & X2 & X3).
  destruct (update_well_wellSolutions x w) as [v ->].
  assert (EFS : normalized_fractions m nw np w
                  (limit_fractions m nw dwells old w (wellSolutions x))
                = fractions_of m ws dwells old w).
  { unfold fractions_of, normalized_fractions.
    now rewrite (read_after_limit w (wellSolutions x) old). }
  rewrite EFS. destruct (fractions_of m ws dwells old w) as [F S] eqn:EF.
  pose proof (store_fractions_self w F S
                (limit_fractions m nw dwells old w (wellSolutions x)) Hw
                ltac:(rewrite limit_fractions_length; exact Hlen)) as (SW & SG & SS).
  unfold holds_fractions. fold nw. rewrite EF. cbn [fst snd].
  rewrite (Nat.mul_comm nw).
  repeat split; intros Hact;
    rewrite vget_insert_ne by (apply slot_ne_pos; auto); auto.
Qed.

Lemma fold_update_well_other (l : list nat) : forall (x : WellState) (w P : nat),
  (w < nw)%nat -> ~ In w l -> (forall w', In w' l -> (w' < nw)%nat) ->
  vget (wellSolutions (fold_left (update_well m ws dwells old) l x)) (P * nw + w)
  = vget (wellSolutions x) (P * nw + w).
Proof.
  induction l as [|w' l IH]; intros x w P Hw Hnin Hall; [reflexivity|].
  cbn [fold_left]. rewrite IH.
  - apply update_well_other; auto.
    + apply Hall. now left.
    + intros E. apply Hnin. now left.
  - assumption.
  - intros E. apply Hnin. now right.
  - intros w'' Hin. apply Hall. now right.
Qed.

Lemma fold_update_well_self (l : list nat) : forall (x : WellState) (w : nat),
  List.NoDup l -> (forall w', In w' l -> (w' < nw)%nat) -> In w l ->
  length (wellSolutions x) = (k * nw)%nat ->
  holds_fractions m ws dwells old w (wellSolutions (fold_left (update_well m ws dwells old) l x)).
Proof.
  induction l as [|w' l IH]; intros x w Hnd Hall Hin Hlen; [destruct Hin|].
  cbn [fold_left]. apply List.NoDup_cons_iff in Hnd. destruct Hnd as [Hnin Hnd].
  destruct (Nat.eq_dec w w') as [->|Hne].
  - assert (Hw : (w' < nw)%nat) by (apply Hall; now left).
    assert (Hall' : forall w'', In w'' l -> (w'' < nw)%nat)
      by (intros w'' Hin'; apply Hall; now right).
    pose proof (update_well_self x w' Hw Hlen) as Hself.
    unfold holds_fractions in Hself |- *. cbv zeta in Hself |- *.
    fold nw in Hself |- *.
    rewrite !(fold_update_well_other l _ w' _ Hw Hnin Hall').
    exact Hself.
  - apply IH; auto.
    + intros w'' Hin'. apply Hall. now right.
    + destruct Hin as [E|Hin]; [congruence|exact Hin].
    + rewrite update_well_length. exact Hlen.
Qed.

Lemma fold_update_thp_wellSolutions (l : list nat) : forall (x : WellState),
  wellSolutions (fold_left (update_thp m ws) l x) = wellSolutions x.
Proof.
  induction l as [|w l IH]; intros x; [reflexivity|].
  cbn [fold_left]. rewrite IH. unfold update_thp.
  destruct (first_thp _ _); [|reflexivity].
  destruct (_ =? _)%Z; [reflexivity|]. destruct (wtype ws w); reflexivity.
Qed.

End StoredFractions.

Lemma renorm_oil_nonneg {Coll : Type} (m : WellModel.Model Coll) (np : nat) (FS : list Q * Q) :
  (Oil (WellModel.ix m) < np)%nat ->
  WellModel.fractions_ok m np FS ->
  0 <= vget (fst (WellModel.renorm_oil m FS)) (Oil (WellModel.ix m)).
Proof.
  intros Ho Hok. destruct FS as [F S]. destruct Hok as (Hlen & _).
  unfold WellModel.renorm_oil.
  destruct (Qltb (vget F (Oil (WellModel.ix m))) 0) eqn:E.
  - cbn [fst]. rewrite vget_insert_eq; [lra|].
    unfold WellModel.scale_entry.
    destruct (WellModel.active m _), (WellModel.active m _);
      rewrite ?length_insert; lia.
  - cbn [fst]. now apply Qltb_ge in E.
Qed.

(** C8.  After [updateWellState], for every well [w] the fractions stored
    in the well solution vector (water, gas and solvent, each counted when
    it is in use) and the oil fraction [F[Oil]] that the pass of well [w]
    derives as one minus the others and carries through the three
    renormalizations add up to one; the stored fractions are the
    renormalized [F[Water]], [F[Gas]] and [F_solvent], and the oil
    fraction is not negative.  (In exact arithmetic the sum is exactly
    one.) *)
Theorem updateWellState_fractions_sum_to_one
  {Coll : Type} (m : WellModel.Model Coll) (ws : Wells) (dwells : list (list Q))
  (x : WellState) (k w : nat)
  (Hpresent : WellModel.wells_present m = true)
  (Hw : (w < number_of_wells ws)%nat)
  (Hphases : WellModel.phases_ok m (number_of_phases ws))
  (Hlayout : WellModel.layout_ok m k (number_of_wells ws) (wellSolutions x)) :
  let nw := number_of_wells ws in
  let i := WellModel.ix m in
  let sol' := wellSolutions (WellModel.updateWellState m ws dwells x) in
  let FS := WellModel.fractions_of m ws dwells (wellSolutions x) w in
  let F_oil := vget (fst FS) (Oil i) in
  let stored_water := if WellModel.active m (Water i) then vget sol' (WFrac i * nw + w) else 0 in
  let stored_gas := if WellModel.active m (Gas i) then vget sol' (GFrac i * nw + w) else 0 in
  let stored_solvent := if WellModel.has_solvent_ m then vget sol' (SFrac i * nw + w) else 0 in
  stored_water + stored_gas + stored_solvent + F_oil == 1 /\
  0 <= F_oil /\
  WellModel.holds_fractions m ws dwells (wellSolutions x) w sol'.
Proof.
  intros nw i sol' FS F_oil stored_water stored_gas stored_solvent.
  destruct Hphases as (Hdist & Ho & HWr & HGr).
  assert (Hok : WellModel.fractions_ok m (number_of_phases ws) FS).
  { apply normalized_fractions_ok; assumption. }
  assert (Hhold : WellModel.holds_fractions m ws dwells (wellSolutions x) w sol').
  { subst sol'. unfold WellModel.updateWellState, WellModel.localWellsActive.
    rewrite Hpresent.
    assert (Hpos : (0 <? number_of_wells ws)%nat = true) by (apply Nat.ltb_lt; lia).
    rewrite Hpos. cbn [andb negb].
    rewrite fold_update_thp_wellSolutions.
    apply (fold_update_well_self m ws dwells (wellSolutions x) k Hlayout).
    - apply List.seq_NoDup.
    - intros w' Hin. apply in_seq in Hin. lia.
    - apply in_seq. lia.
    - apply Hlayout. }
  split; [|split; [|exact Hhold]].
  - destruct Hhold as (HW & HG & HS). fold nw i in HW, HG, HS.
    fold FS in HW, HG, HS.
    destruct FS as [F S] eqn:EFS. cbn [fst snd] in *.
    destruct Hok as (_ & Hsum & HW0 & HG0 & HS0). fold i in Hsum, HW0, HG0.
    subst stored_water stored_gas stored_solvent F_oil.
    destruct (WellModel.active m (Water i)); destruct (WellModel.active m (Gas i));
      destruct (WellModel.has_solvent_ m);
      rewrite ?HW, ?HG, ?HS by reflexivity;
      try specialize (HW0 eq_refl); try specialize (HG0 eq_refl);
      try specialize (HS0 eq_refl); lra.
  - subst F_oil FS. unfold WellModel.fractions_of, WellModel.normalized_fractions.
    apply (renorm_oil_nonneg m (number_of_phases ws)); [exact Ho|].
    apply renorm_gas_ok; try assumption.
    apply renorm_water_ok; try assumption.
    apply read_fractions_ok; assumption.
Qed.

Lemma updateWellState_fractions_sum_to_one_witness :
  WellModel.wells_present WellExample.toyModel = true /\
  (0 < number_of_wells WellExample.toyWells)%nat /\
  WellModel.phases_ok WellExample.toyModel 3 /\
  WellModel.layout_ok WellExample.toyModel 3 2 (wellSolutions WellExample.toyWellState) /\
  0 <= vget (fst (WellModel.fractions_of WellExample.toyModel WellExample.toyWells
                    WellExample.toyDwells (wellSolutions WellExample.toyWellState) 0))
            (Oil WellExample.stdIndices).
Proof.
  assert (Hp : WellModel.phases_ok WellExample.toyModel 3).
  { unfold WellModel.phases_ok. simpl. repeat split; intros; try discriminate; lia. }
  assert (Hl : WellModel.layout_ok WellExample.toyModel 3 2
                 (wellSolutions WellExample.toyWellState)).
  { unfold WellModel.layout_ok. simpl. repeat split; intros; try discriminate; try lia.
    repeat constructor; simpl; intuition discriminate. }
  split; [reflexivity|]. split; [simpl; lia|]. split; [exact Hp|]. split; [exact Hl|].
  apply (updateWellState_fractions_sum_to_one WellExample.toyModel WellExample.toyWells
           WellExample.toyDwells WellExample.toyWellState 3 0 eq_refl
           ltac:(simpl; lia) Hp Hl).
Defined.

(** ** StandardWellsDense::updateWellControls *)

Lemma zget_insert_eq (l : list Z) (i : nat) (x : Z) :
  (i < length l)%nat -> zget (<[i := x]> l) i = x.
Proof. intros H. unfold zget. now rewrite list_lookup_insert_eq. Qed.

Lemma zget_insert_ne (l : list Z) (i j : nat) (x : Z) :
  i <> j -> zget (<[i := x]> l) j = zget l j.
Proof. intros H. unfold zget. now rewrite list_lookup_insert_ne. Qed.

Lemma zget_map_seq (f : nat -> Z) (n w : nat) :
  (w < n)%nat -> zget (map f (seq 0 n)) w = f w.
Proof.
  intros H. unfold zget.
  rewrite list_lookup_fmap, lookup_seq_lt by assumption. reflexivity.
Qed.

(** The scan returns the first index, in increasing order, that is not the
    current one and whose constraint is broken, and [nwc] when there is
    none. *)
Lemma first_broken_spec (broken : Z -> bool) (current : Z) (len : nat) :
  forall (start : nat) (nwc : Z),
  let i := WellModel.first_broken broken current (map Z.of_nat (seq start len)) nwc in
  (i = nwc /\
   forall j, (start <= j < start + len)%nat -> Z.of_nat j <> current ->
             broken (Z.of_nat j) = false) \/
  (exists jn, i = Z.of_nat jn /\ (start <= jn < start + len)%nat /\
     i <> current /\ broken i = true /\
     forall j, (start <= j < jn)%nat -> Z.of_nat j <> current ->
               broken (Z.of_nat j) = false).
Proof.
  induction len as [|len IH]; intros start nwc; cbn [seq map WellModel.first_broken].
  - left. split; [reflexivity|]. intros j Hj. lia.
  - destruct (Z.of_nat start =? current)%Z eqn:Ecur.
    + apply Z.eqb_eq in Ecur.
      destruct (IH (S start) nwc) as [[Hi Hnone]|(jn & Hi & Hjn & Hne & Hb & Hbefore)].
      * left. split; [exact Hi|]. intros j Hj Hjc.
        destruct (Nat.eq_dec j start) as [->|Hneq]; [contradiction|].
        apply Hnone; [lia|assumption].
      * right. exists jn. repeat split; try assumption; try lia.
        intros j Hj Hjc.
        destruct (Nat.eq_dec j start) as [->|Hneq]; [contradiction|].
        apply Hbefore; [lia|assumption].
    + apply Z.eqb_neq in Ecur.
      destruct (broken (Z.of_nat start)) eqn:Eb.
      * right. exists start. repeat split; try assumption; try lia.
      * destruct (IH (S start) nwc) as [[Hi Hnone]|(jn & Hi & Hjn & Hne & Hb & Hbefore)].
        -- left. split; [exact Hi|]. intros j Hj Hjc.
           destruct (Nat.eq_dec j start) as [->|Hneq]; [assumption|].
           apply Hnone; [lia|assumption].
        -- right. exists jn. repeat split; try assumption; try lia.
           intros j Hj Hjc.
           destruct (Nat.eq_dec j start) as [->|Hneq]; [assumption|].
           apply Hbefore; [lia|assumption].
Qed.

Section ControlSwitch.
Import WellModel.
Context {Coll : Type}.
Variable m : Model Coll.
Local Abbreviation St := (@Controlled Coll).

Lemma wctrls_set_eq (ws : Wells) (w : nat) (wc : WellControls) :
  (w < length (ctrls ws))%nat -> wctrls (set_wctrls ws w wc) w = wc.
Proof. intros H. unfold wctrls, set_wctrls. simpl. now rewrite list_lookup_insert_eq. Qed.

Lemma wctrls_set_ne (ws : Wells) (w w' : nat) (wc : WellControls) :
  w' <> w -> wctrls (set_wctrls ws w' wc) w = wctrls ws w.
Proof. intros H. unfold wctrls, set_wctrls. simpl. now rewrite list_lookup_insert_ne. Qed.

Lemma switch_frame_refl (s : St) : switch_frame s s.
Proof. unfold switch_frame. repeat split. Qed.

Lemma switch_frame_trans (s1 s2 s3 : St) :
  switch_frame s1 s2 -> switch_frame s2 s3 -> switch_frame s1 s3.
Proof.
  unfold switch_frame. intros H1 H2.
  decompose [and] H1. decompose [and] H2. repeat split; congruence.
Qed.

Lemma switch_well_frame (s : St) (w : nat) :
  groupControlActive m (c_coll s) = false -> switch_frame s (switch_well m s w).
Proof.
  intros Hg. unfold switch_well, switch_frame. rewrite Hg.
  destruct (negb _); simpl; rewrite ?length_insert; repeat split.
Qed.

Lemma scan_well_frame (s s' : St) (w : nat) :
  switch_frame s s' ->
  wctrls (c_wells s') w = wctrls (c_wells s) w ->
  zget (currentControls (c_xw s')) w = zget (currentControls (c_xw s)) w ->
  scan_well m (c_wells s') (c_xw s') w = scan_well m (c_wells s) (c_xw s) w.
Proof.
  intros Hf Hwc Hcc. unfold switch_frame in Hf. decompose [and] Hf.
  unfold scan_well, wtype. now repeat match goal with H : _ = _ |- _ => rewrite H end.
Qed.

(** The pass of another well leaves the control of well [w] alone. *)
Lemma switch_well_other (s : St) (w w' : nat) :
  w' <> w ->
  wctrls (c_wells (switch_well m s w')) w = wctrls (c_wells s) w /\
  zget (currentControls (c_xw (switch_well m s w'))) w = zget (currentControls (c_xw s)) w.
Proof.
  intros Hne. unfold switch_well.
  destruct (negb _); simpl; rewrite ?wctrls_set_ne, ?zget_insert_ne by assumption;
    split; reflexivity.
Qed.

(** The pass of well [w] itself. *)
Lemma switch_well_self (s : St) (w : nat) :
  (w < length (currentControls (c_xw s)))%nat ->
  (w < length (ctrls (c_wells s)))%nat ->
  let i := scan_well m (c_wells s) (c_xw s) w in
  let wc := wctrls (c_wells s) w in
  let s' := switch_well m s w in
  zget (currentControls (c_xw s')) w = decided_control m s w /\
  wc_controls (wctrls (c_wells s') w) = wc_controls wc /\
  (i <> well_controls_get_num wc -> wc_current (wctrls (c_wells s') w) = i).
Proof.
  intros Hcc Hct i wc s'. subst s'. unfold switch_well, decided_control. fold i wc.
  destruct (i =? well_controls_get_num wc)%Z eqn:E; simpl.
  - apply Z.eqb_eq in E. repeat split. intros Hne. contradiction.
  - rewrite zget_insert_eq by assumption. rewrite wctrls_set_eq by assumption.
    simpl. repeat split.
Qed.

Lemma fold_switch_frame (l : list nat) : forall (s : St),
  groupControlActive m (c_coll s) = false ->
  switch_frame s (fold_left (switch_well m) l s).
Proof.
  induction l as [|w' l IH]; intros s Hg; [apply switch_frame_refl|].
  cbn [fold_left].
  pose proof (switch_well_frame s w' Hg) as Hf.
  eapply switch_frame_trans; [exact Hf|]. apply IH.
  unfold switch_frame in Hf. decompose [and] Hf. congruence.
Qed.

Lemma fold_switch_other (l : list nat) : forall (s : St) (w : nat),
  ~ In w l ->
  wctrls (c_wells (fold_left (switch_well m) l s)) w = wctrls (c_wells s) w /\
  zget (currentControls (c_xw (fold_left (switch_well m) l s))) w
  = zget (currentControls (c_xw s)) w.
Proof.
  induction l as [|w' l IH]; intros s w Hnin; [split; reflexivity|].
  cbn [fold_left].
  destruct (IH (switch_well m s w') w ltac:(intros H; apply Hnin; now right)) as [-> ->].
  apply switch_well_other. intros ->. apply Hnin. now left.
Qed.

Lemma decided_control_frame (s s' : St) (w : nat) :
  switch_frame s s' ->
  wctrls (c_wells s') w = wctrls (c_wells s) w ->
  zget (currentControls (c_xw s')) w = zget (currentControls (c_xw s)) w ->
  decided_control m s' w = decided_control m s w.
Proof.
  intros Hf Hwc Hcc. unfold decided_control.
  now rewrite (scan_well_frame s s' w Hf Hwc Hcc), Hwc, Hcc.
Qed.

(** After the switch loop, the control of every well in the loop is the
    one its scan of the entry state decides on. *)
Lemma fold_switch_self (l : list nat) : forall (s : St) (w : nat),
  List.NoDup l -> In w l ->
  groupControlActive m (c_coll s) = false ->
  (w < length (currentControls (c_xw s)))%nat ->
  (w < length (ctrls (c_wells s)))%nat ->
  let s' := fold_left (switch_well m) l s in
  zget (currentControls (c_xw s')) w = decided_control m s w /\
  wc_controls (wctrls (c_wells s') w) = wc_controls (wctrls (c_wells s) w) /\
  (scan_well m (c_wells s) (c_xw s) w <> well_controls_get_num (wctrls (c_wells s) w) ->
   wc_current (wctrls (c_wells s') w) = scan_well m (c_wells s) (c_xw s) w).
Proof.
  induction l as [|w' l IH]; intros s w Hnd Hin Hg Hcc Hct; [destruct Hin|].
  cbn [fold_left]. apply List.NoDup_cons_iff in Hnd. destruct Hnd as [Hnin Hnd].
  pose proof (switch_well_frame s w' Hg) as Hf.
  destruct (Nat.eq_dec w w') as [->|Hne].
  - destruct (fold_switch_other l (switch_well m s w') w' Hnin) as [-> ->].
    apply switch_well_self; assumption.
  - destruct Hin as [E|Hin]; [congruence|].
    destruct (switch_well_other s w w' ltac:(congruence)) as [Hwc Hz].
    assert (Hg' : groupControlActive m (c_coll (switch_well m s w')) = false).
    { unfold switch_frame in Hf. decompose [and] Hf. congruence. }
    assert (Hcc' : (w < length (currentControls (c_xw (switch_well m s w'))))%nat).
    { unfold switch_frame in Hf. decompose [and] Hf. congruence. }
    assert (Hct' : (w < length (ctrls (c_wells (switch_well m s w'))))%nat).
    { unfold switch_frame in Hf. decompose [and] Hf. congruence. }
    specialize (IH (switch_well m s w') w Hnd Hin Hg' Hcc' Hct').
    rewrite (decided_control_frame s _ w Hf Hwc Hz) in IH.
    rewrite (scan_well_frame s _ w Hf Hwc Hz), Hwc in IH.
    exact IH.
Qed.

(** [updateWellStateWithTarget] writes one entry of [bhp] and of [thp], and
    never the control indices. *)
Lemma updateWellStateWithTarget_currentControls ws wc cur w xw :
  currentControls (updateWellStateWithTarget m ws wc cur w xw) = currentControls xw.
Proof.
  unfold updateWellStateWithTarget. cbn [set_wellSolutions currentControls].
  destruct (well_controls_iget_type wc cur); reflexivity.
Qed.

Lemma updateWellStateWithTarget_bhp ws wc cur w xw :
  bhp (updateWellStateWithTarget m ws wc cur w xw) =
  match well_controls_iget_type wc cur with
  | BHP => <[w := well_controls_iget_target wc cur]> (bhp xw)
  | THP =>
      <[w := bhp_from_thp m ws
               (set_thp xw (<[w := well_controls_iget_target wc cur]> (thp xw))) w wc cur]>
        (bhp xw)
  | _ => bhp xw
  end.
Proof.
  unfold updateWellStateWithTarget. cbn [set_wellSolutions bhp].
  destruct (well_controls_iget_type wc cur); reflexivity.
Qed.

Lemma updateWellStateWithTarget_thp ws wc cur w xw :
  thp (updateWellStateWithTarget m ws wc cur w xw) =
  match well_controls_iget_type wc cur with
  | THP => <[w := well_controls_iget_target wc cur]> (thp xw)
  | _ => thp xw
  end.
Proof.
  unfold updateWellStateWithTarget. cbn [set_wellSolutions thp].
  destruct (well_controls_iget_type wc cur); reflexivity.
Qed.

Lemma retarget_well_frame old upd ws xw w' :
  let xw' := retarget_well m old upd false ws xw w' in
  currentControls xw' = currentControls xw /\
  length (bhp xw') = length (bhp xw) /\ length (thp xw') = length (thp xw) /\
  forall w, w <> w' -> vget (bhp xw') w = vget (bhp xw) w /\ vget (thp xw') w = vget (thp xw) w.
Proof.
  unfold retarget_well. rewrite orb_false_r.
  destruct (negb _); [|repeat split].
  rewrite updateWellStateWithTarget_currentControls, updateWellStateWithTarget_bhp,
    updateWellStateWithTarget_thp.
  destruct (well_controls_iget_type _ _); rewrite ?length_insert;
    repeat split; rewrite ?vget_insert_ne by congruence; reflexivity.
Qed.

Lemma fold_retarget_frame old upd ws (l : list nat) : forall xw,
  let xw' := fold_left (retarget_well m old upd false ws) l xw in
  currentControls xw' = currentControls xw /\
  length (bhp xw') = length (bhp xw) /\ length (thp xw') = length (thp xw) /\
  forall w, ~ In w l -> vget (bhp xw') w = vget (bhp xw) w /\ vget (thp xw') w = vget (thp xw) w.
Proof.
  induction l as [|w' l IH]; intros xw; [repeat split|].
  cbn [fold_left].
  destruct (IH (retarget_well m old upd false ws xw w')) as (I1 & I2 & I3 & I4).
  destruct (retarget_well_frame old upd ws xw w') as (R1 & R2 & R3 & R4).
  cbv zeta. rewrite I1, I2, I3. repeat split; try assumption.
  - rewrite (proj1 (I4 w ltac:(intros Hin; apply H; now right))).
    apply R4. intros ->. apply H. now left.
  - rewrite (proj2 (I4 w ltac:(intros Hin; apply H; now right))).
    apply R4. intros ->. apply H. now left.
Qed.


End ControlSwitch.


(** The scan of a well, read against the constraints of the well: either
    no constraint other than the current one is broken, or the scan stops
    at the first such constraint. *)
Lemma scan_well_spec {Coll} (m : WellModel.Model Coll) (ws : Wells) (xw : WellState)
  (w : nat) :
  let wc := wctrls ws w in
  let nwc := well_controls_get_num wc in
  let cur := zget (currentControls xw) w in
  let broken := WellModel.constraintBroken m (bhp xw) (thp xw) (wellRates xw) w
                  (number_of_phases ws) (wtype ws w) wc in
  let i := WellModel.scan_well m ws xw w in
  (i = nwc /\ forall j, (0 <= j < nwc)%Z -> j <> cur -> broken j = false) \/
  ((0 <= i < nwc)%Z /\ i <> cur /\ broken i = true /\
   forall j, (0 <= j < i)%Z -> j <> cur -> broken j = false).
Proof.
  intros wc nwc cur broken i. subst i. unfold WellModel.scan_well.
  fold wc nwc cur broken.
  assert (Hn : Z.of_nat (Z.to_nat nwc) = nwc) by (unfold nwc, well_controls_get_num; lia).
  destruct (first_broken_spec broken cur (Z.to_nat nwc) 0 nwc)
    as [[Hi Hnone]|(jn & Hi & Hjn & Hne & Hb & Hbefore)].
  - left. split; [exact Hi|]. intros j Hj Hjc.
    rewrite <- (Z2Nat.id j) by lia. apply Hnone; [lia|]. rewrite Z2Nat.id by lia. exact Hjc.
  - right. rewrite Hi in *. repeat split; try assumption; try lia.
    intros j Hj Hjc.
    rewrite <- (Z2Nat.id j) by lia. apply Hbefore; [lia|]. rewrite Z2Nat.id by lia. exact Hjc.
Qed.





Section WellSystemFacts.
Import WellSystem.

Lemma fold_left_plus {A} (f : A -> Q) (l : list A) : forall a,
  fold_left (fun acc j => acc + f j) l a == a + fold_right (fun j acc => f j + acc) 0 l.
Proof.
  induction l as [|j l IH]; intros a; cbn [fold_left fold_right]; [lra|].
  rewrite IH. lra.
Qed.

Lemma fold_left_minus {A} (f : A -> Q) (l : list A) : forall a,
  fold_left (fun acc j => acc - f j) l a == a - fold_right (fun j acc => f j + acc) 0 l.
Proof.
  induction l as [|j l IH]; intros a; cbn [fold_left fold_right]; [lra|].
  rewrite IH. lra.
Qed.

Lemma vget_imap (f : nat -> Q -> Q) (y : list Q) (k : nat) :
  (k < length y)%nat -> vget (imap f y) k = f k (vget y k).
Proof.
  intros H. unfold vget. rewrite list_lookup_imap.
  destruct (lookup_lt_is_Some_2 y k H) as [v ->]. reflexivity.
Qed.

Lemma block_umv_length A x y : length (block_umv A x y) = length y.
Proof. apply length_imap. Qed.
Lemma block_mmv_length A x y : length (block_mmv A x y) = length y.
Proof. apply length_imap. Qed.

Lemma block_umv_get A x y k :
  (k < length y)%nat -> vget (block_umv A x y) k == vget y k + block_sum A x k.
Proof.
  intros H. unfold block_umv. rewrite vget_imap by assumption.
  unfold block_sum. apply (fold_left_plus (fun j => entry A k j * vget x j)).
Qed.

Lemma block_mmv_get A x y k :
  (k < length y)%nat -> vget (block_mmv A x y) k == vget y k - block_sum A x k.
Proof.
  intros H. unfold block_mmv. rewrite vget_imap by assumption.
  unfold block_sum. apply (fold_left_minus (fun j => entry A k j * vget x j)).
Qed.

Lemma row_umv_length row x : forall y, length (row_umv row x y) = length y.
Proof.
  induction row as [|e row IH]; intros y; [reflexivity|].
  unfold row_umv in *. cbn [fold_left]. rewrite IH. apply block_umv_length.
Qed.

Lemma row_mmv_length row x : forall y, length (row_mmv row x y) = length y.
Proof.
  induction row as [|e row IH]; intros y; [reflexivity|].
  unfold row_mmv in *. cbn [fold_left]. rewrite IH. apply block_mmv_length.
Qed.

Lemma row_umv_get row x k : forall y,
  (k < length y)%nat -> vget (row_umv row x y) k == vget y k + row_sum row x k.
Proof.
  induction row as [|e row IH]; intros y H; unfold row_umv, row_sum in *;
    cbn [fold_left fold_right]; [lra|].
  rewrite IH by (rewrite block_umv_length; exact H).
  rewrite block_umv_get by exact H. lra.
Qed.

Lemma row_mmv_get row x k : forall y,
  (k < length y)%nat -> vget (row_mmv row x y) k == vget y k - row_sum row x k.
Proof.
  induction row as [|e row IH]; intros y H; unfold row_mmv, row_sum in *;
    cbn [fold_left fold_right]; [lra|].
  rewrite IH by (rewrite block_mmv_length; exact H).
  rewrite block_mmv_get by exact H. lra.
Qed.

Lemma zero_like_repeat (y : FieldVector) : zero_like y = repeat 0 (length y).
Proof. unfold zero_like. induction y as [|a y IH]; [reflexivity|]. simpl. now rewrite IH. Qed.

Lemma bget_imap (f : nat -> FieldVector -> FieldVector) (y : BVector) (w : nat) :
  (w < length y)%nat -> bget (imap f y) w = f w (bget y w).
Proof.
  intros H. unfold bget. rewrite list_lookup_imap.
  destruct (lookup_lt_is_Some_2 y w H) as [v ->]. reflexivity.
Qed.

Lemma mmv_length A x y : length (mmv A x y) = length y.
Proof. apply length_imap. Qed.
Lemma mv_length A x y : length (mv A x y) = length y.
Proof. apply length_imap. Qed.

Lemma mmv_block_length A x y w :
  (w < length y)%nat -> length (bget (mmv A x y) w) = length (bget y w).
Proof.
  intros H. unfold mmv. rewrite bget_imap by assumption.
  destruct (A !! w); [apply row_mmv_length|reflexivity].
Qed.

(** One entry of [resWell - C x]. *)
Lemma mmv_get A x y w k :
  (w < length y)%nat -> (k < length (bget y w))%nat ->
  vget (bget (mmv A x y) w) k ==
  vget (bget y w) k - match A !! w with Some row => row_sum row x k | None => 0 end.
Proof.
  intros Hw Hk. unfold mmv. rewrite bget_imap by assumption.
  destruct (A !! w); [apply row_mmv_get; assumption|lra].
Qed.

Lemma umv_get A x y w k :
  (w < length y)%nat -> (k < length (bget y w))%nat ->
  vget (bget (umv A x y) w) k ==
  vget (bget y w) k + match A !! w with Some row => row_sum row x k | None => 0 end.
Proof.
  intros Hw Hk. unfold umv. rewrite bget_imap by assumption.
  destruct (A !! w); [apply row_umv_get; assumption|lra].
Qed.

(** A row of a block diagonal matrix applied to a vector. *)
Lemma mv_diagonal D x y w :
  diagonal D -> (w < length D)%nat -> (w < length y)%nat ->
  bget (mv D x y) w = block_umv (block_of D w) (bget x w) (repeat 0 (length (bget y w))).
Proof.
  intros Hd HD Hy. unfold mv. rewrite bget_imap by assumption.
  unfold block_of.
  destruct (lookup_lt_is_Some_2 D w HD) as [row Hrow]. rewrite Hrow.
  destruct (Hd w row Hrow) as [Dw ->].
  unfold row_umv. cbn [fold_left fst snd]. now rewrite zero_like_repeat.
Qed.

Lemma localInvert_diagonal invert D : diagonal D -> diagonal (localInvert invert D).
Proof.
  intros Hd w row Hrow. unfold localInvert in Hrow.
  rewrite list_lookup_fmap in Hrow.
  destruct (D !! w) as [row0|] eqn:E; [|discriminate].
  destruct (Hd w row0 E) as [Dw ->]. simpl in Hrow. injection Hrow as <-.
  eexists. reflexivity.
Qed.

Lemma localInvert_block invert D w :
  diagonal D -> (w < length D)%nat ->
  block_of (localInvert invert D) w = invert (block_of D w).
Proof.
  intros Hd HD. unfold block_of, localInvert. rewrite list_lookup_fmap.
  destruct (lookup_lt_is_Some_2 D w HD) as [row Hrow]. rewrite Hrow.
  destruct (Hd w row Hrow) as [Dw ->]. reflexivity.
Qed.

Lemma localInvert_length invert D : length (localInvert invert D) = length D.
Proof. apply length_map. Qed.

End WellSystemFacts.

(** C6.  With wells on this process, a block diagonal [D] and its block
    wise inverse from [localInvert], [recoverVariable(x, xw)] sets
    [xw = invD (resWell - C x)], well by well with the inverse of the block
    of the well; and when [invert] gives a right inverse of the block of
    well [w], the recovered unknowns of the well satisfy
    [D xw + C x = resWell]. *)
Theorem recoverVariable_back_substitution {Coll} (m : WellModel.Model Coll) (ws : Wells)
  (invert : WellSystem.FieldMatrix -> WellSystem.FieldMatrix) (C D : WellSystem.Mat) (resWell x xw : WellSystem.BVector)
  (n w k : nat)
  (Hact : WellModel.localWellsActive m ws = true)
  (Hdiag : WellSystem.diagonal D)
  (HD : length D = length xw)
  (HR : length resWell = length xw)
  (Hw : (w < length xw)%nat)
  (Hnx : length (WellSystem.bget xw w) = n)
  (Hnr : length (WellSystem.bget resWell w) = n)
  (Hk : (k < n)%nat)
  (Hinv : forall r j, length r = n -> (j < n)%nat ->
            vget (WellSystem.block_umv (WellSystem.block_of D w)
                    (WellSystem.block_umv (invert (WellSystem.block_of D w)) r (repeat 0 n)) (repeat 0 n)) j
            == vget r j) :
  let S := WellSystem.mkWellMatrices C (WellSystem.localInvert invert D) resWell in
  let xw' := WellSystem.recoverVariable m ws S x xw in
  xw' = WellSystem.mv (WellSystem.localInvert invert D) (WellSystem.mmv C x resWell) xw /\
  WellSystem.bget xw' w = WellSystem.block_umv (invert (WellSystem.block_of D w)) (WellSystem.bget (WellSystem.mmv C x resWell) w) (repeat 0 n) /\
  vget (WellSystem.bget (WellSystem.umv C x (WellSystem.mv D xw' xw')) w) k == vget (WellSystem.bget resWell w) k.
Proof.
  intros S xw'.
  assert (E1 : xw' = WellSystem.mv (WellSystem.localInvert invert D) (WellSystem.mmv C x resWell) xw).
  { unfold xw', WellSystem.recoverVariable. rewrite Hact. reflexivity. }
  assert (E2 : WellSystem.bget xw' w =
               WellSystem.block_umv (invert (WellSystem.block_of D w)) (WellSystem.bget (WellSystem.mmv C x resWell) w) (repeat 0 n)).
  { rewrite E1, mv_diagonal;
      [|apply localInvert_diagonal; exact Hdiag|rewrite localInvert_length; lia|exact Hw].
    rewrite localInvert_block by (try exact Hdiag; lia). now rewrite Hnx. }
  split; [exact E1|]. split; [exact E2|].
  assert (Hlx : length xw' = length xw) by (rewrite E1; apply mv_length).
  assert (Hlb : length (WellSystem.bget xw' w) = n) by (rewrite E2, block_umv_length; apply repeat_length).
  assert (Hlr : length (WellSystem.bget (WellSystem.mmv C x resWell) w) = n)
    by (rewrite mmv_block_length by lia; exact Hnr).
  rewrite umv_get; [|rewrite mv_length; lia|].
  2:{ rewrite mv_diagonal by (try exact Hdiag; lia).
      rewrite block_umv_length, repeat_length. lia. }
  rewrite mv_diagonal by (try exact Hdiag; lia).
  rewrite Hlb, E2, (Hinv _ k Hlr Hk).
  rewrite mmv_get by lia. lra.
Qed.

Lemma recoverVariable_back_substitution_witness :
  let xw' := WellSystem.recoverVariable WellExample.toyModel WellExample.toyWells
               (WellSystem.mkWellMatrices WellSystemExample.toyC
                  (WellSystem.localInvert WellSystemExample.invert2 WellSystemExample.toyD)
                  WellSystemExample.toyResWell)
               WellSystemExample.toyX WellSystemExample.toyXw in
  WellModel.localWellsActive WellExample.toyModel WellExample.toyWells = true /\
  WellSystem.diagonal WellSystemExample.toyD /\
  vget (WellSystem.bget
          (WellSystem.umv WellSystemExample.toyC WellSystemExample.toyX
             (WellSystem.mv WellSystemExample.toyD xw' xw')) 0) 0
  == vget (WellSystem.bget WellSystemExample.toyResWell 0) 0.
Proof.
  assert (Hd : WellSystem.diagonal WellSystemExample.toyD).
  { intros w row. destruct w as [|[|w]]; simpl; intros E; inversion E; eexists; reflexivity. }
  split; [reflexivity|]. split; [exact Hd|].
  refine (proj2 (proj2 (recoverVariable_back_substitution WellExample.toyModel
            WellExample.toyWells WellSystemExample.invert2 WellSystemExample.toyC
            WellSystemExample.toyD WellSystemExample.toyResWell WellSystemExample.toyX
            WellSystemExample.toyXw 2 0 0 eq_refl Hd eq_refl eq_refl
            ltac:(simpl; lia) eq_refl eq_refl ltac:(lia) _))).
  intros r j Hr Hj.
  destruct r as [|r0 [|r1 [|r2 r]]]; try discriminate.
  destruct j as [|[|j]]; [| |lia].
  - exact (ltac:(field) :
      0 + 2 * (0 + 1 / (2 * 1 - 1 * 1) * r0 + - (1) / (2 * 1 - 1 * 1) * r1) +
      1 * (0 + - (1) / (2 * 1 - 1 * 1) * r0 + 2 / (2 * 1 - 1 * 1) * r1) == r0).
  - exact (ltac:(field) :
      0 + 1 * (0 + 1 / (2 * 1 - 1 * 1) * r0 + - (1) / (2 * 1 - 1 * 1) * r1) +
      1 * (0 + - (1) / (2 * 1 - 1 * 1) * r0 + 2 / (2 * 1 - 1 * 1) * r1) == r1).
Defined.

Section WellSolveFacts.
Import WellSystem WellSolve.
Context {Coll Lin : Type}.
Variable O : Ops Coll Lin.

Lemma fold_left_keep {A B : Type} (l : list B) (a : A) :
  fold_left (fun x _ => x) l a = a.
Proof. induction l as [|b l IH]; [reflexivity|exact IH]. Qed.

Lemma fold_result_inv {A B : Type} (P : A -> A -> Prop) (f : A -> B -> Result A) :
  (forall a, P a a) ->
  (forall a b c, P a b -> P b c -> P a c) ->
  (forall a b a', f a b = Ok a' -> P a a') ->
  forall l a a', fold_result f l a = Ok a' -> P a a'.
Proof.
  intros Hrefl Htrans Hstep l. induction l as [|b l IH]; intros a a' H; cbn in H.
  - injection H as <-. apply Hrefl.
  - destruct (f a b) as [a1|e] eqn:E; [|discriminate].
    eapply Htrans; [eapply Hstep; exact E|apply IH; exact H].
Qed.

Lemma fold_result_ok {A B : Type} (f : A -> B -> Result A) :
  (forall a b, exists a', f a b = Ok a') ->
  forall l a, exists a', fold_result f l a = Ok a'.
Proof.
  intros Hstep l. induction l as [|b l IH]; intros a; cbn.
  - eexists; reflexivity.
  - destruct (Hstep a b) as [a1 ->]. apply IH.
Qed.

Lemma fold_left_inv {A B : Type} (P : A -> A -> Prop) (f : A -> B -> A) :
  (forall a, P a a) ->
  (forall a b c, P a b -> P b c -> P a c) ->
  (forall a b, P a (f a b)) ->
  forall l a, P a (fold_left f l a).
Proof.
  intros Hrefl Htrans Hstep l. induction l as [|b l IH]; intros a; cbn.
  - apply Hrefl.
  - eapply Htrans; [apply Hstep|apply IH].
Qed.

Lemma wells_only_frame_refl (s : Sys Coll Lin) : wells_only_frame s s.
Proof. unfold wells_only_frame. repeat split. Qed.

Lemma wells_only_frame_trans (s1 s2 s3 : Sys Coll Lin) :
  wells_only_frame s1 s2 -> wells_only_frame s2 s3 -> wells_only_frame s1 s3.
Proof.
  unfold wells_only_frame. intros H1 H2.
  decompose [and] H1. decompose [and] H2. repeat split; congruence.
Qed.

Lemma assemble_component_frame w perf cell_idx cq_s s componentIdx :
  wells_only_frame s (assemble_component O true w perf cell_idx cq_s s componentIdx).
Proof.
  unfold assemble_component, wells_only_frame. cbn [negb lin wells coll wellVariables_ well_state].
  rewrite fold_left_keep. cbn [fst].
  destruct (_ && _); repeat split.
Qed.

Lemma assemble_perforation_frame w s perf s' :
  assemble_perforation O true w s perf = Ok s' -> wells_only_frame s s'.
Proof.
  unfold assemble_perforation. destruct (WellFlux.perforation_flux _ _ _) as [cq_s|e]; [|discriminate].
  intros H. injection H as <-.
  set (s1 := fold_left _ _ s).
  assert (H1 : wells_only_frame s s1).
  { apply (fold_left_inv (@wells_only_frame Coll Lin)); auto using wells_only_frame_refl, assemble_component_frame.
    apply wells_only_frame_trans. }
  cbn [negb].
  unfold wells_only_frame in *. cbn. decompose [and] H1.
  destruct (has_polymer_ O); repeat split; assumption.
Qed.

Lemma assemble_well_frame dt s w s' :
  assemble_well O dt true s w = Ok s' -> wells_only_frame s s'.
Proof.
  unfold assemble_well.
  destruct (fold_result _ _ s) as [s1|e] eqn:E; [|discriminate].
  intros H. injection H as <-.
  assert (H1 : wells_only_frame s s1).
  { revert E. apply (fold_result_inv (@wells_only_frame Coll Lin)); auto using wells_only_frame_refl.
    - apply wells_only_frame_trans.
    - intros a b a'. apply assemble_perforation_frame. }
  unfold wells_only_frame in *. cbn. exact H1.
Qed.

(** With [only_wells = true], [assembleWellEq] does not write to the
    residual and the matrix of the grid simulator. *)
Lemma assembleWellEq_frame dt s s' :
  assembleWellEq O dt true s = Ok s' -> wells_only_frame s s'.
Proof.
  unfold assembleWellEq.
  destruct (fold_result _ _ _) as [s1|e] eqn:E; [|discriminate].
  intros H. injection H as <-.
  pose proof (fold_result_inv (@wells_only_frame Coll Lin) (assemble_well O dt true)
                wells_only_frame_refl wells_only_frame_trans
                (fun a b a' => assemble_well_frame dt a b a') _ _ _ E) as H1.
  unfold wells_only_frame in *. cbn in *. exact H1.
Qed.

Lemma perforation_flux_returns s w perf :
  flux_defined O -> exists cq_s, WellFlux.perforation_flux (flux_model O s) w perf = Ok cq_s.
Proof.
  intros Hd. unfold WellFlux.perforation_flux, WellFlux.computeWellFlux.
  destruct (Qltb 0 _).
  - destruct (_ && _); eexists; reflexivity.
  - destruct (_ && _); [eexists; reflexivity|].
    unfold WellFlux.injecting_rates.
    destruct (_ && _); [|eexists; reflexivity].
    cbn [WellFlux.cachedIntensiveQuantities flux_model].
    rewrite (Hd (cell_of (WellFlux.wells (flux_model O s)) perf)).
    eexists; reflexivity.
Qed.

Lemma assembleWellEq_returns dt only_wells s :
  flux_defined O -> exists s', assembleWellEq O dt only_wells s = Ok s'.
Proof.
  intros Hd. unfold assembleWellEq.
  destruct (fold_result_ok (assemble_well O dt only_wells)) with
    (l := seq 0 (number_of_wells (wells s)))
    (a := mkSys (lin s) (well_state s) (wells s) (coll s) (wellVariables_ s)
                (mat_clear (duneB_ s)) (mat_clear (duneC_ s))
                (mat_clear (invDuneD_ s)) (duneD_ s) (vec_clear (resWell_ s)))
    as [s1 ->]; [|eexists; reflexivity].
  intros a w. unfold assemble_well.
  destruct (fold_result_ok (assemble_perforation O only_wells w)) with
    (l := WellFlux.perforations (wells a) w) (a := a) as [s1 ->]; [|eexists; reflexivity].
  intros a' perf. unfold assemble_perforation.
  destruct (perforation_flux_returns a' w perf Hd) as [cq_s ->]. eexists; reflexivity.
Qed.





(** More fuel than the cap of the loop does not change its result. *)
Lemma well_loop_fuel dt : forall fuel it s,
  (0 <= it < 15)%Z -> (15 - it <= Z.of_nat fuel)%Z ->
  well_loop O fuel dt it s = well_loop O (Z.to_nat (15 - it)) dt it s.
Proof.
  induction fuel as [|fuel IH]; intros it s Hit Hfuel; [lia|].
  replace (Z.to_nat (15 - it)) with (S (Z.to_nat (15 - (it + 1)))) by lia.
  cbn [well_loop].
  destruct (assembleWellEq O dt true s) as [s1|e]; [|reflexivity].
  destruct (getWellConvergence O s1 it) as [conv|e]; [|reflexivity].
  destruct (if WellModel.groupControlActive _ _ then _ else conv); [reflexivity|].
  destruct (it + 1 <? 15)%Z eqn:E3; [|reflexivity].
  apply Z.ltb_lt in E3. apply IH; lia.
Qed.


End WellSolveFacts.





Section ConvergedBranchFacts.
Import NonlinearIteration.
Context {RS WS Ebos WM Timer : Type}.
Variable o : Ops (RS := RS) (WS := WS) (Ebos := Ebos) (WM := WM) (Timer := Timer).

(** A loop nest that ran through without an exception ends with the state
    left by one of its passes. *)
Lemma for_each_last
  (body : nat * nat * nat -> @Branch WS Ebos WM -> option Exception * @Branch WS Ebos WM)
  (ks : list (nat * nat * nat)) : forall b b',
  ks <> [] -> for_each body ks b = (None, b') ->
  exists k b0, In k ks /\ body k b0 = (None, b').
Proof.
  induction ks as [|k ks IH]; intros b b' Hne H; [congruence|].
  cbn [for_each] in H. destruct (body k b) as [[ex|] b1] eqn:E; [discriminate|].
  destruct ks as [|k' ks'].
  - cbn in H. injection H as <-. exists k, b. split; [now left|exact E].
  - destruct (IH b1 b' ltac:(discriminate) H) as (k0 & b0 & Hin & Hb).
    exists k0, b0. split; [now right|exact Hb].
Qed.

Lemma cell_pass_well_state iteration dt rs k b :
  b_well_state (snd (cell_pass o iteration dt rs k b)) = b_well_state b.
Proof.
  unfold cell_pass. destruct k as [[cell_block stateType] i].
  destruct (relinearize o _ _ _ _ _ _) as [[ex e] wm]. reflexivity.
Qed.

(** A pass over a well ends with a linearization at the reservoir state
    [rs] the check was started with. *)
Lemma well_pass_relinearized iteration dt rs k b b' :
  well_pass o iteration dt rs k b = (None, b') ->
  relinearize o iteration dt rs (b_well_state b) (b_ebos b) (b_well_model b)
  = (None, b_ebos b', b_well_model b').
Proof.
  unfold well_pass. destruct k as [[well stateType] i].
  destruct (relinearize o _ _ _ _ _ _) as [[ex e] wm].
  intros H. injection H as -> <-. reflexivity.
Qed.

Lemma jacobian_check_relinearized iteration dt rs b b' :
  jacobian_check o iteration dt rs b = (None, b') ->
  exists tmpWellState e wm,
    relinearize o iteration dt rs tmpWellState e wm = (None, b_ebos b', b_well_model b').
Proof.
  unfold jacobian_check.
  destruct (for_each (cell_pass o iteration dt rs) (passes 9 2) b) as [[ex|] b1];
    cbn beta iota; [discriminate|].
  intros H.
  assert (Hne : passes 2 3 <> []) by (cbv; discriminate).
  destruct (for_each_last (well_pass o iteration dt rs) (passes 2 3) b1 b' Hne H)
    as (k & b0 & _ & Hk).
  apply well_pass_relinearized in Hk. eauto.
Qed.

Lemma after_assemble_reservoir_state iteration timer w :
  reservoir_state (snd (after_assemble o iteration timer w)) = reservoir_state w.
Proof.
  unfold after_assemble, begin_iteration.
  destruct (iteration =? 0)%Z; cbn [reservoir_state well_state ebosSimulator_ well_model_];
    destruct (assemble o _ _ _ _ _ _) as [[[[ra|ex] ws] e] wm]; reflexivity.
Qed.

End ConvergedBranchFacts.

(** C1, as amended.  In a call of [nonlinearIteration] whose convergence
    test succeeds, the remainder of the call leaves the reservoir state,
    the relaxation factor and the stored update as they are.  It is not a
    no-op: it runs the comparison of the Jacobian with central differences,
    which linearizes the grid simulator again and assembles the well
    equations again, pass after pass; when no pass throws, the call returns
    the report with [converged = true], and the grid simulator and the well
    model are left as the last of these linearizations, taken at the
    unchanged reservoir state, leaves them. *)
Theorem nonlinearIteration_converged_branch
  {RS WS Ebos WM Timer : Type}
  (o : NonlinearIteration.Ops (RS := RS) (WS := WS) (Ebos := Ebos) (WM := WM) (Timer := Timer))
  (iteration : Z) (timer : Timer) (w : NonlinearIteration.World) (report : SimulatorReport)
  (Hasm : fst (NonlinearIteration.after_assemble o iteration timer w) = Ok report)
  (Hconv : NonlinearIteration.convergence_test o iteration timer
             (snd (NonlinearIteration.after_assemble o iteration timer w)) = Ok true) :
  let w1 := snd (NonlinearIteration.after_assemble o iteration timer w) in
  let out := NonlinearIteration.nonlinearIteration o iteration timer w in
  let dt := NonlinearIteration.currentStepLength o timer in
  NonlinearIteration.reservoir_state (snd out) = NonlinearIteration.reservoir_state w1 /\
  NonlinearIteration.reservoir_state w1 = NonlinearIteration.reservoir_state w /\
  NonlinearIteration.current_relaxation_ (snd out)
  = NonlinearIteration.current_relaxation_ w1 /\
  NonlinearIteration.dx_old_ (snd out) = NonlinearIteration.dx_old_ w1 /\
  (forall rep, fst out = Ok rep ->
     rep = set_converged true report /\
     exists tmpWellState e wm,
       NonlinearIteration.relinearize o iteration dt
         (NonlinearIteration.reservoir_state w) tmpWellState e wm
       = (None, NonlinearIteration.ebosSimulator_ (snd out),
          NonlinearIteration.well_model_ (snd out))).
Proof.
  intros w1 out dt.
  pose proof (after_assemble_reservoir_state o iteration timer w) as Hrs. fold w1 in Hrs.
  assert (Hout : out =
    NonlinearIteration.converged_branch o iteration timer (set_converged true report)
      (NonlinearIteration.mkWorld
         (NonlinearIteration.reservoir_state w1) (NonlinearIteration.well_state w1)
         (NonlinearIteration.ebosSimulator_ w1) (NonlinearIteration.well_model_ w1)
         (NonlinearIteration.residual_norms_history_ w1 ++
            [map (Convergence.CNV (NonlinearIteration.norms o w1) dt)
                 (seq 0 (Convergence.numComponents (NonlinearIteration.conv_model o)))])
         (NonlinearIteration.current_relaxation_ w1) (NonlinearIteration.dx_old_ w1)
         (NonlinearIteration.failureReport_ w1))).
  { unfold out, NonlinearIteration.nonlinearIteration.
    fold w1 in Hconv.
    destruct (NonlinearIteration.after_assemble o iteration timer w) as [r0 w0] eqn:E.
    cbn [fst snd] in *. subst w1. rewrite Hasm. cbn [snd] in Hconv |- *.
    rewrite Hconv. reflexivity. }
  rewrite Hout. unfold NonlinearIteration.converged_branch.
  cbn [NonlinearIteration.reservoir_state NonlinearIteration.well_state
       NonlinearIteration.ebosSimulator_ NonlinearIteration.well_model_
       NonlinearIteration.current_relaxation_ NonlinearIteration.dx_old_].
  fold dt.
  destruct (NonlinearIteration.jacobian_check o iteration dt _ _) as [ex b] eqn:Ej.
  cbn [fst snd NonlinearIteration.reservoir_state NonlinearIteration.ebosSimulator_
       NonlinearIteration.well_model_ NonlinearIteration.current_relaxation_
       NonlinearIteration.dx_old_].
  split; [reflexivity|]. split; [exact Hrs|]. split; [reflexivity|].
  split; [reflexivity|].
  intros rep Hrep. destruct ex; [discriminate|]. injection Hrep as <-.
  split; [reflexivity|].
  rewrite Hrs in Ej. exact (jacobian_check_relinearized o _ _ _ _ _ Ej).
Qed.

Lemma nonlinearIteration_converged_branch_witness :
  let out := NonlinearIteration.nonlinearIteration NewtonExample.toyOps 1 1
               NewtonExample.toyWorld in
  fst (NonlinearIteration.after_assemble NewtonExample.toyOps 1 1 NewtonExample.toyWorld)
  = Ok (mkReport false 1 0 0 0) /\
  NonlinearIteration.convergence_test NewtonExample.toyOps 1 1
    (snd (NonlinearIteration.after_assemble NewtonExample.toyOps 1 1
            NewtonExample.toyWorld)) = Ok true /\
  NonlinearIteration.reservoir_state (snd out)
  = NonlinearIteration.reservoir_state NewtonExample.toyWorld.
Proof.
  assert (Ha : fst (NonlinearIteration.after_assemble NewtonExample.toyOps 1 1
                      NewtonExample.toyWorld) = Ok (mkReport false 1 0 0 0))
    by (vm_compute; reflexivity).
  assert (Hc : NonlinearIteration.convergence_test NewtonExample.toyOps 1 1
                 (snd (NonlinearIteration.after_assemble NewtonExample.toyOps 1 1
                         NewtonExample.toyWorld)) = Ok true)
    by (vm_compute; reflexivity).
  split; [exact Ha|]. split; [exact Hc|].
  destruct (nonlinearIteration_converged_branch NewtonExample.toyOps 1 1
              NewtonExample.toyWorld _ Ha Hc) as (H1 & H2 & _).
  cbv zeta. rewrite H1. exact H2.
Defined.

(** The claim as it was stated fails: on the example the convergence test
    succeeds, and the remainder of the call changes the grid simulator (48
    more linearizations) and the well state. *)
Lemma nonlinearIteration_converged_branch_changes_state :
  let w1 := snd (NonlinearIteration.after_assemble NewtonExample.toyOps 1 1
                   NewtonExample.toyWorld) in
  let out := NonlinearIteration.nonlinearIteration NewtonExample.toyOps 1 1
               NewtonExample.toyWorld in
  NonlinearIteration.convergence_test NewtonExample.toyOps 1 1 w1 = Ok true /\
  fst out = Ok (mkReport true 1 0 0 0) /\
  NonlinearIteration.ebosSimulator_ w1 = 0%Z /\
  NonlinearIteration.ebosSimulator_ (snd out) = 48%Z /\
  NonlinearIteration.ebosSimulator_ (snd out) <> NonlinearIteration.ebosSimulator_ w1 /\
  NonlinearIteration.well_state (snd out) <> NonlinearIteration.well_state w1.
Proof.
  vm_compute. repeat split; discriminate.
Qed.

Lemma nonlinearIteration_converged_iff_witness :
  let w1 := snd (NonlinearIteration.after_assemble NewtonExample.toyOps 1 1
                   NewtonExample.toyWorld) in
  let n := NonlinearIteration.norms NewtonExample.toyOps w1 in
  ~ Convergence.pvSum n == 0 /\
  forall c, (c < 3)%nat ->
    Convergence.mass_balance_residual n 1 c < 1 # 1000000 /\
    Convergence.well_flux_residual n c < 1 # 10000.
Proof.
  assert (Hret : NonlinearIteration.nonlinearIteration NewtonExample.toyOps 1 1
                   NewtonExample.toyWorld
                 = (Ok (mkReport true 1 0 0 0),
                    snd (NonlinearIteration.nonlinearIteration NewtonExample.toyOps 1 1
                           NewtonExample.toyWorld)))
    by (vm_compute; reflexivity).
  assert (Hpv : ~ Convergence.pvSum
                    (NonlinearIteration.norms NewtonExample.toyOps
                       (snd (NonlinearIteration.after_assemble NewtonExample.toyOps 1 1
                               NewtonExample.toyWorld))) == 0)
    by (vm_compute; discriminate).
  split; [exact Hpv|].
  exact (proj1 (proj1 (proj1 (nonlinearIteration_converged_iff NewtonExample.toyOps 1 1
                                NewtonExample.toyWorld _ _ Hret Hpv)) eq_refl)).
Defined.

(* ===================================================================== *)
(** * Part III: further properties of the embedded code                   *)
(* ===================================================================== *)

(** ** AdaptiveTimeStepping::stepImpl: the converged branch and the loop *)

(** X1.  After a sub step that converged, the timer is advanced and given
    a next length that is at most [max_growth_ * dt], and at most
    [growth_factor_ * dt] when the sub step came after a restart; the
    checkpoint becomes the state the solver left, and the restart counter
    is zero. *)
Theorem stepImpl_converged_substep_limits_growth
  {Solver State WState Timer : Type}
  (T : AdaptiveTimeStepping.TimerOps Timer)
  (S : AdaptiveTimeStepping.SolverOps Solver State WState Timer)
  (P : AdaptiveTimeStepping.Params)
  (l : AdaptiveTimeStepping.Loop (Solver := Solver) (State := State) (WState := WState))
  sv st wst rep
  (Hstep : AdaptiveTimeStepping.step S (AdaptiveTimeStepping.solver l)
             (AdaptiveTimeStepping.substepTimer l) (AdaptiveTimeStepping.state l)
             (AdaptiveTimeStepping.well_state l) = (sv, st, wst, Ok rep))
  (Hconv : converged rep = true) :
  let dt := AdaptiveTimeStepping.currentStepLength T (AdaptiveTimeStepping.substepTimer l) in
  exists est l',
    AdaptiveTimeStepping.substep T S P l = AdaptiveTimeStepping.Next l' /\
    AdaptiveTimeStepping.substepTimer l' =
      AdaptiveTimeStepping.setLastStepFailed T false
        (AdaptiveTimeStepping.provideTimeStepEstimate T est
           (AdaptiveTimeStepping.advance T (AdaptiveTimeStepping.substepTimer l))) /\
    est <= AdaptiveTimeStepping.max_growth_ P * dt /\
    ((0 < AdaptiveTimeStepping.restarts l)%Z ->
     est <= AdaptiveTimeStepping.growth_factor_ P * dt) /\
    AdaptiveTimeStepping.state l' = st /\
    AdaptiveTimeStepping.well_state l' = wst /\
    AdaptiveTimeStepping.last_state l' = st /\
    AdaptiveTimeStepping.last_well_state l' = wst /\
    AdaptiveTimeStepping.restarts l' = 0%Z /\
    AdaptiveTimeStepping.failureReport_ l' = AdaptiveTimeStepping.failureReport_ l.
Proof.
  intros dt.
  unfold AdaptiveTimeStepping.substep, AdaptiveTimeStepping.try_step.
  rewrite Hstep. cbn beta iota. rewrite Hconv.
  unfold AdaptiveTimeStepping.on_converged. fold dt.
  eexists. eexists. split; [reflexivity|].
  cbn [AdaptiveTimeStepping.substepTimer AdaptiveTimeStepping.state
       AdaptiveTimeStepping.well_state AdaptiveTimeStepping.last_state
       AdaptiveTimeStepping.last_well_state AdaptiveTimeStepping.restarts
       AdaptiveTimeStepping.failureReport_].
  split; [reflexivity|]. split.
  - destruct (0 <? AdaptiveTimeStepping.restarts l)%Z.
    + eapply Qle_trans; [apply std_min_r|apply std_min_r].
    + apply std_min_r.
  - split.
    + intros Hr. apply Z.ltb_lt in Hr. rewrite Hr. apply std_min_l.
    + repeat split.
Qed.

Lemma stepImpl_converged_substep_limits_growth_witness :
  exists est l',
    AdaptiveTimeStepping.substep AdaptiveExample.toyTimerOps AdaptiveExample.toySolverOps
      AdaptiveExample.toyParams
      (AdaptiveTimeStepping.mkLoop (AdaptiveExample.mkToyTimer 30 (99 # 10) false) 1%nat
         5%Z 6%Z 5%Z 6%Z 2%Z emptyReport emptyReport)
    = AdaptiveTimeStepping.Next l' /\
    est <= 2 * (99 # 10) /\
    AdaptiveTimeStepping.last_state l' = 6%Z /\
    AdaptiveTimeStepping.restarts l' = 0%Z.
Proof.
  destruct (stepImpl_converged_substep_limits_growth AdaptiveExample.toyTimerOps
              AdaptiveExample.toySolverOps AdaptiveExample.toyParams
              (AdaptiveTimeStepping.mkLoop (AdaptiveExample.mkToyTimer 30 (99 # 10) false)
                 1%nat 5%Z 6%Z 5%Z 6%Z 2%Z emptyReport emptyReport)
              2%nat 6%Z 7%Z (mkReport true 1 3 7 0) eq_refl eq_refl)
    as (est & l' & Hs & _ & _ & Hg & _ & _ & Hl & _ & Hr & _).
  exists est, l'. split; [exact Hs|]. split; [apply Hg; reflexivity|].
  split; [exact Hl|exact Hr].
Defined.

(** X2.  The suggested first sub step length is never negative for a
    report step of non-negative length and a non-negative restart factor:
    a negative stored suggestion is replaced by [restart_factor_ * timestep],
    and the length after an event is used only when it is positive. *)
Theorem stepImpl_initial_suggestion_nonneg (P : AdaptiveTimeStepping.Params)
  (suggested_next_timestep_ timestep : Q) (event : bool)
  (Hts : 0 <= timestep)
  (Hrf : 0 <= AdaptiveTimeStepping.restart_factor_ P) :
  0 <= AdaptiveTimeStepping.initial_suggestion P suggested_next_timestep_ timestep event.
Proof.
  unfold AdaptiveTimeStepping.initial_suggestion.
  destruct (event && Qltb 0 (AdaptiveTimeStepping.timestep_after_event_ P)) eqn:Ee.
  - apply andb_true_iff in Ee. destruct Ee as [_ Ee]. apply Qltb_lt in Ee. lra.
  - destruct (AdaptiveTimeStepping.full_timestep_initially_ P); [exact Hts|].
    destruct (Qltb suggested_next_timestep_ 0) eqn:Es.
    + apply Qmult_le_0_compat; assumption.
    + now apply Qltb_ge in Es.
Qed.

Lemma stepImpl_initial_suggestion_nonneg_witness :
  0 <= AdaptiveTimeStepping.initial_suggestion AdaptiveExample.toyParams (- 1) 30 true.
Proof.
  apply (stepImpl_initial_suggestion_nonneg AdaptiveExample.toyParams (- 1) 30 true);
    vm_compute; discriminate.
Defined.

(** X3.  When the sub step loop ends without an exception, the sub step
    timer is done. *)
Theorem stepImpl_loop_ends_with_timer_done
  {Solver State WState Timer : Type}
  (T : AdaptiveTimeStepping.TimerOps Timer)
  (S : AdaptiveTimeStepping.SolverOps Solver State WState Timer)
  (P : AdaptiveTimeStepping.Params) (fuel : nat) :
  forall (l l' : AdaptiveTimeStepping.Loop (Solver := Solver) (State := State)
                   (WState := WState)),
  AdaptiveTimeStepping.substep_loop T S P fuel l = Some (AdaptiveTimeStepping.Next l') ->
  AdaptiveTimeStepping.done T (AdaptiveTimeStepping.substepTimer l') = true.
Proof.
  induction fuel as [|fuel IH]; intros l l' H; cbn [AdaptiveTimeStepping.substep_loop] in H.
  - destruct (AdaptiveTimeStepping.done T _) eqn:E; [|discriminate].
    injection H as <-. exact E.
  - destruct (AdaptiveTimeStepping.done T _) eqn:E.
    + injection H as <-. exact E.
    + destruct (AdaptiveTimeStepping.substep T S P l) as [l1|l1|e l1]; try discriminate.
      exact (IH l1 l' H).
Qed.

Lemma stepImpl_loop_ends_with_timer_done_witness :
  exists l',
    AdaptiveTimeStepping.substep_loop AdaptiveExample.toyTimerOps
      AdaptiveExample.toySolverOps AdaptiveExample.toyParams 10 AdaptiveExample.toyLoop
    = Some (AdaptiveTimeStepping.Next l') /\
    AdaptiveTimeStepping.done AdaptiveExample.toyTimerOps
      (AdaptiveTimeStepping.substepTimer l') = true.
Proof.
  eexists. split; [vm_compute; reflexivity|].
  eapply (stepImpl_loop_ends_with_timer_done AdaptiveExample.toyTimerOps
            AdaptiveExample.toySolverOps AdaptiveExample.toyParams 10
            AdaptiveExample.toyLoop).
  vm_compute. reflexivity.
Defined.

(** X4.  The restart counter stays between zero and [solver_restart_max_]
    during the sub step loop, however the loop ends. *)
Theorem stepImpl_restarts_bounded
  {Solver State WState Timer : Type}
  (T : AdaptiveTimeStepping.TimerOps Timer)
  (S : AdaptiveTimeStepping.SolverOps Solver State WState Timer)
  (P : AdaptiveTimeStepping.Params) (fuel : nat) :
  forall (l : AdaptiveTimeStepping.Loop (Solver := Solver) (State := State)
                (WState := WState)) b,
  (0 <= AdaptiveTimeStepping.restarts l <= AdaptiveTimeStepping.solver_restart_max_ P)%Z ->
  AdaptiveTimeStepping.substep_loop T S P fuel l = Some b ->
  let l' := match b with
            | AdaptiveTimeStepping.Next l' => l'
            | AdaptiveTimeStepping.Fatal l' => l'
            | AdaptiveTimeStepping.Escaped _ l' => l'
            end in
  (0 <= AdaptiveTimeStepping.restarts l' <= AdaptiveTimeStepping.solver_restart_max_ P)%Z.
Proof.
  assert (Hstep : forall l : AdaptiveTimeStepping.Loop,
    (0 <= AdaptiveTimeStepping.restarts l <= AdaptiveTimeStepping.solver_restart_max_ P)%Z ->
    match AdaptiveTimeStepping.substep T S P l with
    | AdaptiveTimeStepping.Next l' | AdaptiveTimeStepping.Fatal l'
    | AdaptiveTimeStepping.Escaped _ l' =>
        (0 <= AdaptiveTimeStepping.restarts l'
         <= AdaptiveTimeStepping.solver_restart_max_ P)%Z
    end).
  { intros l Hl. unfold AdaptiveTimeStepping.substep.
    destruct (AdaptiveTimeStepping.try_step S l) as [[[[[sv st] wst] sr] rep] [e|]].
    - exact Hl.
    - destruct (converged sr).
      + cbn. lia.
      + unfold AdaptiveTimeStepping.on_failure.
        destruct (AdaptiveTimeStepping.solver_restart_max_ P
                  <=? AdaptiveTimeStepping.restarts l)%Z eqn:E.
        * exact Hl.
        * apply Z.leb_gt in E. cbn. lia. }
  induction fuel as [|fuel IH]; intros l b Hl H;
    cbn [AdaptiveTimeStepping.substep_loop] in H.
  - destruct (AdaptiveTimeStepping.done T _); [|discriminate].
    injection H as <-. exact Hl.
  - destruct (AdaptiveTimeStepping.done T _).
    + injection H as <-. exact Hl.
    + specialize (Hstep l Hl).
      destruct (AdaptiveTimeStepping.substep T S P l) as [l1|l1|e l1].
      * exact (IH l1 b Hstep H).
      * injection H as <-. exact Hstep.
      * injection H as <-. exact Hstep.
Qed.

Lemma stepImpl_restarts_bounded_witness :
  exists l',
    AdaptiveTimeStepping.substep_loop AdaptiveExample.toyTimerOps
      AdaptiveExample.toySolverOps AdaptiveExample.toyParams 10 AdaptiveExample.toyLoop
    = Some (AdaptiveTimeStepping.Next l') /\
    (0 <= AdaptiveTimeStepping.restarts l' <= 10)%Z.
Proof.
  eexists. split; [vm_compute; reflexivity|].
  match goal with
  | |- (0 <= AdaptiveTimeStepping.restarts ?x <= _)%Z =>
      exact (stepImpl_restarts_bounded AdaptiveExample.toyTimerOps
               AdaptiveExample.toySolverOps AdaptiveExample.toyParams 10
               AdaptiveExample.toyLoop (AdaptiveTimeStepping.Next x)
               ltac:(vm_compute; split; discriminate) ltac:(vm_compute; reflexivity))
  end.
Defined.

(** ** BlackoilModelEbos::updateState: the chop and the other switches *)

(** X5.  With the gas phase active, the Appleyard chop moves saturation
    between the phases only: the oil saturation takes the negated sum of
    the chopped water, gas and solvent updates, so the sum of the four
    saturations of a cell is the same before and after the chop. *)
Theorem updateState_chop_preserves_saturation_sum
  (m : UpdateState.Model) (dxc : list Q) (c : UpdateState.Cell)
  (Hgas : UpdateState.active_Gas m = true) :
  let c1 := UpdateState.chopCell m dxc c in
  UpdateState.sw c1 + UpdateState.so c1 + UpdateState.sg c1 + UpdateState.ssol c1
  == UpdateState.sw c + UpdateState.so c + UpdateState.sg c + UpdateState.ssol c.
Proof.
  cbn [UpdateState.chopCell UpdateState.sw UpdateState.so UpdateState.sg UpdateState.ssol].
  rewrite Hgas. unfold UpdateState.dso, UpdateState.dsw, UpdateState.dss.
  destruct (UpdateState.active_Water m); destruct (UpdateState.has_solvent_ m); ring.
Qed.

Lemma updateState_chop_preserves_saturation_sum_witness :
  let c1 := UpdateState.chopCell UpdateStateExample.toyModel UpdateStateExample.gasUpdate
              UpdateStateExample.gasCell in
  UpdateState.sw c1 + UpdateState.so c1 + UpdateState.sg c1 + UpdateState.ssol c1
  == (3 # 10) + 0 + (6 # 10) + (1 # 10).
Proof.
  exact (updateState_chop_preserves_saturation_sum UpdateStateExample.toyModel
           UpdateStateExample.gasUpdate UpdateStateExample.gasCell eq_refl).
Defined.

(** X6.  A gas-and-oil cell that is not water filled and whose chopped gas
    saturation is not positive becomes OilOnly when dissolved gas is
    enabled: Sg is set to zero, So to what water and solvent leave, so that
    the saturations sum to one, and Rs is set just below its saturated
    value. *)
Theorem updateState_GasAndOil_to_OilOnly
  (m : UpdateState.Model) (dxc : list Q) (c : UpdateState.Cell)
  (Hgas : UpdateState.active_Gas m = true)
  (Hoil : UpdateState.active_Oil m = true)
  (Hdis : UpdateState.has_disgas_ m = true)
  (Htag : UpdateState.hydroCarbonState c = UpdateState.GasAndOil)
  (Hsw : UpdateState.sw (UpdateState.chopCell m dxc c) <= 1 - UpdateState.epsilon)
  (Hsg : UpdateState.sg (UpdateState.chopCell m dxc c) <= 0) :
  let c1 := UpdateState.chopCell m dxc c in
  let c' := UpdateState.updateCell m dxc c in
  let rsSat := UpdateState.saturatedGasDissolutionFactor m
                 (UpdateState.pvtRegionIndex c1) (UpdateState.temperature c1)
                 (UpdateState.pressure c1) in
  UpdateState.hydroCarbonState c' = UpdateState.OilOnly /\
  UpdateState.sg c' = 0 /\
  UpdateState.sw c' = UpdateState.sw c1 /\
  UpdateState.sw c' + UpdateState.so c' + UpdateState.sg c'
  + (if UpdateState.has_solvent_ m then UpdateState.ssol c' else 0) == 1 /\
  UpdateState.gasoilratio c' = rsSat * (1 - UpdateState.epsilon).
Proof.
  intros c1 c' rsSat. subst c'. unfold UpdateState.updateCell. fold c1.
  rewrite Hgas, Hoil. cbn [andb].
  assert (Ht : UpdateState.hydroCarbonState c1 = UpdateState.GasAndOil) by exact Htag.
  unfold UpdateState.switchCell. rewrite Ht.
  assert (E1 : Qltb (1 - UpdateState.epsilon) (UpdateState.sw c1) = false)
    by (apply Qltb_ge; exact Hsw).
  assert (E2 : Qle_bool (UpdateState.sg c1) 0 = true) by (apply Qle_bool_iff; exact Hsg).
  rewrite E1, E2, Hdis. cbn [andb].
  cbn [UpdateState.hydroCarbonState UpdateState.sg UpdateState.sw UpdateState.so
       UpdateState.ssol UpdateState.gasoilratio].
  repeat split. destruct (UpdateState.has_solvent_ m); ring.
Qed.

Lemma updateState_GasAndOil_to_OilOnly_witness :
  let c := UpdateState.mkCell 200 (3 # 10) (6 # 10) (1 # 10) 100 0
             UpdateState.GasAndOil 0 0 300 0 in
  let c' := UpdateState.updateCell UpdateStateExample.toyModel [0; 0; 2 # 10; 0] c in
  UpdateState.hydroCarbonState c' = UpdateState.OilOnly /\ UpdateState.sg c' = 0.
Proof.
  destruct (updateState_GasAndOil_to_OilOnly UpdateStateExample.toyModel
              [0; 0; 2 # 10; 0]
              (UpdateState.mkCell 200 (3 # 10) (6 # 10) (1 # 10) 100 0
                 UpdateState.GasAndOil 0 0 300 0)
              eq_refl eq_refl eq_refl eq_refl
              ltac:(vm_compute; discriminate) ltac:(vm_compute; discriminate))
    as (H1 & H2 & _).
  split; [exact H1|exact H2].
Defined.

(** X7.  A gas-and-oil cell that is not water filled, does not switch to
    OilOnly and whose chopped oil saturation is not positive becomes
    GasOnly when vaporized oil is enabled: So is set to zero, Sg to what
    water and solvent leave, and Rv just below its saturated value. *)
Theorem updateState_GasAndOil_to_GasOnly
  (m : UpdateState.Model) (dxc : list Q) (c : UpdateState.Cell)
  (Hgas : UpdateState.active_Gas m = true)
  (Hoil : UpdateState.active_Oil m = true)
  (Hvap : UpdateState.has_vapoil_ m = true)
  (Htag : UpdateState.hydroCarbonState c = UpdateState.GasAndOil)
  (Hsw : UpdateState.sw (UpdateState.chopCell m dxc c) <= 1 - UpdateState.epsilon)
  (Hsg : 0 < UpdateState.sg (UpdateState.chopCell m dxc c)
         \/ UpdateState.has_disgas_ m = false)
  (Hso : UpdateState.so (UpdateState.chopCell m dxc c) <= 0) :
  let c1 := UpdateState.chopCell m dxc c in
  let c' := UpdateState.updateCell m dxc c in
  let rvSat := UpdateState.saturatedOilVaporizationFactor m
                 (UpdateState.pvtRegionIndex c1) (UpdateState.temperature c1)
                 (UpdateState.pressure c1) in
  UpdateState.hydroCarbonState c' = UpdateState.GasOnly /\
  UpdateState.so c' = 0 /\
  UpdateState.sw c' = UpdateState.sw c1 /\
  UpdateState.sw c' + UpdateState.so c' + UpdateState.sg c'
  + (if UpdateState.has_solvent_ m then UpdateState.ssol c' else 0) == 1 /\
  UpdateState.rv c' = rvSat * (1 - UpdateState.epsilon).
Proof.
  intros c1 c' rvSat. subst c'. unfold UpdateState.updateCell. fold c1.
  rewrite Hgas, Hoil. cbn [andb].
  assert (Ht : UpdateState.hydroCarbonState c1 = UpdateState.GasAndOil) by exact Htag.
  unfold UpdateState.switchCell. rewrite Ht.
  assert (E1 : Qltb (1 - UpdateState.epsilon) (UpdateState.sw c1) = false)
    by (apply Qltb_ge; exact Hsw).
  assert (E2 : Qle_bool (UpdateState.sg c1) 0 && UpdateState.has_disgas_ m = false).
  { destruct Hsg as [Hpos| ->]; [|apply andb_false_r].
    apply andb_false_iff. left. apply not_true_iff_false. intros E.
    apply Qle_bool_iff in E. fold c1 in Hpos. lra. }
  assert (E3 : Qle_bool (UpdateState.so c1) 0 = true) by (apply Qle_bool_iff; exact Hso).
  rewrite E1, E2, E3, Hvap. cbn [andb].
  cbn [UpdateState.hydroCarbonState UpdateState.sg UpdateState.sw UpdateState.so
       UpdateState.ssol UpdateState.rv].
  repeat split. destruct (UpdateState.has_solvent_ m); ring.
Qed.

Lemma updateState_GasAndOil_to_GasOnly_witness :
  let c' := UpdateState.updateCell UpdateStateExample.toyModel
              UpdateStateExample.gasUpdate UpdateStateExample.gasCell in
  UpdateState.hydroCarbonState c' = UpdateState.GasOnly /\ UpdateState.so c' = 0.
Proof.
  destruct (updateState_GasAndOil_to_GasOnly UpdateStateExample.toyModel
              UpdateStateExample.gasUpdate UpdateStateExample.gasCell
              eq_refl eq_refl eq_refl eq_refl
              ltac:(vm_compute; discriminate) ltac:(left; vm_compute; reflexivity)
              ltac:(vm_compute; discriminate))
    as (H1 & H2 & _).
  split; [exact H1|exact H2].
Defined.

(** X8.  A cell that the chop leaves water filled ([sw > 1 - epsilon]) is
    tagged GasAndOil after the update, whatever its tag was, with the
    saturations of the chop; coming from OilOnly or GasOnly its Rs and Rv
    are reset to zero. *)
Theorem updateState_water_filled_cell
  (m : UpdateState.Model) (dxc : list Q) (c : UpdateState.Cell)
  (Hgas : UpdateState.active_Gas m = true)
  (Hoil : UpdateState.active_Oil m = true)
  (Hsw : 1 - UpdateState.epsilon < UpdateState.sw (UpdateState.chopCell m dxc c)) :
  let c1 := UpdateState.chopCell m dxc c in
  let c' := UpdateState.updateCell m dxc c in
  UpdateState.hydroCarbonState c' = UpdateState.GasAndOil /\
  UpdateState.sw c' = UpdateState.sw c1 /\
  UpdateState.so c' = UpdateState.so c1 /\
  UpdateState.sg c' = UpdateState.sg c1 /\
  (UpdateState.hydroCarbonState c <> UpdateState.GasAndOil ->
   UpdateState.gasoilratio c' = 0 /\ UpdateState.rv c' = 0).
Proof.
  intros c1 c'. subst c'. unfold UpdateState.updateCell. fold c1.
  rewrite Hgas, Hoil. cbn [andb].
  assert (Ht : UpdateState.hydroCarbonState c1 = UpdateState.hydroCarbonState c)
    by reflexivity.
  assert (E1 : Qltb (1 - UpdateState.epsilon) (UpdateState.sw c1) = true)
    by (apply Qltb_lt; exact Hsw).
  unfold UpdateState.switchCell. rewrite Ht, E1.
  destruct (UpdateState.hydroCarbonState c); cbn; repeat split; congruence.
Qed.

Lemma updateState_water_filled_cell_witness :
  let c := UpdateState.mkCell 200 (99995 # 100000) (5 # 100000) 0 50 0
             UpdateState.OilOnly 0 0 300 0 in
  let c' := UpdateState.updateCell UpdateStateExample.toyModel [0; 0; 0; 0] c in
  UpdateState.hydroCarbonState c' = UpdateState.GasAndOil /\
  UpdateState.gasoilratio c' = 0.
Proof.
  destruct (updateState_water_filled_cell UpdateStateExample.toyModel [0; 0; 0; 0]
              (UpdateState.mkCell 200 (99995 # 100000) (5 # 100000) 0 50 0
                 UpdateState.OilOnly 0 0 300 0)
              eq_refl eq_refl ltac:(vm_compute; reflexivity))
    as (H1 & _ & _ & _ & H5).
  split; [exact H1|]. apply H5. discriminate.
Defined.

(** X9.  For a cell in state GasOnly that is not water filled, the switch
    compares the updated Rv with [rvSat * (1 + epsilon)]: above it the cell
    becomes GasAndOil with So set to epsilon, Sg reduced by epsilon and Rv
    reset to rvSat; otherwise the cell stays as the chop left it. *)
Theorem updateState_GasOnly_to_GasAndOil
  (m : UpdateState.Model) (dxc : list Q) (c : UpdateState.Cell)
  (Hgas : UpdateState.active_Gas m = true)
  (Hoil : UpdateState.active_Oil m = true)
  (Htag : UpdateState.hydroCarbonState c = UpdateState.GasOnly)
  (Hsw : UpdateState.sw (UpdateState.chopCell m dxc c) <= 1 - UpdateState.epsilon) :
  let c1 := UpdateState.chopCell m dxc c in
  let c' := UpdateState.updateCell m dxc c in
  let rvSat := UpdateState.saturatedOilVaporizationFactor m
                 (UpdateState.pvtRegionIndex c1) (UpdateState.temperature c1)
                 (UpdateState.pressure c1) in
  (rvSat * (1 + UpdateState.epsilon) < UpdateState.rv c1 ->
   UpdateState.hydroCarbonState c' = UpdateState.GasAndOil /\
   UpdateState.so c' = UpdateState.epsilon /\
   UpdateState.sg c' = UpdateState.sg c1 - UpdateState.epsilon /\
   UpdateState.rv c' = rvSat /\
   UpdateState.gasoilratio c' = UpdateState.gasoilratio c1) /\
  (UpdateState.rv c1 <= rvSat * (1 + UpdateState.epsilon) -> c' = c1).
Proof.
  intros c1 c' rvSat. subst c'. unfold UpdateState.updateCell. fold c1.
  rewrite Hgas, Hoil. cbn [andb].
  assert (Ht : UpdateState.hydroCarbonState c1 = UpdateState.GasOnly) by exact Htag.
  assert (E1 : Qltb (1 - UpdateState.epsilon) (UpdateState.sw c1) = false)
    by (apply Qltb_ge; exact Hsw).
  unfold UpdateState.switchCell. rewrite Ht, E1. fold rvSat. split.
  - intros H. apply Qltb_lt in H. rewrite H. cbn. repeat split.
  - intros H. apply Qltb_ge in H. rewrite H. reflexivity.
Qed.

Lemma updateState_GasOnly_to_GasAndOil_witness :
  let c := UpdateState.mkCell 200 (3 # 10) 0 (7 # 10) 0 (1 # 100)
             UpdateState.GasOnly 0 0 300 0 in
  let c' := UpdateState.updateCell UpdateStateExample.toyModel [0; 0; 0; 0] c in
  UpdateState.hydroCarbonState c' = UpdateState.GasAndOil /\
  UpdateState.so c' = UpdateState.epsilon.
Proof.
  destruct (proj1 (updateState_GasOnly_to_GasAndOil UpdateStateExample.toyModel
                     [0; 0; 0; 0]
                     (UpdateState.mkCell 200 (3 # 10) 0 (7 # 10) 0 (1 # 100)
                        UpdateState.GasOnly 0 0 300 0)
                     eq_refl eq_refl eq_refl ltac:(vm_compute; discriminate))
                  ltac:(vm_compute; reflexivity))
    as (H1 & H2 & _).
  split; [exact H1|exact H2].
Defined.

(** X10.  One update never takes a cell from OilOnly to GasOnly or from
    GasOnly to OilOnly: the only way between the two is through
    GasAndOil. *)
Theorem updateState_no_direct_switch_between_single_phases
  (m : UpdateState.Model) (dxc : list Q) (c : UpdateState.Cell) :
  let c' := UpdateState.updateCell m dxc c in
  (UpdateState.hydroCarbonState c = UpdateState.OilOnly ->
   UpdateState.hydroCarbonState c' <> UpdateState.GasOnly) /\
  (UpdateState.hydroCarbonState c = UpdateState.GasOnly ->
   UpdateState.hydroCarbonState c' <> UpdateState.OilOnly).
Proof.
  cbv zeta. unfold UpdateState.updateCell.
  set (c1 := UpdateState.chopCell m dxc c).
  assert (Ht : UpdateState.hydroCarbonState c1 = UpdateState.hydroCarbonState c)
    by reflexivity.
  split; intros Htag;
    (destruct (UpdateState.active_Gas m && UpdateState.active_Oil m);
     [|rewrite Ht, Htag; discriminate]);
    unfold UpdateState.switchCell; rewrite Ht, Htag;
    destruct (Qltb (1 - UpdateState.epsilon) (UpdateState.sw c1));
    try (cbn; discriminate);
    match goal with
    | |- context [if ?b then _ else _] => destruct b
    end; cbn; rewrite ?Ht, ?Htag; discriminate.
Qed.

(** X11.  The chop clamps at zero: the polymer concentration and, with gas
    and oil active, the dissolved gas ratio and the vaporized oil ratio are
    not negative after it, whatever the update. *)
Theorem updateState_chop_clamps_at_zero
  (m : UpdateState.Model) (dxc : list Q) (c : UpdateState.Cell)
  (Hgas : UpdateState.active_Gas m = true)
  (Hoil : UpdateState.active_Oil m = true) :
  let c1 := UpdateState.chopCell m dxc c in
  (UpdateState.has_disgas_ m = true -> 0 <= UpdateState.gasoilratio c1) /\
  (UpdateState.has_vapoil_ m = true -> 0 <= UpdateState.rv c1) /\
  (UpdateState.has_polymer_ m = true -> 0 <= UpdateState.polymer c1).
Proof.
  cbn [UpdateState.chopCell UpdateState.gasoilratio UpdateState.rv UpdateState.polymer].
  rewrite Hgas, Hoil. cbn [andb].
  repeat split; intros ->; apply std_max_r.
Qed.

Lemma updateState_chop_clamps_at_zero_witness :
  0 <= UpdateState.gasoilratio
         (UpdateState.chopCell UpdateStateExample.toyModel [0; 0; 1000; 0]
            UpdateStateExample.oilCell).
Proof.
  exact (proj1 (updateState_chop_clamps_at_zero UpdateStateExample.toyModel
                  [0; 0; 1000; 0] UpdateStateExample.oilCell eq_refl eq_refl) eq_refl).
Defined.

(** ** BlackoilModelEbos::getConvergence: the failure and the reduction *)

(** X12.  The check of the residuals throws exactly when the mass balance
    residual, the CNV or the well flux residual of one of the phases is
    above [max_residual_allowed_]; what it throws is a numerical
    problem. *)
Theorem getConvergence_throws_iff_residual_too_large
  (m : Convergence.Model) (n : Convergence.Norms) (dt : Q) (iteration : Z)
  (e : Exception) :
  Convergence.decide_convergence m n dt iteration = Throw e <->
  e = NumericalProblem /\
  exists phaseIdx, (phaseIdx < Convergence.numPhases m)%nat /\
    (Convergence.max_residual_allowed_ m < Convergence.mass_balance_residual n dt phaseIdx \/
     Convergence.max_residual_allowed_ m < Convergence.CNV n dt phaseIdx \/
     Convergence.max_residual_allowed_ m < Convergence.well_flux_residual n phaseIdx).
Proof.
  unfold Convergence.decide_convergence.
  destruct (existsb _ _) eqn:E.
  - apply existsb_exists in E. destruct E as (p & Hin & Hp).
    apply in_seq in Hin. unfold Convergence.too_large in Hp.
    rewrite !orb_true_iff, !Qltb_lt in Hp.
    split.
    + intros H. injection H as <-. split; [reflexivity|].
      exists p. split; [lia|tauto].
    + intros [-> _]. reflexivity.
  - split; [discriminate|]. intros (_ & p & Hp & Hbig).
    apply not_true_iff_false in E. exfalso. apply E.
    apply existsb_exists. exists p. split; [apply in_seq; lia|].
    unfold Convergence.too_large. rewrite !orb_true_iff, !Qltb_lt. tauto.
Qed.

Lemma buffer_entry (f g : nat -> Q) (rest : list Q) (k : nat) : forall start c,
  (c < k)%nat ->
  vget (flat_map (fun c => [f c; g c]) (seq start k) ++ rest) (2 * c) = f (start + c)%nat /\
  vget (flat_map (fun c => [f c; g c]) (seq start k) ++ rest) (2 * c + 1)
  = g (start + c)%nat.
Proof.
  induction k as [|k IH]; intros start c Hc; [lia|].
  cbn [seq flat_map app].
  destruct c as [|c].
  - rewrite Nat.add_0_r. split; reflexivity.
  - replace (2 * S c)%nat with (S (S (2 * c))) by lia.
    replace (S (S (2 * c)) + 1)%nat with (S (S (2 * c + 1))) by lia.
    replace (start + S c)%nat with (S start + c)%nat by lia.
    exact (IH (S start) c ltac:(lia)).
Qed.

Lemma unpack_own (buf v : list Q) (off : nat) (k : nat) :
  (forall c, (c < k)%nat -> vget buf (2 * c + off) = vget v c) ->
  fold_left (fun acc c => <[c := vget buf (2 * c + off)]> acc) (seq 0 k) v = v.
Proof.
  intros H. induction k as [|k IH]; [reflexivity|].
  rewrite seq_S, fold_left_app. cbn [fold_left Nat.add].
  rewrite IH by (intros c Hc; apply H; lia).
  rewrite H by lia. unfold vget.
  destruct (v !! k) as [x|] eqn:E.
  - now apply list_insert_id.
  - apply lookup_ge_None in E. now apply list_insert_ge.
Qed.

(** X13.  The reduction packs the sums and the maxima of all components
    into two buffers and unpacks them after the communication; when the
    communication hands the buffers back as they are, the norms come out
    as they went in. *)
Theorem convergenceReduction_round_trip (cm : Convergence.Comm) (n : Convergence.Norms)
  (Hsum : forall v, Convergence.comm_sum cm v = v)
  (Hmax : forall v, Convergence.comm_max cm v = v) :
  Convergence.convergenceReduction cm n = n.
Proof.
  unfold Convergence.convergenceReduction.
  destruct (1 <? Convergence.comm_size cm)%nat; [|reflexivity].
  rewrite Hsum, Hmax. destruct n as [R B mC mW pv].
  cbn [Convergence.R_sum Convergence.B_avg Convergence.maxCoeff Convergence.maxNormWell
       Convergence.pvSum].
  set (k := length B).
  f_equal.
  - apply unpack_own. intros c Hc.
    exact (proj2 (buffer_entry (vget B) (vget R) [pv] k 0 c Hc)).
  - apply unpack_own. intros c Hc. rewrite Nat.add_0_r.
    exact (proj1 (buffer_entry (vget B) (vget R) [pv] k 0 c Hc)).
  - apply unpack_own. intros c Hc. rewrite Nat.add_0_r.
    pose proof (proj1 (buffer_entry (vget mC) (vget mW) [] k 0 c Hc)) as H.
    rewrite app_nil_r in H. exact H.
  - apply unpack_own. intros c Hc.
    pose proof (proj2 (buffer_entry (vget mC) (vget mW) [] k 0 c Hc)) as H.
    rewrite app_nil_r in H. exact H.
  - rewrite length_app, Nat.add_sub. cbn [length].
    unfold vget. rewrite lookup_app_r by lia. now rewrite Nat.sub_diag.
Qed.

Lemma convergenceReduction_round_trip_witness :
  Convergence.convergenceReduction
    (Convergence.mkComm 4 (fun v => v) (fun v => v))
    (Convergence.mkNorms [1; 2; 3] [4; 5; 6] [7; 8; 9] [10; 11; 12] 13)
  = Convergence.mkNorms [1; 2; 3] [4; 5; 6] [7; 8; 9] [10; 11; 12] 13.
Proof.
  apply (convergenceReduction_round_trip (Convergence.mkComm 4 (fun v => v) (fun v => v)));
    intros v; reflexivity.
Defined.

(** ** BlackoilModelEbos::nonlinearIteration: failures and bookkeeping *)

(** X14.  When [assemble] throws, [nonlinearIteration] passes the
    exception on: the reservoir state is as on entry, no convergence test
    is made and no norms are stored, and [failureReport_] holds the one
    linearization of the call. *)
Theorem nonlinearIteration_assemble_failure
  {RS WS Ebos WM Timer : Type}
  (o : NonlinearIteration.Ops (RS := RS) (WS := WS) (Ebos := Ebos) (WM := WM) (Timer := Timer))
  (iteration : Z) (timer : Timer) (w : NonlinearIteration.World) (ex : Exception)
  ws e wm
  (Hasm : NonlinearIteration.assemble o timer iteration
            (NonlinearIteration.reservoir_state w) (NonlinearIteration.well_state w)
            (NonlinearIteration.ebosSimulator_ w) (NonlinearIteration.well_model_ w)
          = (Throw ex, ws, e, wm)) :
  let out := NonlinearIteration.nonlinearIteration o iteration timer w in
  fst out = Throw ex /\
  NonlinearIteration.reservoir_state (snd out) = NonlinearIteration.reservoir_state w /\
  NonlinearIteration.well_state (snd out) = ws /\
  NonlinearIteration.residual_norms_history_ (snd out)
  = (if (iteration =? 0)%Z then [] else NonlinearIteration.residual_norms_history_ w) /\
  NonlinearIteration.failureReport_ (snd out) = mkReport false 1 0 0 0.
Proof.
  cbv zeta. unfold NonlinearIteration.nonlinearIteration, NonlinearIteration.after_assemble,
    NonlinearIteration.begin_iteration.
  destruct (iteration =? 0)%Z;
    cbn [NonlinearIteration.reservoir_state NonlinearIteration.well_state
         NonlinearIteration.ebosSimulator_ NonlinearIteration.well_model_];
    rewrite Hasm; cbn; repeat split.
Qed.

Lemma nonlinearIteration_assemble_failure_witness :
  fst (NonlinearIteration.nonlinearIteration NewtonExample.failingOps 1 1
         NewtonExample.toyWorld) = Throw LinearSolverProblem.
Proof.
  exact (proj1 (nonlinearIteration_assemble_failure NewtonExample.failingOps 1 1
                  NewtonExample.toyWorld LinearSolverProblem _ _ _ eq_refl)).
Defined.

(** X15.  The relaxation factor is never taken below [relaxMax]: it is
    reset to one at iteration zero, lowered only when oscillation is
    detected and then floored at [relaxMax], and left alone on every other
    path, the failing ones included. *)
Theorem nonlinearIteration_relaxation_floor
  {RS WS Ebos WM Timer : Type}
  (o : NonlinearIteration.Ops (RS := RS) (WS := WS) (Ebos := Ebos) (WM := WM) (Timer := Timer))
  (iteration : Z) (timer : Timer) (w : NonlinearIteration.World)
  (Hone : NonlinearIteration.relaxMax o <= 1)
  (Hcur : NonlinearIteration.relaxMax o <= NonlinearIteration.current_relaxation_ w) :
  NonlinearIteration.relaxMax o
  <= NonlinearIteration.current_relaxation_
       (snd (NonlinearIteration.nonlinearIteration o iteration timer w)).
Proof.
  unfold NonlinearIteration.nonlinearIteration.
  assert (H1 : NonlinearIteration.relaxMax o <=
               NonlinearIteration.current_relaxation_
                 (snd (NonlinearIteration.after_assemble o iteration timer w))).
  { unfold NonlinearIteration.after_assemble, NonlinearIteration.begin_iteration.
    destruct (iteration =? 0)%Z;
      cbn [NonlinearIteration.reservoir_state NonlinearIteration.well_state
           NonlinearIteration.ebosSimulator_ NonlinearIteration.well_model_];
      destruct (NonlinearIteration.assemble o _ _ _ _ _ _) as [[[[ra|ex] ws] e] wm];
      cbn; assumption. }
  destruct (NonlinearIteration.after_assemble o iteration timer w) as [[report|ex] w1];
    cbn [snd] in *; [|exact H1].
  destruct (NonlinearIteration.convergence_test o iteration timer w1) as [c|ex];
    [|exact H1].
  destruct c.
  - unfold NonlinearIteration.converged_branch.
    destruct (NonlinearIteration.jacobian_check o _ _ _ _) as [ex b]. cbn. exact H1.
  - unfold NonlinearIteration.newton_update.
    cbn [NonlinearIteration.ebosSimulator_ NonlinearIteration.well_model_
         NonlinearIteration.residual_norms_history_ NonlinearIteration.current_relaxation_
         NonlinearIteration.dx_old_ NonlinearIteration.reservoir_state
         NonlinearIteration.well_state NonlinearIteration.failureReport_].
    destruct (NonlinearIteration.solveJacobianSystem o _ _) as [[[x xw]|ex] its];
      [|cbn; exact H1].
    destruct (NonlinearIteration.detectOscillations o _ _) as [osc stag].
    destruct (NonlinearIteration.stabilizeNonlinearUpdate o _ _ _) as [x' dx_old'].
    cbn. destruct osc; [apply std_max_r|exact H1].
Qed.

Lemma nonlinearIteration_relaxation_floor_witness :
  1 # 2 <= NonlinearIteration.current_relaxation_
             (snd (NonlinearIteration.nonlinearIteration NewtonExample.toyOps 1 1
                     NewtonExample.toyWorld)).
Proof.
  apply (nonlinearIteration_relaxation_floor NewtonExample.toyOps 1 1
           NewtonExample.toyWorld); vm_compute; discriminate.
Defined.

(** X16.  A call whose assembly and convergence test return stores exactly
    one more vector of norms, in both branches, also when the linear solve
    of the Newton branch throws; at iteration zero the history is cleared
    first. *)
Theorem nonlinearIteration_history_grows_by_one
  {RS WS Ebos WM Timer : Type}
  (o : NonlinearIteration.Ops (RS := RS) (WS := WS) (Ebos := Ebos) (WM := WM) (Timer := Timer))
  (iteration : Z) (timer : Timer) (w : NonlinearIteration.World) report c
  (Hasm : fst (NonlinearIteration.after_assemble o iteration timer w) = Ok report)
  (Hconv : NonlinearIteration.convergence_test o iteration timer
             (snd (NonlinearIteration.after_assemble o iteration timer w)) = Ok c) :
  length (NonlinearIteration.residual_norms_history_
            (snd (NonlinearIteration.nonlinearIteration o iteration timer w)))
  = if (iteration =? 0)%Z then 1%nat
    else Datatypes.S (length (NonlinearIteration.residual_norms_history_ w)).
Proof.
  assert (H1 : length (NonlinearIteration.residual_norms_history_
                         (snd (NonlinearIteration.after_assemble o iteration timer w)))
               = if (iteration =? 0)%Z then 0%nat
                 else length (NonlinearIteration.residual_norms_history_ w)).
  { unfold NonlinearIteration.after_assemble, NonlinearIteration.begin_iteration.
    destruct (iteration =? 0)%Z;
      cbn [NonlinearIteration.reservoir_state NonlinearIteration.well_state
           NonlinearIteration.ebosSimulator_ NonlinearIteration.well_model_];
      destruct (NonlinearIteration.assemble o _ _ _ _ _ _) as [[[[ra|ex] ws] e] wm];
      reflexivity. }
  unfold NonlinearIteration.nonlinearIteration.
  destruct (NonlinearIteration.after_assemble o iteration timer w) as [r0 w1].
  cbn [fst snd] in *. subst r0. rewrite Hconv.
  assert (H2 : forall h : list Q,
            length (NonlinearIteration.residual_norms_history_ w1 ++ [h])
            = if (iteration =? 0)%Z then 1%nat
              else Datatypes.S (length (NonlinearIteration.residual_norms_history_ w))).
  { intros h. rewrite length_app, H1. cbn [length].
    destruct (iteration =? 0)%Z; lia. }
  destruct c.
  - unfold NonlinearIteration.converged_branch.
    destruct (NonlinearIteration.jacobian_check o _ _ _ _) as [ex b]. cbn. apply H2.
  - unfold NonlinearIteration.newton_update.
    cbn [NonlinearIteration.ebosSimulator_ NonlinearIteration.well_model_
         NonlinearIteration.residual_norms_history_ NonlinearIteration.current_relaxation_
         NonlinearIteration.dx_old_ NonlinearIteration.reservoir_state
         NonlinearIteration.well_state NonlinearIteration.failureReport_].
    destruct (NonlinearIteration.solveJacobianSystem o _ _) as [[[x xw]|ex] its];
      [|cbn; apply H2].
    destruct (NonlinearIteration.detectOscillations o _ _) as [osc stag].
    destruct (NonlinearIteration.stabilizeNonlinearUpdate o _ _ _) as [x' dx_old'].
    cbn. apply H2.
Qed.

Lemma nonlinearIteration_history_grows_by_one_witness :
  length (NonlinearIteration.residual_norms_history_
            (snd (NonlinearIteration.nonlinearIteration NewtonExample.toyOps 1 1
                    NewtonExample.toyWorld))) = 1%nat.
Proof.
  exact (nonlinearIteration_history_grows_by_one NewtonExample.toyOps 1 1
           NewtonExample.toyWorld (mkReport false 1 0 0 0) true
           ltac:(vm_compute; reflexivity) ltac:(vm_compute; reflexivity)).
Defined.

(** ** StandardWellsDense::computeWellFlux: the early returns and the throw *)

(** X17.  In a well for which cross flow is not allowed, a perforation that
    would flow against the declared direction of the well (a producing
    perforation of an injector, an injecting one of a producer) gets no
    flux: [computeWellFlux] returns before it writes, and the rates of the
    perforation stay at the zeros they were created with. *)
Theorem computeWellFlux_blocked_perforation (m : WellFlux.WellModel) (w perf : nat)
  (Hcf : WellFlux.allow_cross_flow m w = false)
  (Hdir : match wtype (WellFlux.wells m) w with
          | INJECTOR => 0 < value (WellFlux.perf_drawdown m w perf)
          | PRODUCER => value (WellFlux.perf_drawdown m w perf) <= 0
          end) :
  WellFlux.perforation_flux m w perf
  = Ok (repeat (Eval.const 0) (WellFlux.numComponents m)).
Proof.
  unfold WellFlux.perforation_flux, WellFlux.computeWellFlux. rewrite Hcf.
  change (WellFlux.drawdown _ _ _) with (WellFlux.perf_drawdown m w perf).
  destruct (wtype (WellFlux.wells m) w).
  - apply Qltb_lt in Hdir. rewrite Hdir. reflexivity.
  - apply Qltb_ge in Hdir. rewrite Hdir. reflexivity.
Qed.

Lemma computeWellFlux_blocked_perforation_witness :
  WellFlux.allow_cross_flow CrossFlowExample.mixedModel 0 = false /\
  WellFlux.perforation_flux CrossFlowExample.mixedModel 0 1
  = Ok [Eval.const 0; Eval.const 0; Eval.const 0].
Proof.
  split; [reflexivity|].
  exact (computeWellFlux_blocked_perforation CrossFlowExample.mixedModel 0 1 eq_refl
           ltac:(vm_compute; reflexivity)).
Defined.

(** X18.  [computeWellFlux] throws in one situation only: an injecting
    perforation (drawdown not positive) that is not blocked, in a run with
    oil and gas both active, whose cell has [1 - rv * rs = 0]; what it
    throws is a numerical problem.  A producing perforation never
    throws. *)
Theorem computeWellFlux_throws_iff (m : WellFlux.WellModel) (w : nat) (Tw : Q)
  (iq : WellFlux.IntQuants) (mob : list EvalWell) (bhp : EvalWell) (cdp : Q)
  (allow_cf : bool) (cq_s : list EvalWell) (e : Exception) :
  WellFlux.computeWellFlux m w Tw iq mob bhp cdp allow_cf cq_s = Throw e <->
  e = NumericalProblem /\
  value (WellFlux.drawdown (WellFlux.pressure_oil iq) bhp cdp) <= 0 /\
  (allow_cf = true \/ wtype (WellFlux.wells m) w = INJECTOR) /\
  WellFlux.active m (Oil (WellFlux.ix m)) = true /\
  WellFlux.active m (Gas (WellFlux.ix m)) = true /\
  1 - value (WellFlux.Rv iq) * value (WellFlux.Rs iq) == 0.
Proof.
  unfold WellFlux.computeWellFlux.
  set (dd := WellFlux.drawdown (WellFlux.pressure_oil iq) bhp cdp).
  destruct (Qltb 0 (value dd)) eqn:Edd.
  - apply Qltb_lt in Edd. split.
    + destruct (_ && _); discriminate.
    + intros (_ & Hle & _). lra.
  - apply Qltb_ge in Edd.
    destruct (negb allow_cf
              && (if wtype (WellFlux.wells m) w is PRODUCER then true else false)) eqn:Eb.
    + split; [discriminate|]. intros (_ & _ & [H|H] & _).
      * subst allow_cf. discriminate.
      * rewrite H in Eb. now rewrite andb_false_r in Eb.
    + assert (Hnb : allow_cf = true \/ wtype (WellFlux.wells m) w = INJECTOR).
      { destruct allow_cf; [now left|]. right.
        destruct (wtype (WellFlux.wells m) w); [reflexivity|discriminate]. }
      unfold WellFlux.injecting_rates.
      destruct (WellFlux.active m (Oil (WellFlux.ix m))
                && WellFlux.active m (Gas (WellFlux.ix m))) eqn:Eog.
      * apply andb_true_iff in Eog. destruct Eog as [Ho Hg].
        change (value (Eval.sub (Eval.const 1)
                         (Eval.mul (WellFlux.Rv iq) (WellFlux.Rs iq))))
          with (1 - value (WellFlux.Rv iq) * value (WellFlux.Rs iq)).
        destruct (Qeq_bool (1 - value (WellFlux.Rv iq) * value (WellFlux.Rs iq)) 0) eqn:Ed.
        -- apply Qeq_bool_iff in Ed. split.
           ++ intros H. injection H as <-. repeat split; assumption.
           ++ intros (-> & _). reflexivity.
        -- split; [discriminate|]. intros (_ & _ & _ & _ & _ & Hz).
           apply Qeq_bool_iff in Hz. congruence.
      * split; [cbv zeta beta; discriminate|].
        intros (_ & _ & _ & Ho & Hg & _). rewrite Ho, Hg in Eog. discriminate.
Qed.

(** ** StandardWellsDense::updateWellState: what it keeps and what it sets *)

Section WellStateFacts.
Import WellModel.
Context {Coll : Type}.
Variable m : Model Coll.
Variable ws : Wells.
Variable dwells : list (list Q).

Lemma fill_from_length (base np : nat) (f : nat -> Q) (v : list Q) :
  length (fill_from base np f v) = length v.
Proof.
  unfold fill_from.
  apply (fold_left_inv (fun a b : list Q => length b = length a)).
  - reflexivity.
  - intros; congruence.
  - intros a b. apply length_insert.
Qed.

Lemma keeps_refl x : keeps x x.
Proof. unfold keeps. repeat split. Qed.

Lemma keeps_trans x1 x2 x3 : keeps x1 x2 -> keeps x2 x3 -> keeps x1 x3.
Proof.
  unfold keeps. intros H1 H2. decompose [and] H1. decompose [and] H2.
  repeat split; congruence.
Qed.

Lemma update_well_keeps old x w : keeps x (update_well m ws dwells old x w).
Proof.
  unfold keeps, update_well.
  destruct (well_controls_iget_type _ _); destruct (wtype ws w);
    cbn [currentControls perfPhaseRates perfPress perfRateSolvent solventWellRate
         bhp thp wellRates wellSolutions set_wellSolutions set_wellRates set_bhp];
    rewrite ?length_insert, ?fill_from_length, ?length_insert, ?store_fractions_length,
      ?limit_fractions_length; repeat split.
Qed.

Lemma update_thp_keeps x w :
  keeps x (update_thp m ws x w) /\
  bhp (update_thp m ws x w) = bhp x /\
  wellRates (update_thp m ws x w) = wellRates x.
Proof.
  unfold keeps, update_thp.
  destruct (first_thp _ _); [destruct (_ =? _)%Z; [|destruct (wtype ws w)]|];
    cbn [currentControls perfPhaseRates perfPress perfRateSolvent solventWellRate
         bhp thp wellRates wellSolutions set_thp];
    rewrite ?length_insert; repeat split.
Qed.

Lemma fold_update_well_keeps old l : forall x,
  keeps x (fold_left (update_well m ws dwells old) l x).
Proof.
  apply (fold_left_inv keeps); auto using keeps_refl, update_well_keeps.
  apply keeps_trans.
Qed.

Lemma fold_update_thp_keeps l : forall x,
  keeps x (fold_left (update_thp m ws) l x) /\
  bhp (fold_left (update_thp m ws) l x) = bhp x.
Proof.
  induction l as [|w l IH]; intros x; [split; [apply keeps_refl|reflexivity]|].
  cbn [fold_left]. destruct (IH (update_thp m ws x w)) as [K B].
  destruct (update_thp_keeps x w) as (K1 & B1 & _).
  split; [eapply keeps_trans; eassumption|congruence].
Qed.

(** The pass of another well does not write the pressure of well [w]. *)
Lemma update_well_bhp_other old x w w' :
  w <> w' -> vget (bhp (update_well m ws dwells old x w')) w = vget (bhp x) w.
Proof.
  intros Hne. unfold update_well.
  destruct (well_controls_iget_type _ _); destruct (wtype ws w');
    cbn [bhp set_wellSolutions set_wellRates set_bhp];
    rewrite ?vget_insert_ne by congruence; reflexivity.
Qed.

Lemma fold_update_well_bhp_other old l : forall x w,
  ~ In w l -> vget (bhp (fold_left (update_well m ws dwells old) l x)) w = vget (bhp x) w.
Proof.
  induction l as [|w' l IH]; intros x w Hnin; [reflexivity|].
  cbn [fold_left]. rewrite IH by (intros H; apply Hnin; now right).
  apply update_well_bhp_other. intros ->. apply Hnin. now left.
Qed.

(** The own pass of a well under a rate control. *)
Lemma update_well_bhp_floor old x w :
  (w < length (bhp x))%nat ->
  (number_of_wells ws * XvarWell (ix m) + w < length (wellSolutions x))%nat ->
  (well_controls_iget_type (wctrls ws w) (zget (currentControls x) w) = SURFACE_RATE \/
   well_controls_iget_type (wctrls ws w) (zget (currentControls x) w) = RESERVOIR_RATE) ->
  100000 <= vget (bhp (update_well m ws dwells old x w)) w.
Proof.
  intros Hb Hs Hty. unfold update_well.
  destruct Hty as [-> | ->]; [destruct (wtype ws w)|];
    cbn [bhp set_wellSolutions set_wellRates set_bhp];
    rewrite vget_insert_eq by assumption;
    rewrite vget_insert_eq
      by (rewrite store_fractions_length, limit_fractions_length; assumption);
    apply std_max_r.
Qed.

Lemma fold_update_well_bhp_floor old l : forall x w,
  List.NoDup l -> In w l ->
  (w < length (bhp x))%nat ->
  (number_of_wells ws * XvarWell (ix m) + w < length (wellSolutions x))%nat ->
  (well_controls_iget_type (wctrls ws w) (zget (currentControls x) w) = SURFACE_RATE \/
   well_controls_iget_type (wctrls ws w) (zget (currentControls x) w) = RESERVOIR_RATE) ->
  100000 <= vget (bhp (fold_left (update_well m ws dwells old) l x)) w.
Proof.
  induction l as [|w' l IH]; intros x w Hnd Hin Hb Hs Hty; [destruct Hin|].
  cbn [fold_left]. apply List.NoDup_cons_iff in Hnd. destruct Hnd as [Hnin Hnd].
  destruct (Nat.eq_dec w w') as [->|Hne].
  - rewrite fold_update_well_bhp_other by assumption.
    apply update_well_bhp_floor; assumption.
  - destruct Hin as [E|Hin]; [congruence|].
    destruct (update_well_keeps old x w') as (Kc & _ & _ & _ & _ & Kb & _ & _ & Ks).
    apply IH; try assumption; rewrite ?Kc, ?Kb, ?Ks; assumption.
Qed.

(** The pass of the second loop for another well does not write the
    tubing head pressure of well [w]. *)
Lemma update_thp_other x w w' :
  w <> w' -> vget (thp (update_thp m ws x w')) w = vget (thp x) w.
Proof.
  intros Hne. unfold update_thp.
  destruct (first_thp _ _); [destruct (_ =? _)%Z; [|destruct (wtype ws w')]|];
    cbn [thp set_thp]; rewrite vget_insert_ne by congruence; reflexivity.
Qed.

Lemma fold_update_thp_other l : forall x w,
  ~ In w l -> vget (thp (fold_left (update_thp m ws) l x)) w = vget (thp x) w.
Proof.
  induction l as [|w' l IH]; intros x w Hnin; [reflexivity|].
  cbn [fold_left]. rewrite IH by (intros H; apply Hnin; now right).
  apply update_thp_other. intros ->. apply Hnin. now left.
Qed.

Lemma fold_update_thp_self l : forall x w,
  List.NoDup l -> In w l -> (w < length (thp x))%nat ->
  let wc := wctrls ws w in
  (first_thp (wc_controls wc) 0 = None ->
   vget (thp (fold_left (update_thp m ws) l x)) w = 0) /\
  (forall i, first_thp (wc_controls wc) 0 = Some i -> zget (currentControls x) w = i ->
   vget (thp (fold_left (update_thp m ws) l x)) w = well_controls_iget_target wc i).
Proof.
  induction l as [|w' l IH]; intros x w Hnd Hin Ht; [destruct Hin|].
  cbn [fold_left]. apply List.NoDup_cons_iff in Hnd. destruct Hnd as [Hnin Hnd].
  destruct (Nat.eq_dec w w') as [->|Hne].
  - cbv zeta. rewrite fold_update_thp_other by assumption.
    unfold update_thp. split.
    + intros ->. cbn [thp set_thp]. now rewrite vget_insert_eq.
    + intros i -> Hi. rewrite Hi, Z.eqb_refl. cbn [thp set_thp].
      now rewrite vget_insert_eq.
  - destruct Hin as [E|Hin]; [congruence|].
    destruct (update_thp_keeps x w') as ((Kc & _ & _ & _ & _ & _ & Kt & _) & _).
    specialize (IH (update_thp m ws x w') w Hnd Hin ltac:(rewrite Kt; exact Ht)).
    cbv zeta in IH |- *. rewrite Kc in IH. exact IH.
Qed.

End WellStateFacts.

(** X19.  [updateWellState] writes the pressures, the rates and the
    solution vector of the wells and nothing else: the current controls and
    the perforation data of the well state are as before, and no vector
    changes its size. *)
Theorem updateWellState_keeps_controls_and_perforation_data {Coll : Type}
  (m : WellModel.Model Coll) (ws : Wells) (dwells : list (list Q)) (x : WellState) :
  let x' := WellModel.updateWellState m ws dwells x in
  currentControls x' = currentControls x /\
  perfPhaseRates x' = perfPhaseRates x /\
  perfPress x' = perfPress x /\
  perfRateSolvent x' = perfRateSolvent x /\
  solventWellRate x' = solventWellRate x /\
  length (bhp x') = length (bhp x) /\
  length (thp x') = length (thp x) /\
  length (wellRates x') = length (wellRates x) /\
  length (wellSolutions x') = length (wellSolutions x).
Proof.
  cbv zeta. unfold WellModel.updateWellState.
  destruct (negb _); [repeat split|].
  set (l := seq 0 (number_of_wells ws)).
  apply (keeps_trans _ _ _ (fold_update_well_keeps m ws dwells (wellSolutions x) l x)).
  apply fold_update_thp_keeps.
Qed.

(** X20.  A well that runs under a rate control has its bottom hole
    pressure as first well variable, and [updateWellState] never leaves
    that pressure below 1e5, whatever the Newton update was. *)
Theorem updateWellState_rate_control_bhp_floor {Coll : Type}
  (m : WellModel.Model Coll) (ws : Wells) (dwells : list (list Q)) (x : WellState)
  (w : nat)
  (Hact : WellModel.localWellsActive m ws = true)
  (Hw : (w < number_of_wells ws)%nat)
  (Hb : (w < length (bhp x))%nat)
  (Hs : (number_of_wells ws * XvarWell (WellModel.ix m) + w
         < length (wellSolutions x))%nat)
  (Hty : well_controls_iget_type (wctrls ws w) (zget (currentControls x) w) = SURFACE_RATE \/
         well_controls_iget_type (wctrls ws w) (zget (currentControls x) w)
         = RESERVOIR_RATE) :
  100000 <= vget (bhp (WellModel.updateWellState m ws dwells x)) w.
Proof.
  unfold WellModel.updateWellState. rewrite Hact. cbn [negb].
  rewrite (proj2 (fold_update_thp_keeps m ws _ _)).
  apply fold_update_well_bhp_floor; try assumption.
  - apply List.seq_NoDup.
  - apply in_seq. lia.
Qed.

Lemma updateWellState_rate_control_bhp_floor_witness :
  well_controls_iget_type (wctrls WellExample.toyWells 0)
    (zget (currentControls WellExample.toyWellState) 0) = SURFACE_RATE /\
  100000 <= vget (bhp (WellModel.updateWellState WellExample.toyModel WellExample.toyWells
                         WellExample.toyDwells WellExample.toyWellState)) 0.
Proof.
  split; [reflexivity|].
  apply (updateWellState_rate_control_bhp_floor WellExample.toyModel WellExample.toyWells
           WellExample.toyDwells WellExample.toyWellState 0 eq_refl);
    try (simpl; lia). left. reflexivity.
Defined.

(** X21.  After [updateWellState] the tubing head pressure of a well
    without a THP constraint is zero, and that of a well that runs under
    its first THP constraint is the target of that constraint. *)
Theorem updateWellState_thp_of_wells {Coll : Type}
  (m : WellModel.Model Coll) (ws : Wells) (dwells : list (list Q)) (x : WellState)
  (w : nat)
  (Hact : WellModel.localWellsActive m ws = true)
  (Hw : (w < number_of_wells ws)%nat)
  (Ht : (w < length (thp x))%nat) :
  let wc := wctrls ws w in
  let x' := WellModel.updateWellState m ws dwells x in
  (WellModel.first_thp (wc_controls wc) 0 = None -> vget (thp x') w = 0) /\
  (forall i, WellModel.first_thp (wc_controls wc) 0 = Some i ->
     zget (currentControls x) w = i ->
     vget (thp x') w = well_controls_iget_target wc i).
Proof.
  intros wc x'. subst x'. unfold WellModel.updateWellState. rewrite Hact. cbn [negb].
  set (x1 := fold_left _ (seq 0 (number_of_wells ws)) x).
  destruct (fold_update_well_keeps m ws dwells (wellSolutions x)
              (seq 0 (number_of_wells ws)) x) as (Kc & _ & _ & _ & _ & _ & Kt & _).
  fold x1 in Kc, Kt.
  pose proof (fold_update_thp_self m ws (seq 0 (number_of_wells ws)) x1 w
                (List.seq_NoDup _ _) ltac:(apply in_seq; lia)
                ltac:(rewrite Kt; exact Ht)) as H.
  cbv zeta in H. rewrite Kc in H. exact H.
Qed.

Lemma updateWellState_thp_of_wells_witness :
  vget (thp (WellModel.updateWellState WellExample.toyModel WellExample.toyWells
               WellExample.toyDwells WellExample.toyWellState)) 1 = 0.
Proof.
  apply (updateWellState_thp_of_wells WellExample.toyModel WellExample.toyWells
           WellExample.toyDwells WellExample.toyWellState 1 eq_refl);
    try (simpl; lia). reflexivity.
Defined.

(** ** StandardWellsDense: updateWellStateWithTarget and updateWellControls *)

(** X22.  [updateWellStateWithTarget] initialises one well: the current
    controls and the perforation data are not written, the pressures of
    every other well are as before, a rate control leaves all pressures
    alone and a BHP control leaves the tubing head pressures and the rates
    alone. *)
Theorem updateWellStateWithTarget_writes_own_well {Coll : Type}
  (m : WellModel.Model Coll) (ws : Wells) (wc : WellControls) (current : Z)
  (well_index : nat) (xw : WellState) :
  let xw' := WellModel.updateWellStateWithTarget m ws wc current well_index xw in
  let ty := well_controls_iget_type wc current in
  currentControls xw' = currentControls xw /\
  perfPhaseRates xw' = perfPhaseRates xw /\
  perfPress xw' = perfPress xw /\
  (forall w, w <> well_index ->
     vget (bhp xw') w = vget (bhp xw) w /\ vget (thp xw') w = vget (thp xw) w) /\
  (ty = SURFACE_RATE \/ ty = RESERVOIR_RATE -> bhp xw' = bhp xw /\ thp xw' = thp xw) /\
  (ty = BHP -> thp xw' = thp xw /\ wellRates xw' = wellRates xw).
Proof.
  intros xw' ty. subst xw'.
  rewrite updateWellStateWithTarget_currentControls, updateWellStateWithTarget_bhp,
    updateWellStateWithTarget_thp.
  fold ty.
  split; [reflexivity|].
  split; [unfold WellModel.updateWellStateWithTarget; fold ty; destruct ty; reflexivity|].
  split; [unfold WellModel.updateWellStateWithTarget; fold ty; destruct ty; reflexivity|].
  split; [|split].
  - intros w Hne. destruct ty; rewrite ?vget_insert_ne by congruence; split; reflexivity.
  - intros [-> | ->]; split; reflexivity.
  - intros E. rewrite E. split; [reflexivity|].
    unfold WellModel.updateWellStateWithTarget. fold ty. rewrite E. reflexivity.
Qed.

Section UnswitchedWells.
Import WellModel.
Context {Coll : Type}.
Variable m : Model Coll.

Lemma fold_retarget_unswitched old upd ws (l : list nat) : forall xw (w : nat),
  zget upd w = zget old w ->
  vget (bhp (fold_left (retarget_well m old upd false ws) l xw)) w = vget (bhp xw) w /\
  vget (thp (fold_left (retarget_well m old upd false ws) l xw)) w = vget (thp xw) w.
Proof.
  induction l as [|w' l IH]; intros xw w Heq; [split; reflexivity|].
  cbn [fold_left]. destruct (IH (retarget_well m old upd false ws xw w') w Heq) as [-> ->].
  destruct (Nat.eq_dec w w') as [<-|Hne].
  - unfold retarget_well. rewrite Heq, Z.eqb_refl. cbn. split; reflexivity.
  - destruct (retarget_well_frame m old upd ws xw w') as (_ & _ & _ & R4).
    exact (R4 w Hne).
Qed.

End UnswitchedWells.

(** X23.  With wells active and without group control, [updateWellControls]
    initialises from a target only the wells it switches: a well none of
    whose other constraints is broken keeps its bottom hole pressure and
    its tubing head pressure, whatever happens to the other wells. *)
Theorem updateWellControls_unswitched_well_keeps_pressure {Coll : Type}
  (m : WellModel.Model Coll) (s : WellModel.Controlled) (w : nat)
  (Hact : WellModel.wells_active_ m = true)
  (Hgrp : WellModel.groupControlActive m (WellModel.c_coll s) = false)
  (Hw : (w < number_of_wells (WellModel.c_wells s))%nat)
  (Hcc : (number_of_wells (WellModel.c_wells s)
          <= length (currentControls (WellModel.c_xw s)))%nat)
  (Hct : (number_of_wells (WellModel.c_wells s)
          <= length (ctrls (WellModel.c_wells s)))%nat)
  (Hnone : forall j,
     (0 <= j < well_controls_get_num (wctrls (WellModel.c_wells s) w))%Z ->
     j <> zget (currentControls (WellModel.c_xw s)) w ->
     WellModel.constraintBroken m (bhp (WellModel.c_xw s)) (thp (WellModel.c_xw s))
       (wellRates (WellModel.c_xw s)) w (number_of_phases (WellModel.c_wells s))
       (wtype (WellModel.c_wells s) w) (wctrls (WellModel.c_wells s) w) j = false) :
  let s' := WellModel.updateWellControls m s in
  vget (bhp (WellModel.c_xw s')) w = vget (bhp (WellModel.c_xw s)) w /\
  vget (thp (WellModel.c_xw s')) w = vget (thp (WellModel.c_xw s)) w /\
  zget (currentControls (WellModel.c_xw s')) w
  = zget (currentControls (WellModel.c_xw s)) w.
Proof.
  intros s'.
  set (nw := number_of_wells (WellModel.c_wells s)).
  set (s1 := fold_left (WellModel.switch_well m) (seq 0 nw) s).
  pose proof (fold_switch_frame m (seq 0 nw) s Hgrp) as Hf. fold s1 in Hf.
  assert (Hin : In w (seq 0 nw)) by (apply in_seq; unfold nw; lia).
  destruct (fold_switch_self m (seq 0 nw) s w (List.seq_NoDup nw 0) Hin Hgrp
              ltac:(lia) ltac:(lia)) as (Hdec & _ & _).
  fold s1 in Hdec.
  unfold WellModel.switch_frame in Hf.
  destruct Hf as (Fb & Ft & _ & _ & _ & _ & _ & _ & _ & _ & _ & _ & Fc).
  assert (Hg1 : WellModel.groupControlActive m (WellModel.c_coll s1) = false) by congruence.
  set (old := map (zget (currentControls (WellModel.c_xw s))) (seq 0 nw)).
  set (upd := map (zget (currentControls (WellModel.c_xw s1))) (seq 0 nw)).
  assert (Hxw' : WellModel.c_xw s' =
                 fold_left (WellModel.retarget_well m old upd false (WellModel.c_wells s1))
                           (seq 0 nw) (WellModel.c_xw s1)).
  { unfold s', WellModel.updateWellControls, WellModel.wellsActive. rewrite Hact.
    cbn [negb]. unfold WellModel.group_targets.
    unfold WellModel.switch_and_retarget at 1. cbn [WellModel.c_coll].
    fold nw s1. rewrite Hg1.
    unfold WellModel.switch_and_retarget. cbn [WellModel.c_xw].
    fold nw s1 old upd. now rewrite Hg1. }
  assert (Hkeep : WellModel.decided_control m s w
                  = zget (currentControls (WellModel.c_xw s)) w).
  { unfold WellModel.decided_control.
    destruct (scan_well_spec m (WellModel.c_wells s) (WellModel.c_xw s) w)
      as [[Hi _]|(Hr & Hne & Hbr & _)].
    - rewrite Hi, Z.eqb_refl. reflexivity.
    - rewrite (Hnone _ Hr Hne) in Hbr. discriminate. }
  assert (Hsame : zget upd w = zget old w).
  { unfold upd, old. rewrite !zget_map_seq by (unfold nw; lia). congruence. }
  rewrite Hxw'.
  destruct (fold_retarget_unswitched m old upd (WellModel.c_wells s1) (seq 0 nw)
              (WellModel.c_xw s1) w Hsame) as [-> ->].
  rewrite Fb, Ft. split; [reflexivity|]. split; [reflexivity|].
  destruct (fold_retarget_frame m old upd (WellModel.c_wells s1) (seq 0 nw)
              (WellModel.c_xw s1)) as (-> & _).
  congruence.
Qed.

Lemma updateWellControls_unswitched_well_keeps_pressure_witness :
  let s' := WellModel.updateWellControls WellExample.toyModel WellExample.toyControlled in
  vget (bhp (WellModel.c_xw s')) 1 = 250 /\
  zget (currentControls (WellModel.c_xw s')) 1 = 0%Z.
Proof.
  destruct (updateWellControls_unswitched_well_keeps_pressure WellExample.toyModel
              WellExample.toyControlled 1 eq_refl eq_refl
              ltac:(simpl; lia) ltac:(simpl; lia) ltac:(simpl; lia))
    as (H1 & _ & H3).
  - intros j Hj Hne.
    change (0 <= j < 2)%Z in Hj. change (j <> 0%Z) in Hne.
    assert (E : j = 1%Z) by lia. subst j. reflexivity.
  - split; [exact H1|exact H3].
Defined.

(** ** StandardWellsDense: the well blocks, the assembly and the well solve *)

Section WellSolveMore.
Import WellSystem WellSolve.
Context {Coll Lin : Type}.
Variable O : Ops Coll Lin.

(** [mv] clears the rows it writes: only the shape of the old content of
    its result argument matters. *)
Lemma mv_shape (A : Mat) (x y y' : BVector) :
  length y = length y' ->
  (length y <= length A)%nat ->
  (forall i, length (bget y i) = length (bget y' i)) ->
  mv A x y = mv A x y'.
Proof.
  intros Hlen HA Hblk. apply list_eq. intros i. unfold mv.
  rewrite !list_lookup_imap.
  destruct (y !! i) as [yi|] eqn:Ey; destruct (y' !! i) as [yi'|] eqn:Ey'; cbn.
  - assert (Hi : (i < length A)%nat).
    { apply lookup_lt_Some in Ey. lia. }
    destruct (lookup_lt_is_Some_2 A i Hi) as [row ->].
    specialize (Hblk i). unfold bget in Hblk. rewrite Ey, Ey' in Hblk. cbn in Hblk.
    now rewrite !zero_like_repeat, Hblk.
  - apply lookup_lt_Some in Ey. apply lookup_ge_None in Ey'. lia.
  - apply lookup_lt_Some in Ey'. apply lookup_ge_None in Ey. lia.
  - reflexivity.
Qed.

(** A loop of writes at positions that are all different: each position
    holds what its own pass wrote, any other position what it held. *)
Lemma fold_insert_other {A K : Type} (g : K -> nat) (h : K -> A) (l : list K) :
  forall (v : list A) (i : nat),
  (forall k, In k l -> g k <> i) ->
  fold_left (fun acc k => <[g k := h k]> acc) l v !! i = v !! i.
Proof.
  induction l as [|k l IH]; intros v i Hne; [reflexivity|].
  cbn [fold_left]. rewrite IH by (intros k' Hk'; apply Hne; now right).
  apply list_lookup_insert_ne. apply Hne. now left.
Qed.

Lemma fold_insert_length {A K : Type} (g : K -> nat) (h : K -> A) (l : list K) :
  forall (v : list A), length (fold_left (fun acc k => <[g k := h k]> acc) l v) = length v.
Proof.
  induction l as [|k l IH]; intros v; [reflexivity|].
  cbn [fold_left]. rewrite IH. apply length_insert.
Qed.

Lemma fold_insert_self {A K : Type} (g : K -> nat) (h : K -> A) (l : list K) :
  forall (v : list A) (k0 : K),
  List.NoDup (map g l) -> In k0 l -> (g k0 < length v)%nat ->
  fold_left (fun acc k => <[g k := h k]> acc) l v !! g k0 = Some (h k0).
Proof.
  induction l as [|k l IH]; intros v k0 Hnd Hin Hlt; [destruct Hin|].
  cbn [fold_left]. cbn [map] in Hnd. apply List.NoDup_cons_iff in Hnd.
  destruct Hnd as [Hnin Hnd].
  destruct Hin as [->|Hin].
  - rewrite fold_insert_other.
    + now apply list_lookup_insert_eq.
    + intros k' Hk' E. apply Hnin. rewrite <- E. now apply in_map.
  - apply IH; try assumption. now rewrite length_insert.
Qed.


(** With [only_wells = true] the passes of the assembly do not write the
    coupling matrices. *)
Lemma assemble_component_coupling w perf cell_idx cq_s (s : Sys Coll Lin) componentIdx :
  duneB_ (assemble_component O true w perf cell_idx cq_s s componentIdx) = duneB_ s /\
  duneC_ (assemble_component O true w perf cell_idx cq_s s componentIdx) = duneC_ s.
Proof.
  unfold assemble_component. cbn [negb duneB_ duneC_].
  rewrite fold_left_keep. cbn [snd]. split; [|reflexivity].
  apply (fold_left_inv (fun a b : Mat * Mat => fst b = fst a)).
  - reflexivity.
  - intros; congruence.
  - intros a b. reflexivity.
Qed.

Lemma assemble_perforation_coupling w (s : Sys Coll Lin) perf s' :
  assemble_perforation O true w s perf = Ok s' ->
  duneB_ s' = duneB_ s /\ duneC_ s' = duneC_ s.
Proof.
  unfold assemble_perforation.
  destruct (WellFlux.perforation_flux _ _ _) as [cq_s|e]; [|discriminate].
  intros H. injection H as <-. cbn [duneB_ duneC_].
  apply (fold_left_inv (fun a b : Sys Coll Lin =>
                          duneB_ b = duneB_ a /\ duneC_ b = duneC_ a)).
  - split; reflexivity.
  - intros a b c [H1 H2] [H3 H4]. split; congruence.
  - intros a b. apply assemble_component_coupling.
Qed.

Lemma assemble_well_coupling dt (s : Sys Coll Lin) w s' :
  assemble_well O dt true s w = Ok s' ->
  duneB_ s' = duneB_ s /\ duneC_ s' = duneC_ s.
Proof.
  unfold assemble_well.
  destruct (fold_result _ _ s) as [s1|e] eqn:E; [|discriminate].
  intros H. injection H as <-. cbn [duneB_ duneC_].
  revert E.
  apply (fold_result_inv (fun a b : Sys Coll Lin =>
                            duneB_ b = duneB_ a /\ duneC_ b = duneC_ a)).
  - split; reflexivity.
  - intros a b c [H1 H2] [H3 H4]. split; congruence.
  - intros a b a'. apply assemble_perforation_coupling.
Qed.

Lemma assembleWellEq_coupling dt (s s' : Sys Coll Lin) :
  assembleWellEq O dt true s = Ok s' ->
  duneB_ s' = mat_clear (duneB_ s) /\ duneC_ s' = mat_clear (duneC_ s).
Proof.
  unfold assembleWellEq.
  destruct (fold_result _ _ _) as [s1|e] eqn:E; [|discriminate].
  intros H. injection H as <-. cbn [duneB_ duneC_].
  pose proof (fold_result_inv
                (fun a b : Sys Coll Lin => duneB_ b = duneB_ a /\ duneC_ b = duneC_ a)
                (assemble_well O dt true)
                (fun a => conj eq_refl eq_refl)
                (fun a b c H1 H2 =>
                   conj (eq_trans (proj1 H2) (proj1 H1)) (eq_trans (proj2 H2) (proj2 H1)))
                (fun a b a' => assemble_well_coupling dt a b a') _ _ _ E) as H.
  exact H.
Qed.

End WellSolveMore.

(** X24.  [recoverVariable] computes [xw] from scratch: with wells on this
    process and a row of [invDuneD_] for every block of [xw], two result
    vectors of the same shape come back equal, whatever they held. *)
Theorem recoverVariable_overwrites_result {Coll : Type} (m : WellModel.Model Coll)
  (ws : Wells) (S : WellSystem.WellMatrices) (x xw xw' : WellSystem.BVector)
  (Hlen : length xw = length xw')
  (Hrows : (length xw <= length (WellSystem.invDuneD_ S))%nat)
  (Hblk : forall i, length (WellSystem.bget xw i) = length (WellSystem.bget xw' i)) :
  WellModel.localWellsActive m ws = true ->
  WellSystem.recoverVariable m ws S x xw = WellSystem.recoverVariable m ws S x xw'.
Proof.
  intros Hact. unfold WellSystem.recoverVariable. rewrite Hact. cbn [negb].
  now apply mv_shape.
Qed.

Lemma recoverVariable_overwrites_result_witness :
  let S := WellSystem.mkWellMatrices WellSystemExample.toyC
             (WellSystem.localInvert WellSystemExample.invert2 WellSystemExample.toyD)
             WellSystemExample.toyResWell in
  WellSystem.recoverVariable WellExample.toyModel WellExample.toyWells S
    WellSystemExample.toyX WellSystemExample.toyXw
  = WellSystem.recoverVariable WellExample.toyModel WellExample.toyWells S
      WellSystemExample.toyX [[7; 8]; [9; 10]].
Proof.
  refine (recoverVariable_overwrites_result WellExample.toyModel WellExample.toyWells
            _ _ _ _ eq_refl _ _ eq_refl).
  - vm_compute. lia.
  - intros [|[|i]]; reflexivity.
Defined.

(** X25.  Called with [only_wells = true], [assembleWellEq] leaves the
    residual and the matrix of the grid simulator as they are, and the
    coupling matrices [duneB_] and [duneC_] are cleared and not filled;
    the wells, the well variables and, in the well state, the pressures,
    rates, solution vector and current controls are not written. *)
Theorem assembleWellEq_only_wells {Coll Lin : Type} (O : WellSolve.Ops Coll Lin)
  (dt : Q) (s s' : WellSolve.Sys Coll Lin)
  (Hasm : WellSolve.assembleWellEq O dt true s = Ok s') :
  WellSolve.lin s' = WellSolve.lin s /\
  WellSolve.duneB_ s' = WellSolve.mat_clear (WellSolve.duneB_ s) /\
  WellSolve.duneC_ s' = WellSolve.mat_clear (WellSolve.duneC_ s) /\
  WellSolve.wells s' = WellSolve.wells s /\
  WellSolve.wellVariables_ s' = WellSolve.wellVariables_ s /\
  bhp (WellSolve.well_state s') = bhp (WellSolve.well_state s) /\
  wellRates (WellSolve.well_state s') = wellRates (WellSolve.well_state s) /\
  wellSolutions (WellSolve.well_state s') = wellSolutions (WellSolve.well_state s) /\
  currentControls (WellSolve.well_state s') = currentControls (WellSolve.well_state s).
Proof.
  destruct (assembleWellEq_frame O dt s s' Hasm)
    as (H1 & H2 & _ & H4 & H5 & _ & H7 & H8 & H9).
  destruct (assembleWellEq_coupling O dt s s' Hasm) as [HB HC].
  repeat split; assumption.
Qed.

Lemma assembleWellEq_only_wells_witness :
  exists s',
    WellSolve.assembleWellEq WellSolveExample.toyOps 1 true WellSolveExample.toySys = Ok s' /\
    WellSolve.lin s' = 0%Z.
Proof.
  assert (Hf : WellSolve.flux_defined WellSolveExample.toyOps)
    by (intros cell; reflexivity).
  destruct (assembleWellEq_returns WellSolveExample.toyOps 1 true
              WellSolveExample.toySys Hf) as [s' E].
  exists s'. split; [exact E|].
  exact (proj1 (assembleWellEq_only_wells WellSolveExample.toyOps 1
                  WellSolveExample.toySys s' E)).
Defined.

Section WellSolveLayout.
Import WellSystem WellSolve.
Context {Coll Lin : Type}.
Variable O : Ops Coll Lin.

(** Two nested loops of writes, the position [g w c] of each pass being its
    own: the position of pass [(w, c)] holds what that pass wrote. *)
Lemma nested_fold_self {A : Type} (g : nat -> nat -> nat) (f : nat -> nat -> A)
  (nw : nat)
  (Hinj : forall w w' c c', (w < nw)%nat -> (w' < nw)%nat ->
            g w c = g w' c' -> w = w' /\ c = c')
  (comps : list nat) :
  forall (v : list A) (w c : nat),
  List.NoDup comps -> In c comps -> (w < nw)%nat -> (g w c < length v)%nat ->
  fold_left (fun acc compIdx =>
               fold_left (fun acc wellIdx => <[g wellIdx compIdx := f wellIdx compIdx]> acc)
                         (seq 0 nw) acc) comps v !! g w c
  = Some (f w c).
Proof.
  induction comps as [|c' comps IH]; intros v w c Hnd Hin Hw Hlt; [destruct Hin|].
  cbn [fold_left]. apply List.NoDup_cons_iff in Hnd. destruct Hnd as [Hnin Hnd].
  set (inner := fold_left _ (seq 0 nw) v).
  assert (Hl : length inner = length v)
    by apply (fold_insert_length (fun k => g k c') (fun k => f k c')).
  destruct Hin as [->|Hin].
  - assert (Hrest : forall comps' (u : list A), ~ In c comps' ->
      fold_left (fun acc compIdx =>
                   fold_left (fun acc wellIdx =>
                                <[g wellIdx compIdx := f wellIdx compIdx]> acc)
                             (seq 0 nw) acc) comps' u !! g w c
      = u !! g w c).
    { induction comps' as [|c2 comps' IH2]; intros u Hn; [reflexivity|].
      cbn [fold_left]. rewrite IH2 by (intros H; apply Hn; now right).
      apply (fold_insert_other (fun k => g k c2) (fun k => f k c2)).
      intros k Hk E. apply in_seq in Hk.
      destruct (Hinj k w c2 c ltac:(lia) Hw E) as [_ ->]. apply Hn. now left. }
    rewrite Hrest by assumption. unfold inner.
    apply (fold_insert_self (fun k => g k c) (fun k => f k c) (seq 0 nw) v w).
    + apply Finite.Injective_map_NoDup_in; [|apply List.seq_NoDup].
      intros a b Ha Hb E. apply in_seq in Ha, Hb.
      exact (proj1 (Hinj a b c c ltac:(lia) ltac:(lia) E)).
    + apply in_seq. lia.
    + assumption.
  - apply IH; try assumption. now rewrite Hl.
Qed.

Lemma nested_fold_length {A : Type} (g : nat -> nat -> nat) (f : nat -> nat -> A)
  (nw : nat) (comps : list nat) : forall (v : list A),
  length (fold_left (fun acc compIdx =>
                 fold_left (fun acc wellIdx => <[g wellIdx compIdx := f wellIdx compIdx]> acc)
                           (seq 0 nw) acc) comps v) = length v.
Proof.
  induction comps as [|c comps IH]; intros v; [reflexivity|].
  cbn [fold_left]. rewrite IH.
  apply (fold_insert_length (fun k => g k c) (fun k => f k c)).
Qed.

(** The loop of [solveWellEq] reports convergence only from a passed
    test. *)
Lemma well_loop_converged dt : forall fuel it s it' s',
  well_loop O fuel dt it s = Ok (true, it', s') ->
  getWellConvergence O s' it' = Ok true /\
  (WellModel.groupControlActive (model O) (coll s') = true ->
   groupTargetConverged O (coll s') (wellRates (well_state s')) = true) /\
  (exists s0, assembleWellEq O dt true s0 = Ok s').
Proof.
  induction fuel as [|fuel IH]; intros it s it' s' H; [discriminate|].
  cbn [well_loop] in H.
  destruct (assembleWellEq O dt true s) as [s1|e] eqn:E1; [|discriminate].
  destruct (getWellConvergence O s1 it) as [conv|e] eqn:E2; [|discriminate].
  destruct (WellModel.groupControlActive (model O) (coll s1)) eqn:Eg.
  - destruct (conv && groupTargetConverged O (coll s1) (wellRates (well_state s1))) eqn:Ec.
    + injection H as <- <-. apply andb_true_iff in Ec. destruct Ec as [-> Ec].
      repeat split; eauto.
    + destruct (it + 1 <? 15)%Z; [exact (IH _ _ _ _ H)|discriminate].
  - destruct conv.
    + injection H as <- <-. repeat split; eauto. rewrite Eg. discriminate.
    + destruct (it + 1 <? 15)%Z; [exact (IH _ _ _ _ H)|discriminate].
Qed.

End WellSolveLayout.

(** X26.  [solveWellEq] reports [converged = true] only for a state on
    which the convergence test passed: the state it returns is the one
    left by the last assembly of the well equations, [getWellConvergence]
    returns true on it at the reported iteration count, and with group
    control the group targets are converged. *)
Theorem solveWellEq_converged_report {Coll Lin : Type} (O : WellSolve.Ops Coll Lin)
  (dt : Q) (s s' : WellSolve.Sys Coll Lin) (rep : SimulatorReport)
  (Hret : WellSolve.solveWellEq O dt s = Ok (rep, s'))
  (Hconv : converged rep = true) :
  WellSolve.getWellConvergence O s' (total_well_iterations rep) = Ok true /\
  (WellModel.groupControlActive (WellSolve.model O) (WellSolve.coll s') = true ->
   WellSolve.groupTargetConverged O (WellSolve.coll s')
     (wellRates (WellSolve.well_state s')) = true) /\
  (exists s0, WellSolve.assembleWellEq O dt true s0 = Ok s').
Proof.
  unfold WellSolve.solveWellEq in Hret.
  destruct (WellSolve.well_loop O 15 dt 0 s) as [[[conv it] s1]|e] eqn:E; [|discriminate].
  injection Hret as <- <-. cbn [converged total_well_iterations] in *. subst conv.
  cbn [negb]. exact (well_loop_converged O dt _ _ _ _ _ E).
Qed.

Lemma solveWellEq_converged_report_witness :
  exists s',
    WellSolve.solveWellEq WellSolveExample.convergingOps 1 WellSolveExample.toySys
    = Ok (mkReport true 0 0 0 0, s') /\
    WellSolve.getWellConvergence WellSolveExample.convergingOps s' 0 = Ok true.
Proof.
  assert (E : exists s',
    WellSolve.solveWellEq WellSolveExample.convergingOps 1 WellSolveExample.toySys
    = Ok (mkReport true 0 0 0 0, s')) by (vm_compute; eexists; reflexivity).
  destruct E as [s' E]. exists s'. split; [exact E|].
  exact (proj1 (solveWellEq_converged_report WellSolveExample.convergingOps 1
                  WellSolveExample.toySys s' (mkReport true 0 0 0 0) E eq_refl)).
Defined.

(** X27.  [residual()] lays the well residuals out component by
    component: with wells active it has [numEq * nw] entries, and the entry
    [w + nw * c] is [resWell_[w][c]] for every well and every component. *)
Theorem residual_layout {Coll Lin : Type} (O : WellSolve.Ops Coll Lin)
  (s : WellSolve.Sys Coll Lin) (w c : nat)
  (Hact : WellModel.wells_active_ (WellSolve.model O) = true)
  (Hw : (w < number_of_wells (WellSolve.wells s))%nat)
  (Hc : (c < WellSolve.numComponents O)%nat)
  (Hceq : (c < WellSolve.numEq O)%nat) :
  let nw := number_of_wells (WellSolve.wells s) in
  length (WellSolve.residual O s) = (WellSolve.numEq O * nw)%nat /\
  vget (WellSolve.residual O s) (w + nw * c)
  = vget (WellSystem.bget (WellSolve.resWell_ s) w) c.
Proof.
  intros nw. unfold WellSolve.residual, WellModel.wellsActive. rewrite Hact.
  cbn [negb]. fold nw. split.
  - rewrite (nested_fold_length (fun w c => (w + nw * c)%nat)
               (fun w c => vget (WellSystem.bget (WellSolve.resWell_ s) w) c)).
    apply repeat_length.
  - unfold vget at 1.
    rewrite (nested_fold_self (fun w c => (w + nw * c)%nat)
               (fun w c => vget (WellSystem.bget (WellSolve.resWell_ s) w) c) nw);
      [reflexivity| | | | |].
    + intros a b c1 c2 Ha Hb E.
      assert (c1 = c2) by nia. subst. split; [lia|reflexivity].
    + apply List.seq_NoDup.
    + apply in_seq. lia.
    + exact Hw.
    + rewrite repeat_length. nia.
Qed.

Lemma residual_layout_witness :
  let s := WellSolve.mkSys 0%Z WellExample.toyWellState WellExample.toyWells tt []
             [] [] [] [] [[1; 2; 3]; [4; 5; 6]] in
  vget (WellSolve.residual WellSolveExample.toyOps s) (1 + 2 * 2) = 6.
Proof.
  exact (proj2 (residual_layout WellSolveExample.toyOps
                  (WellSolve.mkSys 0%Z WellExample.toyWellState WellExample.toyWells tt []
                     [] [] [] [] [[1; 2; 3]; [4; 5; 6]])
                  1 2 eq_refl ltac:(simpl; lia) ltac:(simpl; lia) ltac:(simpl; lia))).
Defined.

(** X28.  [setWellVariables] makes every well variable of a component in
    use an independent variable: its value is the entry of the well
    solution vector, its derivative with respect to the own well variable
    is one and every other derivative is zero. *)
Theorem setWellVariables_seeds_unit_derivatives {Coll Lin : Type}
  (O : WellSolve.Ops Coll Lin) (ws : Wells) (xw : WellState) (vars : list EvalWell)
  (w eqIdx : nat)
  (Hw : (w < number_of_wells ws)%nat)
  (He : (eqIdx < WellSolve.numComponents O)%nat)
  (Hwe : (eqIdx < WellSolve.numWellEq O)%nat)
  (Hlen : (number_of_wells ws * eqIdx + w < length vars)%nat) :
  let idx := (number_of_wells ws * eqIdx + w)%nat in
  let v := Eval.get (WellSolve.setWellVariables O ws xw vars) idx in
  value v = vget (wellSolutions xw) idx /\
  length (derivative v) = (WellSolve.numEq O + WellSolve.numWellEq O)%nat /\
  forall j, WellSolve.deriv v j = if (j =? WellSolve.numEq O + eqIdx)%nat then 1 else 0.
Proof.
  intros idx v. subst v idx. unfold WellSolve.setWellVariables, Eval.get.
  set (nw := number_of_wells ws).
  rewrite (nested_fold_self (fun w e => (nw * e + w)%nat)
             (fun w e => mkEval (vget (wellSolutions xw) (nw * e + w))
                           (<[(WellSolve.numEq O + e)%nat := 1]>
                              (repeat 0 (WellSolve.numEq O + WellSolve.numWellEq O)))) nw);
    [| | | | |].
  - cbn [default from_option id value derivative].
    split; [reflexivity|]. split; [now rewrite length_insert, repeat_length|].
    intros j. unfold WellSolve.deriv. cbn [derivative].
    destruct (j =? WellSolve.numEq O + eqIdx)%nat eqn:E.
    + apply Nat.eqb_eq in E. subst j.
      apply vget_insert_eq. rewrite repeat_length. lia.
    + apply Nat.eqb_neq in E. rewrite vget_insert_ne by congruence.
      apply vget_repeat_0.
  - intros a b c1 c2 Ha Hb E.
    assert (c1 = c2) by nia. subst. split; [lia|reflexivity].
  - apply List.seq_NoDup.
  - apply in_seq. lia.
  - exact Hw.
  - exact Hlen.
Qed.

Lemma setWellVariables_seeds_unit_derivatives_witness :
  value (Eval.get (WellSolve.setWellVariables WellSolveExample.toyOps WellExample.toyWells
                     WellExample.toyWellState (repeat (Eval.const 0) 6)) (2 * 1 + 1))
  = vget (wellSolutions WellExample.toyWellState) (2 * 1 + 1).
Proof.
  exact (proj1 (setWellVariables_seeds_unit_derivatives WellSolveExample.toyOps
                  WellExample.toyWells WellExample.toyWellState (repeat (Eval.const 0) 6)
                  1 1 ltac:(simpl; lia) ltac:(simpl; lia) ltac:(simpl; lia)
                  ltac:(simpl; lia))).
Defined.

(** X29.  The loop of [solveWellEq] ends by itself within 15 passes: run
    with any larger bound on the number of passes it gives the result it
    gives with 15. *)
Theorem solveWellEq_loop_ends_within_cap {Coll Lin : Type} (O : WellSolve.Ops Coll Lin)
  (dt : Q) (s : WellSolve.Sys Coll Lin) (fuel : nat)
  (Hfuel : (15 <= fuel)%nat) :
  WellSolve.well_loop O fuel dt 0 s = WellSolve.well_loop O 15 dt 0 s.
Proof.
  rewrite (well_loop_fuel O dt fuel 0 s) by lia.
  reflexivity.
Qed.

Lemma solveWellEq_loop_ends_within_cap_witness :
  WellSolve.well_loop WellSolveExample.convergingOps 40 1 0 WellSolveExample.toySys
  = WellSolve.well_loop WellSolveExample.convergingOps 15 1 0 WellSolveExample.toySys.
Proof.
  exact (solveWellEq_loop_ends_within_cap WellSolveExample.convergingOps 1
           WellSolveExample.toySys 40 ltac:(lia)).
Defined.
